(** * NERRF tracker: the event ingestion and broadcast engine

    A shallow embedding of [tracker/cmd/tracker/main.go]: the record decoder
    ([event], [binary.Read], [sanitizeString], [syscallName]), the timestamp
    reconciliation ([bootTime.Add]), the subscriber registry ([s.clients],
    guarded by [s.mu]) and the broadcast loop ([broadcastEvents]) together
    with the streaming sessions ([StreamEvents]) that run beside it, and of
    [main] the listening address ([getenvDefault]) and the boot time.

    Go values are modelled as the code has them: a [uintN]/[intN] is a [Z]
    with its wrap-around written out, a Go [string] and a [[]byte] are a
    [list byte], a buffered channel is a record holding its queue, its
    capacity and its closed flag, the map [s.clients] is a finite set of
    channel references into a store of channel objects. *)

From Stdlib Require Import ZArith List Lia Bool.
From Stdlib Require Import Strings.Byte Strings.String.
From stdpp Require Import base option list gmap sets strings.
Import ListNotations.

Local Open Scope Z_scope.

(** ** Machine integers *)

Definition byteZ (b : byte) : Z := Z.of_N (Byte.to_N b).

Definition wrap (w : Z) (x : Z) : Z := x mod 2 ^ w.

(** Conversion to a signed [w]-bit integer (two's complement). *)
Definition to_signed (w : Z) (x : Z) : Z :=
  let m := wrap w x in
  if m <? 2 ^ (w - 1) then m else m - 2 ^ w.

Definition to_int32 : Z → Z := to_signed 32.
Definition to_int64 : Z → Z := to_signed 64.

(** A Go string literal, as its bytes. *)
Definition go (s : string) : list byte := list_byte_of_string s.

(** ** Errors and results *)

Inductive error :=
  | EOF               (* io.EOF *)
  | ErrUnexpectedEOF. (* io.ErrUnexpectedEOF *)

(** ** Package io: [io.ReadFull] over a [bytes.Reader] *)

Module io.

(** [io.ReadFull(bytes.NewReader(data), buf)] with [len(buf) = n]: the
    reader hands out what it has; fewer than [n] bytes is [EOF] when
    nothing was read and [ErrUnexpectedEOF] otherwise; bytes beyond the
    first [n] stay unread in the reader. *)
Definition ReadFull (data : list byte) (n : nat) : error + list byte :=
  if (n =? 0)%nat then inr []
  else if (length data =? 0)%nat then inl EOF
  else if (length data <? n)%nat then inl ErrUnexpectedEOF
  else inr (take n data).

End io.

(** ** Package encoding/binary, little-endian *)

Module binary.

Definition u8 (b : list byte) (i : nat) : Z := byteZ (nth i b x00).

(** [binary.LittleEndian.Uint32] and [Uint64]. *)
Definition Uint32 (b : list byte) : Z :=
  Z.lor (Z.lor (Z.lor (u8 b 0) (u8 b 1 ≪ 8)) (u8 b 2 ≪ 16)) (u8 b 3 ≪ 24).

Definition Uint64 (b : list byte) : Z :=
  Z.lor (Z.lor (Z.lor (Z.lor (Z.lor (Z.lor (Z.lor
    (u8 b 0) (u8 b 1 ≪ 8)) (u8 b 2 ≪ 16)) (u8 b 3 ≪ 24))
    (u8 b 4 ≪ 32)) (u8 b 5 ≪ 40)) (u8 b 6 ≪ 48)) (u8 b 7 ≪ 56).

(** The decoder of [binary.Read]: a buffer consumed front to back. *)
Definition decoder (A : Type) : Type := list byte → A * list byte.

#[global] Instance decoder_ret : MRet decoder := λ A a buf, (a, buf).
#[global] Instance decoder_bind : MBind decoder :=
  λ A B k m buf, let (a, buf') := m buf in k a buf'.

Definition uint32 : decoder Z := λ buf, (Uint32 (take 4 buf), drop 4 buf).
Definition uint64 : decoder Z := λ buf, (Uint64 (take 8 buf), drop 8 buf).
Definition int64 : decoder Z := x ← uint64; mret (to_int64 x).
(** A [[n]byte] array: [n] single bytes in sequence. *)
Definition bytes (n : nat) : decoder (list byte) := λ buf, (take n buf, drop n buf).

End binary.

(** ** The raw record *)

(** [type event struct], the layout shared with the kernel side. *)
Record event := mkevent {
  Ts : Z;               (* uint64 *)
  Pid : Z;              (* uint32 *)
  Tid : Z;              (* uint32 *)
  Comm : list byte;     (* [16]byte *)
  SyscallId : Z;        (* uint32 *)
  RetVal : Z;           (* int64 *)
  Bytes : Z;            (* uint64 *)
  Path : list byte;     (* [256]byte *)
  NewPath : list byte   (* [256]byte *)
}.

(** [binary.Size(event{})]: the fields in sequence, without padding. *)
Definition event_size : nat := 8 + 4 + 4 + 16 + 4 + 8 + 8 + 256 + 256.

(** [decoder.value] on an [*event]: the fields in declaration order. *)
Definition value_event : binary.decoder event :=
  ts ← binary.uint64;
  pid ← binary.uint32;
  tid ← binary.uint32;
  comm ← binary.bytes 16;
  id ← binary.uint32;
  ret ← binary.int64;
  nbytes ← binary.uint64;
  path ← binary.bytes 256;
  newpath ← binary.bytes 256;
  mret (mkevent ts pid tid comm id ret nbytes path newpath).

(** [binary.Read(bytes.NewReader(raw), binary.LittleEndian, &e)]. *)
Definition binary_Read (raw : list byte) : error + event :=
  match io.ReadFull raw event_size with
  | inl err => inl err
  | inr buf => inr (fst (value_event buf))
  end.

(** ** [syscallName] *)

Definition syscallName (id : Z) : list byte :=
  if id =? 1 then go "openat"
  else if id =? 2 then go "write"
  else if id =? 3 then go "rename"
  else go "unknown".

(** ** Package unicode/utf8 *)

(** The functions of the Go standard library that [sanitizeString] calls,
    after the library's source (unicode/utf8, strings). *)

Module utf8.

Definition RuneError : Z := 0xFFFD.
Definition RuneSelf : Z := 0x80.

Definition maskx : Z := 0x3F.
Definition mask2 : Z := 0x1F.
Definition mask3 : Z := 0x0F.
Definition mask4 : Z := 0x07.

(** The default lowest and highest continuation byte. *)
Definition locb : Z := 0x80.
Definition hicb : Z := 0xBF.

(** Entries of the table [first]: the high nibble indexes [acceptRanges]
    (or is F for the one-byte cases), the low nibble is the length. *)
Definition xx : Z := 0xF1. (* invalid: size 1 *)
Definition as_ : Z := 0xF0. (* ASCII: size 1 *)
Definition s1 : Z := 0x02. (* accept 0, size 2 *)
Definition s2 : Z := 0x13. (* accept 1, size 3 *)
Definition s3 : Z := 0x03. (* accept 0, size 3 *)
Definition s4 : Z := 0x23. (* accept 2, size 3 *)
Definition s5 : Z := 0x34. (* accept 3, size 4 *)
Definition s6 : Z := 0x04. (* accept 0, size 4 *)
Definition s7 : Z := 0x44. (* accept 4, size 4 *)

(** [var first = [256]uint8{...}]: information about the first byte. *)
Definition first_table : list Z :=
  replicate 128 as_                                   (* 0x00-0x7F *)
  ++ replicate 64 xx                                  (* 0x80-0xBF *)
  ++ [xx; xx] ++ replicate 14 s1                      (* 0xC0-0xCF *)
  ++ replicate 16 s1                                  (* 0xD0-0xDF *)
  ++ [s2; s3; s3; s3; s3; s3; s3; s3; s3; s3; s3; s3; s3; s4; s3; s3]  (* 0xE0-0xEF *)
  ++ [s5; s6; s6; s6; s7; xx; xx; xx; xx; xx; xx; xx; xx; xx; xx; xx]. (* 0xF0-0xFF *)

Definition first (b : Z) : Z := nth (Z.to_nat b) first_table xx.

Record acceptRange := mkAccept { lo : Z; hi : Z }.

(** [var acceptRanges = [16]acceptRange{...}]; unlisted entries are zero. *)
Definition acceptRanges (i : Z) : acceptRange :=
  if i =? 0 then mkAccept locb hicb
  else if i =? 1 then mkAccept 0xA0 hicb
  else if i =? 2 then mkAccept locb 0x9F
  else if i =? 3 then mkAccept 0x90 hicb
  else if i =? 4 then mkAccept locb 0x8F
  else mkAccept 0 0.

Notation "s [: i :]" := (binary.u8 s i) (at level 1, format "s [: i :]").

(** [utf8.DecodeRuneInString]: the first rune of [s] and its width in
    bytes; an invalid encoding gives [(RuneError, 1)]. *)
Definition DecodeRuneInString (s : list byte) : Z * nat :=
  let n := length s in
  if (n <? 1)%nat then (RuneError, 0%nat)
  else
    let s0 := s[:0:] in
    let x := first s0 in
    if x >=? as_ then
      (* mask is 0 for ASCII and all ones for an invalid first byte *)
      let mask := to_int32 (x ≪ 31) ≫ 31 in
      (Z.lor (Z.ldiff s0 mask) (Z.land RuneError mask), 1%nat)
    else
      let sz := Z.to_nat (Z.land x 7) in
      let accept := acceptRanges (x ≫ 4) in
      if (n <? sz)%nat then (RuneError, 1%nat)
      else
        let c1 := s[:1:] in
        if (c1 <? lo accept) || (hi accept <? c1) then (RuneError, 1%nat)
        else if (sz <=? 2)%nat then
          (Z.lor (Z.land s0 mask2 ≪ 6) (Z.land c1 maskx), 2%nat)
        else
          let c2 := s[:2:] in
          if (c2 <? locb) || (hicb <? c2) then (RuneError, 1%nat)
          else if (sz <=? 3)%nat then
            (Z.lor (Z.lor (Z.land s0 mask3 ≪ 12) (Z.land c1 maskx ≪ 6))
                   (Z.land c2 maskx), 3%nat)
          else
            let c3 := s[:3:] in
            if (c3 <? locb) || (hicb <? c3) then (RuneError, 1%nat)
            else
              (Z.lor (Z.lor (Z.lor (Z.land s0 mask4 ≪ 18) (Z.land c1 maskx ≪ 12))
                            (Z.land c2 maskx ≪ 6))
                     (Z.land c3 maskx), 4%nat).

(** The loop of [utf8.ValidString] over the rest [s[i:]] of the string
    (its leading skip over eight ASCII bytes at a time is the same loop,
    unrolled). Every turn consumes at least one byte, so [length s] turns
    are enough; [fuel] bounds them. *)
Fixpoint ValidString_loop (fuel : nat) (s : list byte) : bool :=
  match fuel with
  | O => true
  | S fuel =>
    match s with
    | [] => true
    | _ :: _ =>
      let si := s[:0:] in
      if si <? RuneSelf then ValidString_loop fuel (drop 1 s)
      else
        let x := first si in
        if x =? xx then false (* illegal starter byte *)
        else
          let size := Z.to_nat (Z.land x 7) in
          if (length s <? size)%nat then false (* short or invalid *)
          else
            let accept := acceptRanges (x ≫ 4) in
            if (s[:1:] <? lo accept) || (hi accept <? s[:1:]) then false
            else if (size =? 2)%nat then ValidString_loop fuel (drop size s)
            else if (s[:2:] <? locb) || (hicb <? s[:2:]) then false
            else if (size =? 3)%nat then ValidString_loop fuel (drop size s)
            else if (s[:3:] <? locb) || (hicb <? s[:3:]) then false
            else ValidString_loop fuel (drop size s)
    end
  end.

Definition ValidString (s : list byte) : bool := ValidString_loop (length s) s.

End utf8.

(** ** Package strings *)

Module strings_.

Import utf8.

(** [trimRightByte(s, c)]: drop the last byte while it is [c]. *)
Fixpoint trimRightByte_loop (fuel : nat) (s : list byte) (c : byte) : list byte :=
  match fuel with
  | O => s
  | S fuel =>
    if (0 <? length s)%nat && Byte.eqb (nth (length s - 1) s x00) c
    then trimRightByte_loop fuel (take (length s - 1) s) c
    else s
  end.

Definition trimRightByte (s : list byte) (c : byte) : list byte :=
  trimRightByte_loop (length s) s c.

(** [strings.TrimRight(s, cutset)] for a cutset of one ASCII byte, the
    case [sanitizeString] uses: it is [trimRightByte]. *)
Definition TrimRight (s : list byte) (cutset : byte) : list byte :=
  trimRightByte s cutset.

(** First loop of [strings.ToValidUTF8]: range over the runes of [s]
    from offset [i] and stop at the first invalid byte. *)
Fixpoint firstInvalid (fuel : nat) (i : nat) (s : list byte) : option nat :=
  match fuel with
  | O => None
  | S fuel =>
    match s with
    | [] => None
    | _ :: _ =>
      let '(c, w) := DecodeRuneInString s in
      if negb (c =? RuneError) then firstInvalid fuel (i + w) (drop w s)
      else
        let '(_, wid) := DecodeRuneInString s in
        if (wid =? 1)%nat then Some i
        else firstInvalid fuel (i + w) (drop w s)
    end
  end.

(** Second loop of [strings.ToValidUTF8]: copy ASCII bytes and valid
    runes, write [replacement] once per run of invalid bytes. The result
    is what the loop appends to the builder. *)
Fixpoint replaceInvalid (fuel : nat) (replacement : list byte) (invalid : bool)
    (s : list byte) : list byte :=
  match fuel with
  | O => []
  | S fuel =>
    match s with
    | [] => []
    | b :: _ =>
      if byteZ b <? RuneSelf then
        b :: replaceInvalid fuel replacement false (drop 1 s)
      else
        let '(_, wid) := DecodeRuneInString s in
        if (wid =? 1)%nat then
          (if invalid then [] else replacement)
            ++ replaceInvalid fuel replacement true (drop 1 s)
        else
          take wid s ++ replaceInvalid fuel replacement false (drop wid s)
    end
  end.

Definition ToValidUTF8 (s replacement : list byte) : list byte :=
  match firstInvalid (length s) 0 s with
  | None => s (* fast path for unchanged input *)
  | Some i =>
    take i s ++ replaceInvalid (length (drop i s)) replacement false (drop i s)
  end.

End strings_.

(** ** [sanitizeString] *)

Definition sanitizeString (b : list byte) : list byte :=
  let s := strings_.TrimRight b x00 in
  if negb (utf8.ValidString s) then strings_.ToValidUTF8 s (go "?")
  else s.

(** ** Package time *)

(** [Time.Add] and what [timestamppb.New] reads of a [Time], after the
    library's source. *)

Module time.

(** [time.Duration]: an [int64] count of nanoseconds. *)
Definition Duration : Type := Z.
Definition Nanosecond : Duration := 1.

(** [d1 * d2] on [Duration], with [int64] wrap-around. *)
Definition mul (d1 d2 : Duration) : Duration := to_int64 (d1 * d2).
(** [-d] on [Duration]. *)
Definition neg (d : Duration) : Duration := to_int64 (- d).

(** A [time.Time], by its wall-clock reading: [int64] seconds since
    January 1 of year 1 and nanoseconds within the second. (The packed
    form of the seconds and the monotonic reading that [Time] carries
    beside them do not enter [Unix] or [Nanosecond].) *)
Record Time := mkTime { sec : Z; nsec : Z }.

Definition unixToInternal : Z :=
  (1969 * 365 + 1969 / 4 - 1969 / 100 + 1969 / 400) * 86400.
Definition internalToUnix : Z := - unixToInternal.

(** [t.addSec(d)]: saturates when the [int64] sum overflows. *)
Definition addSec (t : Time) (d : Z) : Time :=
  let sum := to_int64 (sec t + d) in
  if Bool.eqb (sum >? sec t) (d >? 0) then mkTime sum (nsec t)
  else if d >? 0 then mkTime (2 ^ 63 - 1) (nsec t)
  else mkTime (- (2 ^ 63 - 1)) (nsec t).

(** [t.Add(d)]. Go's [/] and [%] truncate toward zero. *)
Definition Add (t : Time) (d : Duration) : Time :=
  let dsec := d ÷ 1000000000 in
  let nsec := to_int32 (nsec t + to_int32 (d `rem` 1000000000)) in
  let '(dsec, nsec) :=
    if nsec >=? 1000000000 then (dsec + 1, nsec - 1000000000)
    else if nsec <? 0 then (dsec - 1, nsec + 1000000000)
    else (dsec, nsec) in
  addSec (mkTime (sec t) nsec) dsec.

Definition Unix (t : Time) : Z := to_int64 (sec t + internalToUnix).
Definition Nanosecond_of (t : Time) : Z := nsec t.

End time.

(** [unix.Timespec] as [clock_gettime] fills it. *)
Record Timespec := mkTimespec { ts_Sec : Z; ts_Nsec : Z }.

(** The boot time computed in [main]:
    [monoNs := ts.Sec*1000000000 + ts.Nsec] and
    [time.Now().Add(-time.Duration(monoNs) * time.Nanosecond)]. *)
Definition computeBootTime (now : time.Time) (ts : Timespec) : time.Time :=
  let monoNs := to_int64 (to_int64 (ts_Sec ts * 1000000000) + ts_Nsec ts) in
  time.Add now (time.mul (time.neg monoNs) time.Nanosecond).

(** ** [getenvDefault] *)

(** The process environment: the variables that are set, each with its
    value. *)
Abbreviation environ := (gmap string (list byte)).

(** [os.Getenv(k)]: the value of [k], the empty string when [k] is not
    set. *)
Definition Getenv (env : environ) (k : string) : list byte :=
  default [] (env !! k).

Definition getenvDefault (env : environ) (k : string) (v : list byte) : list byte :=
  let val := Getenv env k in
  if negb (length val =? 0)%nat then val else v.

(** The address [main] listens on:
    [getenvDefault("TRACKER_LISTEN_ADDR", "127.0.0.1:50051")]. *)
Definition listenAddr (env : environ) : list byte :=
  getenvDefault env "TRACKER_LISTEN_ADDR" (go "127.0.0.1:50051").

(** ** The protobuf event *)

Module pb.

(** [timestamppb.Timestamp]. *)
Record Timestamp := mkTimestamp { Seconds : Z; Nanos : Z }.

(** [timestamppb.New(t)]. *)
Definition New (t : time.Time) : Timestamp :=
  mkTimestamp (time.Unix t) (to_int32 (time.Nanosecond_of t)).

(** Modelled from the spec: the generated package [pkg/pb] (trace.pb.go)
    is not among the sources. The access-mode classification of an event;
    [broadcastEvents] only ever writes [Event_O_RDONLY], "a single default
    value pending future extension". *)
Inductive Event_OpenFlags := Event_O_RDONLY | Event_O_WRONLY.

(** Modelled from the spec: the generated package [pkg/pb] is not among
    the sources. An event carries an absolute timestamp, pid, tid, process
    name, syscall name, source path, destination path, return value, byte
    count and the access-mode classification; the field names and types
    are those [broadcastEvents] assigns. *)
Record Event := mkEvent {
  Ts : Timestamp;
  Pid : Z;
  Tid : Z;
  Comm : list byte;
  Syscall : list byte;
  Path : list byte;
  NewPath : list byte;
  RetVal : Z;
  Bytes : Z;
  Flags : Event_OpenFlags
}.

(** Modelled from the spec: [pb.EventBatch], an ordered sequence of
    events; here its [Events] field. *)
Definition EventBatch : Type := list Event.

End pb.

(** The body of the broadcast loop between the decode and the broadcast:
    the protobuf event for a raw record, and its one-element batch. *)
Definition pbEvent (bootTime : time.Time) (e : event) : pb.Event :=
  let eventTime :=
    time.Add bootTime (time.mul (to_int64 (Ts e)) time.Nanosecond) in
  {| pb.Ts := pb.New eventTime;
     pb.Pid := Pid e;
     pb.Tid := Tid e;
     pb.Comm := sanitizeString (Comm e);
     pb.Syscall := syscallName (SyscallId e);
     pb.Path := sanitizeString (Path e);
     pb.NewPath := sanitizeString (NewPath e);
     pb.RetVal := RetVal e;
     pb.Bytes := Bytes e;
     pb.Flags := pb.Event_O_RDONLY |}.

Definition mkBatch (bootTime : time.Time) (e : event) : pb.EventBatch :=
  [pbEvent bootTime e].

(** Decoding one raw sample into the batch the loop broadcasts. *)
Definition decodeBatch (bootTime : time.Time) (raw : list byte)
  : error + pb.EventBatch :=
  match binary_Read raw with
  | inl err => inl err
  | inr e => inr (mkBatch bootTime e)
  end.

(** ** Outcomes of an operation *)

(** An operation returns, cannot proceed now (it would block, or it is not
    this thread's turn), or panics. *)
Inductive result (A : Type) : Type :=
  | Ok (a : A)
  | Stuck
  | Panic.
Arguments Ok {A} a.
Arguments Stuck {A}.
Arguments Panic {A}.

#[global] Instance result_ret : MRet result := λ A a, Ok a.
#[global] Instance result_bind : MBind result := λ A B k m,
  match m with
  | Ok a => k a
  | Stuck => Stuck
  | Panic => Panic
  end.

(** ** Buffered channels of batches *)

Module chan.

(** [make(chan *pb.EventBatch, cap)]: the queue, its capacity, and
    whether [close] was called. *)
Record t := mk { buf : list pb.EventBatch; cap : nat; closed : bool }.

Definition make (n : nat) : t := mk [] n false.

(** [chansend(c, ep, block)] of the runtime: a send on a closed channel
    panics; with room in the buffer the element is queued; without room
    a blocking send waits and a non-blocking one reports [false]. *)
Definition send (c : t) (ep : pb.EventBatch) (block : bool) : result (t * bool) :=
  if closed c then Panic
  else if (length (buf c) <? cap c)%nat then Ok (mk (buf c ++ [ep]) (cap c) false, true)
  else if negb block then Ok (c, false)
  else Stuck.

(** [<-c]: the head of the queue; on an empty channel the zero value
    when it is closed, and a wait otherwise. *)
Definition recv (c : t) : result (t * option pb.EventBatch) :=
  match buf c with
  | ep :: rest => Ok (mk rest (cap c) (closed c), Some ep)
  | [] => if closed c then Ok (c, None) else Stuck
  end.

(** [close(c)]: closing a closed channel panics. *)
Definition close (c : t) : result t :=
  if closed c then Panic else Ok (mk (buf c) (cap c) true).

End chan.

(** ** The subscriber registry *)

(** A channel reference (the address of the channel object). *)
Abbreviation loc := positive.

(** The map [s.clients] (its keys) and the channel objects the program has
    made, indexed by their references. *)
Record registry := mkRegistry {
  clients : gset loc;
  chans : gmap loc chan.t
}.

(** The buffer size [StreamEvents] gives every client channel. *)
Definition clientChanCap : nat := 100.

(** [select { case ch <- batch: default: }]: a non-blocking send. *)
Definition selectnbsend (ch : loc) (batch : pb.EventBatch)
    (h : gmap loc chan.t) : result (gmap loc chan.t) :=
  match h !! ch with
  | None => Panic
  | Some c =>
    '(c', _) ← chan.send c batch false;
    mret (<[ch := c']> h)
  end.

(** [for ch := range s.clients { select ... }], the keys coming in the
    order [keys] (Go leaves the order of a map iteration open). *)
Fixpoint rangeSend (keys : list loc) (batch : pb.EventBatch)
    (h : gmap loc chan.t) : result (gmap loc chan.t) :=
  match keys with
  | [] => Ok h
  | ch :: keys =>
    h' ← selectnbsend ch batch h;
    rangeSend keys batch h'
  end.

(** The critical section of the broadcast loop, run without interruption:
    [s.mu.Lock(); for ch := range s.clients {...}; s.mu.Unlock()]. *)
Definition broadcast (batch : pb.EventBatch) (r : registry) : result registry :=
  h' ← rangeSend (elements (clients r)) batch (chans r);
  mret (mkRegistry (clients r) h').

(** The head of [StreamEvents]: a new channel at the fresh reference [ch],
    entered into [s.clients]. *)
Definition register (ch : loc) (r : registry) : registry :=
  mkRegistry ({[ch]} ∪ clients r) (<[ch := chan.make clientChanCap]> (chans r)).

(** The deferred function of [StreamEvents]:
    [delete(s.clients, clientChan)] under the lock, then [close(clientChan)]. *)
Definition unregister (ch : loc) (r : registry) : result registry :=
  let cl := clients r ∖ {[ch]} in
  match chans r !! ch with
  | None => Panic
  | Some c =>
    c' ← chan.close c;
    mret (mkRegistry cl (<[ch := c']> (chans r)))
  end.

(** ** The broadcast loop, run on its own *)

(** What [s.rd.Read()] returns: a record with its raw sample, or an error
    (the reader was closed). *)
Inductive read_result :=
  | Record_ (RawSample : list byte)
  | ReadError.

(** [broadcastEvents] over the sequence of results its reads return, with
    no session running in between. When the results are used up the loop
    waits in [Read]. *)
Fixpoint broadcastEvents (bootTime : time.Time) (reads : list read_result)
    (r : registry) : result registry :=
  match reads with
  | [] => Ok r
  | ReadError :: _ => Ok r (* return *)
  | Record_ raw :: reads =>
    match decodeBatch bootTime raw with
    | inl _ => broadcastEvents bootTime reads r (* continue *)
    | inr batch =>
      r' ← broadcast batch r;
      broadcastEvents bootTime reads r'
    end
  end.

(** ** The goroutines, statement by statement *)

Inductive thread :=
  | Broadcaster
  | Session (ch : loc).

(** Where the goroutine of [broadcastEvents] stands. *)
Inductive bcast_pc :=
  | BRead                                            (* at s.rd.Read() *)
  | BLock (batch : pb.EventBatch)                    (* batch built, at s.mu.Lock() *)
  | BRange (batch : pb.EventBatch) (visited : gset loc) (* in the range loop, lock held *)
  | BReturned.                                       (* returned on a read error *)

(** Where a call of [StreamEvents] stands; the name is the statement it
    executes next. *)
Inductive sess_pc :=
  | SLock        (* channel made; at s.mu.Lock() *)
  | SInsert      (* at s.clients[clientChan] = struct{}{} *)
  | SUnlock      (* at s.mu.Unlock() *)
  | SSelect      (* in the for/select loop *)
  | SDeferLock   (* returning; deferred function at s.mu.Lock() *)
  | SDelete      (* at delete(s.clients, clientChan) *)
  | SDeferUnlock (* at s.mu.Unlock() *)
  | SClose       (* at close(clientChan) *)
  | SDone.       (* returned *)

Record state := mkState {
  reg : registry;
  bootTime : time.Time;            (* s.bootTime *)
  mu : option thread;              (* s.mu and its holder *)
  bpc : bcast_pc;
  spc : gmap loc sess_pc;          (* the sessions, by their clientChan *)
  streamed : gmap loc (list pb.EventBatch) (* the batches each session passed to stream.Send *)
}.

(** One step of one goroutine. *)
Inductive action :=
  | ARead (r : read_result)  (* the loop: Read returns r; decode; build the batch *)
  | ABLock                   (* the loop: s.mu.Lock() *)
  | ABSend (ch : loc)        (* the loop: the range yields ch; select send *)
  | ABUnlock                 (* the loop: range over; s.mu.Unlock() *)
  | ASNew (ch : loc)         (* a new StreamEvents call makes its channel at ch *)
  | ASStep (ch : loc)        (* session ch: its next statement outside the select *)
  | ASRecv (ch : loc) (sent : bool) (* session ch: receives a batch; stream.Send succeeds or not *)
  | ASCancel (ch : loc).     (* session ch: stream.Context().Done() *)

Definition set_reg (st : state) (r : registry) : state :=
  mkState r (bootTime st) (mu st) (bpc st) (spc st) (streamed st).
Definition set_mu (st : state) (m : option thread) : state :=
  mkState (reg st) (bootTime st) m (bpc st) (spc st) (streamed st).
Definition set_bpc (st : state) (pc : bcast_pc) : state :=
  mkState (reg st) (bootTime st) (mu st) pc (spc st) (streamed st).
Definition set_spc (st : state) (ch : loc) (pc : sess_pc) : state :=
  mkState (reg st) (bootTime st) (mu st) (bpc st) (<[ch := pc]> (spc st)) (streamed st).
Definition log_stream (st : state) (ch : loc) (b : pb.EventBatch) : state :=
  mkState (reg st) (bootTime st) (mu st) (bpc st) (spc st)
          (<[ch := streamed st !!! ch ++ [b]]> (streamed st)).

(** The statements of [broadcastEvents]. *)
Definition step_bcast (a : action) (st : state) : result state :=
  match a, bpc st with
  | ARead ReadError, BRead => Ok (set_bpc st BReturned)
  | ARead (Record_ raw), BRead =>
    match decodeBatch (bootTime st) raw with
    | inl _ => Ok st (* continue *)
    | inr batch => Ok (set_bpc st (BLock batch))
    end
  | ABLock, BLock batch =>
    match mu st with
    | None => Ok (set_bpc (set_mu st (Some Broadcaster)) (BRange batch ∅))
    | Some _ => Stuck
    end
  | ABSend ch, BRange batch visited =>
    if decide (ch ∈ clients (reg st) ∖ visited) then
      h' ← selectnbsend ch batch (chans (reg st));
      mret (set_bpc (set_reg st (mkRegistry (clients (reg st)) h'))
                    (BRange batch ({[ch]} ∪ visited)))
    else Stuck
  | ABUnlock, BRange batch visited =>
    if decide (clients (reg st) ⊆ visited) then Ok (set_bpc (set_mu st None) BRead)
    else Stuck
  | _, _ => Stuck
  end.

(** The statements of [StreamEvents] outside its select. *)
Definition step_session (ch : loc) (st : state) : result state :=
  match spc st !! ch with
  | Some SLock =>
    match mu st with
    | None => Ok (set_spc (set_mu st (Some (Session ch))) ch SInsert)
    | Some _ => Stuck
    end
  | Some SInsert =>
    Ok (set_spc (set_reg st (mkRegistry ({[ch]} ∪ clients (reg st)) (chans (reg st)))) ch SUnlock)
  | Some SUnlock => Ok (set_spc (set_mu st None) ch SSelect)
  | Some SDeferLock =>
    match mu st with
    | None => Ok (set_spc (set_mu st (Some (Session ch))) ch SDelete)
    | Some _ => Stuck
    end
  | Some SDelete =>
    Ok (set_spc (set_reg st (mkRegistry (clients (reg st) ∖ {[ch]}) (chans (reg st)))) ch SDeferUnlock)
  | Some SDeferUnlock => Ok (set_spc (set_mu st None) ch SClose)
  | Some SClose =>
    match chans (reg st) !! ch with
    | None => Panic
    | Some c =>
      c' ← chan.close c;
      mret (set_spc (set_reg st (mkRegistry (clients (reg st)) (<[ch := c']> (chans (reg st))))) ch SDone)
    end
  | Some SSelect | Some SDone | None => Stuck
  end.

(** The select of [StreamEvents]: a batch arrives and goes to
    [stream.Send], which succeeds or fails. *)
Definition step_recv (ch : loc) (sent : bool) (st : state) : result state :=
  match (spc st !! ch), (chans (reg st) !! ch) with
  | Some SSelect, Some c =>
    '(c', batch) ← chan.recv c;
    let st1 := set_reg st (mkRegistry (clients (reg st)) (<[ch := c']> (chans (reg st)))) in
    let st2 := log_stream st1 ch (default [] batch) in
    mret (if sent then st2 else set_spc st2 ch SDeferLock)
  | _, _ => Stuck
  end.

Definition step (a : action) (st : state) : result state :=
  match a with
  | ARead _ | ABLock | ABSend _ | ABUnlock => step_bcast a st
  | ASNew ch =>
    if decide ((ch ∉ dom (chans (reg st))) ∧ (ch ∉ dom (spc st))) then
      Ok (set_spc (set_reg st (mkRegistry (clients (reg st))
                                 (<[ch := chan.make clientChanCap]> (chans (reg st)))))
                  ch SLock)
    else Stuck
  | ASStep ch => step_session ch st
  | ASRecv ch sent => step_recv ch sent st
  | ASCancel ch =>
    match spc st !! ch with
    | Some SSelect => Ok (set_spc st ch SDeferLock)
    | _ => Stuck
    end
  end.

(** A schedule: the goroutines' steps in the order they happen. *)
Fixpoint run (tr : list action) (st : state) : result state :=
  match tr with
  | [] => Ok st
  | a :: tr => st' ← step a st; run tr st'
  end.

(** The state [main] starts the goroutines in: no client, the boot time
    taken, the lock free, the loop about to read. *)
Definition init (boot : time.Time) : state :=
  mkState (mkRegistry ∅ ∅) boot None BRead ∅ ∅.

(** * What the theorems are stated with *)

(** ** Well-formed UTF-8 *)

Module utf8_spec.

(** The well-formed byte sequences of the Unicode standard (its table of
    well-formed UTF-8 byte sequences), against which the decoder of
    package [utf8] is checked below. *)

(** A continuation byte. *)
Definition cont (c : byte) : bool := (0x80 <=? byteZ c) && (byteZ c <=? 0xBF).
(** A second byte within the bounds its leading byte sets. *)
Definition second (lo hi : Z) (c : byte) : bool := (lo <=? byteZ c) && (byteZ c <=? hi).
(** The length of the well-formed rune [s] starts with, if any. *)
Definition runeLen (s : list byte) : option nat :=
  match s with
  | [] => None
  | b0 :: t =>
    let z := byteZ b0 in
    if z <? 0x80 then Some 1%nat
    else if z <? 0xC2 then None
    else if z <? 0xE0 then
      match t with
      | c1 :: _ => if cont c1 then Some 2%nat else None
      | _ => None
      end
    else if z <? 0xF0 then
      match t with
      | c1 :: c2 :: _ =>
        if second (if z =? 0xE0 then 0xA0 else 0x80) (if z =? 0xED then 0x9F else 0xBF) c1
           && cont c2 then Some 3%nat else None
      | _ => None
      end
    else if z <? 0xF5 then
      match t with
      | c1 :: c2 :: c3 :: _ =>
        if second (if z =? 0xF0 then 0x90 else 0x80) (if z =? 0xF4 then 0x8F else 0xBF) c1
           && cont c2 && cont c3 then Some 4%nat else None
      | _ => None
      end
    else None
  end.

(** The number of leading bytes of [s] at which no well-formed rune starts. *)
Fixpoint invalidRun (s : list byte) : nat :=
  match s with
  | [] => 0
  | _ :: t => if runeLen s is None then S (invalidRun t) else 0
  end.

(** [replaced r s t]: [t] is [s] with its well-formed runes kept and
    every maximal run of bytes that start no well-formed rune replaced
    by one copy of [r]. *)
Inductive replaced (r : list byte) : list byte → list byte → Prop :=
  | replaced_nil : replaced r [] []
  | replaced_rune s w t :
      runeLen s = Some w →
      replaced r (drop w s) t →
      replaced r s (take w s ++ t)
  | replaced_run s k t :
      (0 < k ≤ length s)%nat →
      (∀ i, (i < k)%nat → runeLen (drop i s) = None) →
      drop k s = [] ∨ is_Some (runeLen (drop k s)) →
      replaced r (drop k s) t →
      replaced r s (r ++ t).
End utf8_spec.

Import utf8 utf8_spec.

(** The table [first], by ranges of the leading byte. *)
Definition first_by_range (z : Z) : Z :=
  if z <? 0x80 then as_
  else if z <? 0xC2 then xx
  else if z <? 0xE0 then s1
  else if z =? 0xE0 then s2
  else if z <? 0xED then s3
  else if z =? 0xED then s4
  else if z <? 0xF0 then s3
  else if z =? 0xF0 then s5
  else if z <? 0xF4 then s6
  else if z =? 0xF4 then s7
  else xx.

(** [lead_class z x]: the entry [x] of [first] and the leading bytes [z]
    that have it. *)
Inductive lead_class (z : Z) : Z → Prop :=
  | lead_as : z < 0x80 → lead_class z as_
  | lead_xx : 0x80 ≤ z < 0xC2 ∨ 0xF5 ≤ z → lead_class z xx
  | lead_s1 : 0xC2 ≤ z < 0xE0 → lead_class z s1
  | lead_s2 : z = 0xE0 → lead_class z s2
  | lead_s3 : 0xE1 ≤ z < 0xED ∨ 0xEE ≤ z < 0xF0 → lead_class z s3
  | lead_s4 : z = 0xED → lead_class z s4
  | lead_s5 : z = 0xF0 → lead_class z s5
  | lead_s6 : 0xF1 ≤ z < 0xF4 → lead_class z s6
  | lead_s7 : z = 0xF4 → lead_class z s7.

(** The second loop of [ToValidUTF8] with the fuel it needs. *)
Definition replaceAll (r : list byte) (inv : bool) (s : list byte) : list byte :=
  strings_.replaceInvalid (length s) r inv s.

(** The C reading of a byte buffer: the bytes before the first zero. *)
Fixpoint cstring (s : list byte) : list byte :=
  match s with
  | [] => []
  | b :: t => if Byte.eqb b x00 then [] else b :: cstring t
  end.

(** ** Time *)

(** A boot time far from the ends of the [int64] seconds, as every real
    clock reading is (the bounds are 146 billion years either way). *)
Definition time_ok (t : time.Time) : Prop :=
  0 ≤ time.nsec t < 1000000000 ∧ - 2 ^ 62 ≤ time.sec t ≤ 2 ^ 62.

(** The wall-clock reading in nanoseconds since the Unix epoch. *)
Definition unixNano (t : time.Time) : Z :=
  (time.sec t + time.internalToUnix) * 1000000000 + time.nsec t.

(** ** The registry and the goroutines *)

(** What a non-blocking send leaves of an open channel. *)
Definition enqueue (batch : pb.EventBatch) (c : chan.t) : chan.t :=
  if (length (chan.buf c) <? chan.cap c)%nat
  then chan.mk (chan.buf c ++ [batch]) (chan.cap c) false
  else c.

(** Every registered channel exists, is open and has the capacity
    [StreamEvents] made it with. *)
Definition registry_ok (r : registry) : Prop :=
  ∀ ch, ch ∈ clients r →
    ∃ c, chans r !! ch = Some c ∧ chan.closed c = false ∧ chan.cap c = clientChanCap.

(** The statements between the insertion into [s.clients] and the
    deletion from it. *)
Definition registered_pc (pc : sess_pc) : bool :=
  match pc with
  | SUnlock | SSelect | SDeferLock | SDelete => true
  | _ => false
  end.

(** The statements a session executes holding [s.mu]. *)
Definition holds_lock (pc : sess_pc) : bool :=
  match pc with
  | SInsert | SUnlock | SDelete | SDeferUnlock => true
  | _ => false
  end.

Definition is_done (pc : sess_pc) : bool :=
  match pc with
  | SDone => true
  | _ => false
  end.

Definition ranging (pc : bcast_pc) : bool :=
  match pc with
  | BRange _ _ => true
  | _ => false
  end.

(** Whether thread [t] is inside a critical section of [s.mu]. *)
Definition holder (st : state) (t : thread) : bool :=
  match t with
  | Broadcaster => ranging (bpc st)
  | Session ch =>
    match spc st !! ch with
    | Some pc => holds_lock pc
    | None => false
    end
  end.

(** The invariant of the goroutines: [s.clients] holds exactly the
    channels of the sessions between their insert and their delete; every
    session's channel exists with the capacity it was made with and is
    closed only once the session has returned; [s.mu] is held by the
    thread that is inside its critical section. *)
Record inv (st : state) : Prop := mkInv {
  inv_clients : ∀ ch,
    ch ∈ clients (reg st) ↔ ∃ pc, spc st !! ch = Some pc ∧ registered_pc pc = true;
  inv_chans : ∀ ch pc, spc st !! ch = Some pc →
    ∃ c, chans (reg st) !! ch = Some c
         ∧ chan.cap c = clientChanCap ∧ chan.closed c = is_done pc;
  inv_mu : ∀ t, holder st t = true ↔ mu st = Some t
}.

(** The batches waiting in the queue of [ch]. *)
Definition queue (st : state) (ch : loc) : list pb.EventBatch :=
  match chans (reg st) !! ch with
  | Some c => chan.buf c
  | None => []
  end.

(** All the batches the queue of [ch] has held so far that are not
    forgotten: those its session took out and passed to [stream.Send],
    then those still waiting. *)
Definition delivered (st : state) (ch : loc) : list pb.EventBatch :=
  streamed st !!! ch ++ queue st ch.

(** The batch the loop has decoded and not yet offered to [ch]. *)
Definition pending (st : state) (ch : loc) : list pb.EventBatch :=
  match bpc st with
  | BLock b => [b]
  | BRange b visited => if decide (ch ∈ visited) then [] else [b]
  | _ => []
  end.

(** The batch a step decodes: a read whose record decodes. *)
Definition decoded1 (boot : time.Time) (a : action) : list pb.EventBatch :=
  match a with
  | ARead (Record_ raw) =>
    match decodeBatch boot raw with
    | inr b => [b]
    | inl _ => []
    end
  | _ => []
  end.

(** The batches a schedule decodes, in decode order. *)
Definition decoded (boot : time.Time) (tr : list action) : list pb.EventBatch :=
  concat (map (decoded1 boot) tr).

(** The queue of [ch] is full. *)
Definition full (st : state) (ch : loc) : bool :=
  match chans (reg st) !! ch with
  | Some c => negb (length (chan.buf c) <? chan.cap c)%nat
  | None => false
  end.

(** The step is a send to [ch] that finds its queue full. *)
Definition finds_full (ch : loc) (a : action) (st : state) : bool :=
  match a with
  | ABSend ch' => bool_decide (ch' = ch) && full st ch
  | _ => false
  end.

(** No send to [ch] along the schedule finds its queue full. *)
Fixpoint never_full (ch : loc) (tr : list action) (st : state) : bool :=
  match tr with
  | [] => true
  | a :: tr =>
    match step a st with
    | Ok st' => negb (finds_full ch a st) && never_full ch tr st'
    | _ => true
    end
  end.

(** The order of the statements of a session. *)
Definition rank (pc : sess_pc) : nat :=
  match pc with
  | SLock => 0
  | SInsert => 1
  | SUnlock => 2
  | SSelect => 3
  | SDeferLock => 4
  | SDelete => 5
  | SDeferUnlock => 6
  | SClose => 7
  | SDone => 8
  end.


(** Where session [ch] stands among its statements ([0] before it has
    started). *)
Definition progress (st : state) (ch : loc) : nat :=
  match spc st !! ch with
  | Some pc => rank pc
  | None => 0
  end.

(** Whether the step [a], taken in [st], is session [ch] executing its
    statement [pc]. *)
Definition executes (ch : loc) (pc : sess_pc) (a : action) (st : state) : bool :=
  match a with
  | ASStep ch' =>
    bool_decide (ch' = ch)
    && match spc st !! ch with
       | Some pc' => (rank pc' =? rank pc)%nat
       | None => false
       end
  | _ => false
  end.

(** How many times session [ch] executes its statement [pc] along a
    schedule. *)
Fixpoint executions (ch : loc) (pc : sess_pc) (tr : list action) (st : state) : nat :=
  match tr with
  | [] => 0%nat
  | a :: tr =>
    match step a st with
    | Ok st' => ((if executes ch pc a st then 1 else 0) + executions ch pc tr st')%nat
    | _ => 0%nat
    end
  end.

(** ** Further notions *)

(** The number a byte sequence denotes, least significant byte first. *)
Fixpoint le_value (b : list byte) : Z :=
  match b with
  | [] => 0
  | x :: t => byteZ x + 256 * le_value t
  end.

(** The batches [broadcastEvents] decodes from the results of its reads:
    those of the records that decode, up to the first read error. *)
Fixpoint decodedReads (boot : time.Time) (reads : list read_result)
  : list pb.EventBatch :=
  match reads with
  | [] => []
  | ReadError :: _ => []
  | Record_ raw :: reads =>
    match decodeBatch boot raw with
    | inl _ => decodedReads boot reads
    | inr b => b :: decodedReads boot reads
    end
  end.

(** The names [syscallName] returns. *)
Definition syscall_names : list (list byte) :=
  [go "openat"; go "write"; go "rename"; go "unknown"].

Definition list_byte_eqb (a b : list byte) : bool :=
  (length a =? length b)%nat && forallb (λ p, Byte.eqb p.1 p.2) (zip a b).

(** An event as a subscriber can rely on it: its strings are valid UTF-8
    and no longer than the fields of the raw record, its numbers are
    within their Go types, its syscall name is one of the four, and its
    access mode is the default. *)
Definition event_ok (ev : pb.Event) : bool :=
  ValidString (pb.Comm ev) && (length (pb.Comm ev) <=? 16)%nat
  && ValidString (pb.Path ev) && (length (pb.Path ev) <=? 256)%nat
  && ValidString (pb.NewPath ev) && (length (pb.NewPath ev) <=? 256)%nat
  && existsb (list_byte_eqb (pb.Syscall ev)) syscall_names
  && (0 <=? pb.Pid ev) && (pb.Pid ev <? 2 ^ 32)
  && (0 <=? pb.Tid ev) && (pb.Tid ev <? 2 ^ 32)
  && (- 2 ^ 63 <=? pb.RetVal ev) && (pb.RetVal ev <? 2 ^ 63)
  && (0 <=? pb.Bytes ev) && (pb.Bytes ev <? 2 ^ 64)
  && match pb.Flags ev with pb.Event_O_RDONLY => true | _ => false end.

(** A batch as the loop builds it: one event. *)
Definition batch_ok (b : pb.EventBatch) : bool :=
  match b with
  | [ev] => event_ok ev
  | _ => false
  end.

(** The batch the loop holds between decoding it and the end of its
    broadcast. *)
Definition in_hand (pc : bcast_pc) : list pb.EventBatch :=
  match pc with
  | BLock b | BRange b _ => [b]
  | _ => []
  end.

(** Every batch in the program is as the loop builds it: the one the
    loop has in hand, those waiting in a queue, and those passed to
    [stream.Send]. *)
Record batches_ok (st : state) : Prop := mkBatchesOk {
  ok_in_hand : Forall (λ b, batch_ok b = true) (in_hand (bpc st));
  ok_queued : ∀ ch c, chans (reg st) !! ch = Some c →
    Forall (λ b, batch_ok b = true) (chan.buf c);
  ok_streamed : ∀ ch l, streamed st !! ch = Some l →
    Forall (λ b, batch_ok b = true) l
}.

(** No queue holds more than the capacity it was made with, which is
    [clientChanCap]. *)
Definition queues_bounded (st : state) : Prop :=
  ∀ ch c, chans (reg st) !! ch = Some c →
    (length (chan.buf c) ≤ chan.cap c)%nat ∧ chan.cap c = clientChanCap.

(** The rest of a pass of the range loop: the clients not yet visited, in
    the order [elements] lists them, then the unlock. *)
Definition finish_range (st : state) : list action :=
  match bpc st with
  | BRange _ visited =>
    map ABSend (elements (clients (reg st) ∖ visited)) ++ [ABUnlock]
  | _ => []
  end.

(** A clock reading as [main] can take it: the nanoseconds within the
    second, the seconds far from the ends of [int64]. *)
Definition clock_ok (t : time.Time) : Prop :=
  0 ≤ time.nsec t < 1000000000 ∧ - 2 ^ 61 ≤ time.sec t ≤ 2 ^ 61.

(** A reading of [CLOCK_MONOTONIC]: non-negative seconds below [2^33]
    (272 years of uptime) and nanoseconds within the second. *)
Definition mono_ok (ts : Timespec) : Prop :=
  0 ≤ ts_Sec ts < 2 ^ 33 ∧ 0 ≤ ts_Nsec ts < 1000000000.

(** The steps of the sessions, as against those of the loop. *)
Definition of_session (a : action) : bool :=
  match a with
  | ASNew _ | ASStep _ | ASRecv _ _ | ASCancel _ => true
  | _ => false
  end.

(** ** Sample inputs *)

(** A boot time: 2023-11-14T22:13:20Z. *)
Definition boot0 : time.Time := time.mkTime (time.unixToInternal + 1700000000) 0.

(** A raw record of the declared size, its [SyscallId] set to [id] and
    every other byte zero. *)
Definition rawRecord (id : byte) : list byte :=
  replicate 32 x00 ++ [id; x00; x00; x00] ++ replicate 528 x00.

(** The syscall name of the event a raw sample decodes to. *)
Definition decodedSyscall (boot : time.Time) (raw : list byte) : option (list byte) :=
  match decodeBatch boot raw with
  | inr [ev] => Some (pb.Syscall ev)
  | _ => None
  end.

(** The statements of a session from its start to the select loop, and
    from its return to the end of its deferred function. *)
Definition startup (ch : loc) : list action :=
  [ASNew ch; ASStep ch; ASStep ch; ASStep ch].
Definition teardown (ch : loc) : list action :=
  [ASStep ch; ASStep ch; ASStep ch; ASStep ch].

(** One whole turn of the loop on a record, with the one client 1. *)
Definition turn1 (raw : list byte) : list action :=
  [ARead (Record_ raw); ABLock; ABSend 1; ABUnlock].

(** Session 1 unregisters before the loop takes the lock for the record
    it has decoded, and closes its channel while the loop is ranging. *)
Definition race_dropped : list action :=
  startup 1 ++ startup 2 ++ [ARead (Record_ (rawRecord x01)); ASCancel 1]
  ++ [ASStep 1; ASStep 1; ASStep 1] ++ [ABLock; ASStep 1; ABSend 2; ABUnlock].

(** Session 1 is cancelled while the loop is ranging and has to wait for
    the lock: the batch is queued for it before it unregisters. *)
Definition race_delivered : list action :=
  startup 1 ++ startup 2
  ++ [ARead (Record_ (rawRecord x01)); ABLock; ASCancel 1; ABSend 2; ABSend 1; ABUnlock]
  ++ teardown 1.

(** The state a run ends in ([d] if it does not end). *)
Definition final (r : result state) (d : state) : state :=
  match r with
  | Ok st => st
  | _ => d
  end.

(** A field of [n] bytes holding the text [s], the rest zero. *)
Definition padded (n : nat) (s : list byte) : list byte :=
  s ++ replicate (n - length s) x00.

(** A raw record as the kernel side writes it: a rename by thread 12346
    of process 12345 ([python3]), one second after boot, returning -1. *)
Definition rawRename : list byte :=
  [x00; xca; x9a; x3b; x00; x00; x00; x00]
  ++ [x39; x30; x00; x00]
  ++ [x3a; x30; x00; x00]
  ++ padded 16 (go "python3")
  ++ [x03; x00; x00; x00]
  ++ replicate 8 xff
  ++ [x00; x10; x00; x00; x00; x00; x00; x00]
  ++ padded 256 (go "/tmp/a.txt")
  ++ padded 256 (go "/tmp/a.txt.lockbit").

(** The event [rawRename] decodes to. *)
Definition renameEvent : event :=
  mkevent 1000000000 12345 12346 (padded 16 (go "python3")) 3 (-1) 4096
          (padded 256 (go "/tmp/a.txt")) (padded 256 (go "/tmp/a.txt.lockbit")).

(** A wall-clock reading of [time.Now()]: 2023-11-14T22:13:20.25Z. *)
Definition now0 : time.Time := time.mkTime (time.unixToInternal + 1700000000) 250000000.

(** A reading of [CLOCK_MONOTONIC]: 3600.75 seconds after boot. *)
Definition mono0 : Timespec := mkTimespec 3600 750000000.

(** One subscriber, one record broadcast to it and waiting in its queue. *)
Definition one_waiting : list action := startup 1 ++ turn1 rawRename.

(** One subscriber that never receives, and 101 records broadcast to it. *)
Definition flood : list action :=
  startup 1 ++ concat (replicate 101 (turn1 rawRename)).

(** A raw record whose timestamp has its highest bit set: [Ts = 2^63]. *)
Definition rawHighTs : list byte :=
  replicate 7 x00 ++ [x80] ++ replicate 556 x00.

(** * Lemmas *)

#[local] Set Warnings "-clear-no-such-hyp".



Lemma byteZ_range b : 0 ≤ byteZ b < 256.
Proof.
  unfold byteZ. pose proof (Byte.to_N_bounded b). lia.
Qed.

Lemma first_range b : utf8.first (byteZ b) = first_by_range (byteZ b).
Proof. destruct b; reflexivity. Qed.

Lemma first_class b : lead_class (byteZ b) (first (byteZ b)).
Proof.
  rewrite first_range. unfold first_by_range.
  pose proof (byteZ_range b).
  repeat (case_match; [ constructor; lia | ]); constructor; lia.
Qed.

(** Rewrite the comparisons on [z] that the context decides. *)
Ltac decide_cmp z :=
  repeat match goal with
  | |- context [z <? ?k] =>
    first [ rewrite (proj2 (Z.ltb_lt z k)) by lia
          | rewrite (proj2 (Z.ltb_ge z k)) by lia ]
  | |- context [z =? ?k] =>
    first [ rewrite (proj2 (Z.eqb_eq z k)) by lia
          | rewrite (proj2 (Z.eqb_neq z k)) by lia ]
  end.


Lemma first_class' b : ∃ x, first (byteZ b) = x ∧ lead_class (byteZ b) x.
Proof. eexists; split; [reflexivity | apply first_class]. Qed.

Ltac lead_cases b :=
  let x := fresh "x" in let Hx := fresh "Hx" in let H := fresh "Hlead" in
  destruct (first_class' b) as (x & Hx & H); rewrite ?Hx; clear Hx;
  destruct H as [H|[H|H]|H|H|[H|H]|H|H|H|H].

Ltac shapes t :=
  let c1 := fresh "c1" in let c2 := fresh "c2" in let c3 := fresh "c3" in
  destruct t as [|c1 [|c2 [|c3 t]]].

Lemma ValidString_loop_S fuel b t :
  ValidString_loop (S fuel) (b :: t) =
  match runeLen (b :: t) with
  | Some w => ValidString_loop fuel (drop w (b :: t))
  | None => false
  end.
Proof.
  cbn [ValidString_loop].
  change ((b :: t)[:0:]) with (byteZ b).
  unfold runeLen, RuneSelf.
  pose proof (byteZ_range b) as Hb.
  lead_cases b; decide_cmp (byteZ b); try reflexivity.
  all: shapes t; try reflexivity.
  all: cbn -[Z.ltb Z.leb drop first].
  all: unfold cont, second, locb, hicb.
  all: repeat match goal with
       | |- context [?a <? ?b] => rewrite (Z.ltb_antisym b a)
       end.
  all: repeat (destruct (_ <=? _); cbn [negb orb andb]; try reflexivity).
Qed.

Lemma Decode_runeLen b t :
  match runeLen (b :: t) with
  | Some w =>
    snd (DecodeRuneInString (b :: t)) = w
    ∧ (w = 1%nat → fst (DecodeRuneInString (b :: t)) = byteZ b ∧ byteZ b < 0x80)
  | None => DecodeRuneInString (b :: t) = (RuneError, 1%nat) ∧ 0x80 ≤ byteZ b
  end.
Proof.
  unfold DecodeRuneInString.
  change ((b :: t)[:0:]) with (byteZ b).
  unfold runeLen.
  pose proof (byteZ_range b) as Hb.
  lead_cases b; decide_cmp (byteZ b).
  1: { (* ASCII *)
    cbn -[Z.ltb Z.leb Z.lor Z.land Z.ldiff].
    rewrite Z.ldiff_0_r, Z.land_0_r, Z.lor_0_r. split; [done | intros _; split; [done | lia]]. }
  1,2: (cbn -[Z.ltb Z.leb Z.lor Z.land Z.ldiff];
    change (to_int32 (xx ≪ 31) ≫ 31) with (-1);
    rewrite Z.ldiff_m1_r, Z.land_m1_r; split; [done | lia]).
  all: shapes t; cbn -[Z.ltb Z.leb Z.lor Z.land Z.ldiff Z.shiftl first];
      unfold cont, second, locb, hicb;
      repeat match goal with
       | |- context [?a <? ?b] => rewrite (Z.ltb_antisym b a)
       end;
      repeat (destruct (_ <=? _); cbn [negb orb andb fst snd]);
      (split; [done | try lia; try discriminate]).
Qed.

(** Facts about [runeLen]. *)
Lemma runeLen_bounds s w : runeLen s = Some w → (1 ≤ w ≤ 4 ∧ w ≤ length s)%nat.
Proof.
  destruct s as [|b t]; [done |]. unfold runeLen.
  repeat case_match; intros [= <-]; cbn [length]; lia.
Qed.

Lemma runeLen_ascii b t : byteZ b < 0x80 → runeLen (b :: t) = Some 1%nat.
Proof. intros H. unfold runeLen. decide_cmp (byteZ b). done. Qed.

Lemma runeLen_one b t : runeLen (b :: t) = Some 1%nat → byteZ b < 0x80.
Proof.
  unfold runeLen. destruct (Z.ltb_spec (byteZ b) 0x80); [done |].
  repeat case_match; done.
Qed.

Lemma runeLen_None_nonascii b t : runeLen (b :: t) = None → 0x80 ≤ byteZ b.
Proof.
  unfold runeLen. destruct (Z.ltb_spec (byteZ b) 0x80); [done | lia].
Qed.

(** The well-formedness of a rune depends on its own bytes only. *)
Lemma runeLen_prefix s w t :
  runeLen s = Some w → runeLen (take w s ++ t) = Some w.
Proof.
  intros H. destruct s as [|b s]; [done |]. unfold runeLen in H.
  repeat case_match; simplify_eq; cbn [take app]; unfold runeLen;
    repeat match goal with Hc : ?c = _ |- context [?c] => rewrite Hc end; done.
Qed.

(** Before an ASCII byte an ill-formed start stays ill-formed. *)
Lemma runeLen_app_ascii s a t :
  s ≠ [] → byteZ a < 0x80 → runeLen (s ++ a :: t) = runeLen s.
Proof.
  intros Hs Ha. destruct (runeLen s) as [w|] eqn:Hw.
  - pose proof (runeLen_bounds _ _ Hw) as [_ Hlen].
    rewrite <- (take_drop w s) at 1. rewrite <- app_assoc.
    by apply runeLen_prefix.
  - destruct s as [|b s]; [done |]. cbn [app]. unfold runeLen in Hw.
    assert (Hc : cont a = false).
    { unfold cont. destruct (Z.leb_spec 0x80 (byteZ a)); [lia | done]. }
    assert (Hs2 : ∀ lo hi, 0x80 ≤ lo → second lo hi a = false).
    { intros lo hi ?. unfold second. destruct (Z.leb_spec lo (byteZ a)); [lia | done]. }
    repeat case_match; simplify_eq; cbn [app]; unfold runeLen;
      repeat match goal with Hc : ?c = _ |- context [?c] => rewrite Hc end;
      rewrite ?Hs2, ?andb_false_r by (repeat case_match; lia);
      repeat case_match; done.
Qed.

(** ** The loops, free of their fuel *)

Lemma ValidString_loop_fuel f1 : ∀ f2 s,
  (length s ≤ f1)%nat → (length s ≤ f2)%nat →
  ValidString_loop f1 s = ValidString_loop f2 s.
Proof.
  induction f1 as [|f1 IH]; intros f2 s H1 H2.
  - destruct s; [| cbn in H1; lia]. by destruct f2.
  - destruct s as [|b t]; [by destruct f2 |].
    destruct f2 as [|f2]; [cbn in H2; lia |].
    rewrite !ValidString_loop_S.
    destruct (runeLen (b :: t)) as [w|] eqn:Hw; [| done].
    apply runeLen_bounds in Hw as [[? _] _].
    apply IH; rewrite length_drop; cbn [length] in *; lia.
Qed.

Lemma ValidString_nil : ValidString [] = true.
Proof. done. Qed.

Lemma ValidString_cons b t :
  ValidString (b :: t) =
  match runeLen (b :: t) with
  | Some w => ValidString (drop w (b :: t))
  | None => false
  end.
Proof.
  unfold ValidString. cbn [length]. rewrite ValidString_loop_S.
  destruct (runeLen (b :: t)) as [w|] eqn:Hw; [| done].
  apply runeLen_bounds in Hw as [[? _] _].
  apply ValidString_loop_fuel; rewrite length_drop; cbn [length]; lia.
Qed.

Lemma replaceInvalid_S f r inv b t :
  strings_.replaceInvalid (S f) r inv (b :: t) =
  match runeLen (b :: t) with
  | Some w => take w (b :: t) ++ strings_.replaceInvalid f r false (drop w (b :: t))
  | None => (if inv then [] else r) ++ strings_.replaceInvalid f r true t
  end.
Proof.
  cbn [strings_.replaceInvalid]. unfold RuneSelf.
  pose proof (Decode_runeLen b t) as HD.
  destruct (Z.ltb_spec (byteZ b) 0x80) as [Hlt|Hge].
  - by rewrite (runeLen_ascii _ _ Hlt).
  - destruct (runeLen (b :: t)) as [w|] eqn:Hw.
    + destruct (DecodeRuneInString (b :: t)) as [c wid]. cbn [fst snd] in HD.
      destruct HD as [-> H1].
      destruct (Nat.eqb_spec w 1) as [->|Hne]; [| done].
      destruct H1 as [_ ?]; [done | lia].
    + destruct HD as [-> _]. done.
Qed.

Lemma replaceInvalid_fuel r f1 : ∀ f2 inv s,
  (length s ≤ f1)%nat → (length s ≤ f2)%nat →
  strings_.replaceInvalid f1 r inv s = strings_.replaceInvalid f2 r inv s.
Proof.
  induction f1 as [|f1 IH]; intros f2 inv s H1 H2.
  - destruct s; [| cbn in H1; lia]. by destruct f2.
  - destruct s as [|b t]; [by destruct f2 |].
    destruct f2 as [|f2]; [cbn in H2; lia |].
    rewrite !replaceInvalid_S. cbn [length] in *.
    destruct (runeLen (b :: t)) as [w|] eqn:Hw.
    + apply runeLen_bounds in Hw as [[? _] _].
      f_equal. apply IH; rewrite length_drop; cbn [length] in *; lia.
    + f_equal. apply IH; lia.
Qed.

Lemma replaceAll_nil r inv : replaceAll r inv [] = [].
Proof. done. Qed.

Lemma replaceAll_cons r inv b t :
  replaceAll r inv (b :: t) =
  match runeLen (b :: t) with
  | Some w => take w (b :: t) ++ replaceAll r false (drop w (b :: t))
  | None => (if inv then [] else r) ++ replaceAll r true t
  end.
Proof.
  unfold replaceAll. cbn [length]. rewrite replaceInvalid_S.
  destruct (runeLen (b :: t)) as [w|] eqn:Hw; [| done].
  apply runeLen_bounds in Hw as [[? _] _].
  f_equal. apply replaceInvalid_fuel; rewrite length_drop; cbn [length]; lia.
Qed.

Lemma firstInvalid_S f i b t :
  strings_.firstInvalid (S f) i (b :: t) =
  match runeLen (b :: t) with
  | Some w => strings_.firstInvalid f (i + w) (drop w (b :: t))
  | None => Some i
  end.
Proof.
  cbn [strings_.firstInvalid].
  pose proof (Decode_runeLen b t) as HD.
  destruct (runeLen (b :: t)) as [w|] eqn:Hw.
  - destruct (DecodeRuneInString (b :: t)) as [c wid]. cbn [fst snd] in HD.
    destruct HD as [-> H1].
    destruct (Z.eqb_spec c RuneError) as [->|]; [| done]. cbn [negb].
    destruct (Nat.eqb_spec w 1) as [->|Hne]; [| done].
    destruct H1 as [? ?]; [done |]. unfold RuneError in *. lia.
  - destruct HD as [-> _]. done.
Qed.

(** ** Strong induction on the length of a string *)

Lemma length_ind {A} (P : list A → Prop) :
  (∀ s, (∀ s', (length s' < length s)%nat → P s') → P s) → ∀ s, P s.
Proof.
  intros H s. remember (length s) as n eqn:Hn.
  revert s Hn. induction n as [n IH] using lt_wf_ind.
  intros s ->. apply H. intros s' Hlt. by apply (IH (length s')).
Qed.

Lemma ValidString_drop s w :
  runeLen s = Some w → ValidString s = ValidString (drop w s).
Proof.
  destruct s as [|b t]; [done |]. intros Hw. by rewrite ValidString_cons, Hw.
Qed.

Lemma ValidString_app p : ∀ q,
  ValidString p = true → ValidString (p ++ q) = ValidString q.
Proof.
  induction p as [p IH] using length_ind. intros q Hp.
  destruct p as [|b t]; [done |].
  rewrite ValidString_cons in Hp.
  destruct (runeLen (b :: t)) as [w|] eqn:Hw; [| done].
  pose proof (runeLen_bounds _ _ Hw) as [[? _] Hlen].
  rewrite (ValidString_drop ((b :: t) ++ q) w).
  - rewrite drop_app_le by done. apply IH; [| done].
    rewrite length_drop. cbn [length] in *. lia.
  - rewrite <- (take_drop w (b :: t)) at 1. rewrite <- app_assoc.
    by apply runeLen_prefix.
Qed.

Lemma replaceAll_valid_app r p : ∀ inv q,
  ValidString p = true →
  replaceAll r inv (p ++ q) = p ++ replaceAll r (if p is [] then inv else false) q.
Proof.
  induction p as [p IH] using length_ind. intros inv q Hp.
  destruct p as [|b t]; [done |].
  rewrite ValidString_cons in Hp.
  destruct (runeLen (b :: t)) as [w|] eqn:Hw; [| done].
  pose proof (runeLen_bounds _ _ Hw) as [[? _] Hlen].
  cbn [app]. rewrite replaceAll_cons.
  change (b :: t ++ q) with ((b :: t) ++ q).
  assert (runeLen ((b :: t) ++ q) = Some w) as ->.
  { rewrite <- (take_drop w (b :: t)) at 1. rewrite <- app_assoc.
    by apply runeLen_prefix. }
  rewrite take_app_le, drop_app_le by done.
  rewrite IH; [| rewrite length_drop; cbn [length] in *; lia | done].
  rewrite app_assoc, take_drop. f_equal.
  by destruct (drop w (b :: t)).
Qed.

Lemma replaceAll_valid r inv s : ValidString s = true → replaceAll r inv s = s.
Proof.
  intros H. rewrite <- (app_nil_r s) at 1.
  rewrite replaceAll_valid_app by done. by rewrite replaceAll_nil, app_nil_r.
Qed.

Lemma ValidString_rune_app s w q :
  runeLen s = Some w → ValidString (take w s ++ q) = ValidString q.
Proof.
  intros Hw. pose proof (runeLen_bounds _ _ Hw) as [_ Hlen].
  rewrite (ValidString_drop _ w) by (by apply runeLen_prefix).
  rewrite drop_app_length'; [done |]. rewrite length_take. lia.
Qed.

(** The first loop of [ToValidUTF8] stops after a valid prefix. *)
Lemma firstInvalid_spec f : ∀ i s, (length s ≤ f)%nat →
  match strings_.firstInvalid f i s with
  | None => ValidString s = true
  | Some j => ∃ k, j = (i + k)%nat ∧ ValidString (take k s) = true
  end.
Proof.
  induction f as [|f IH]; intros i s Hf.
  - destruct s; [done | cbn in Hf; lia].
  - destruct s as [|b t]; [done |]. rewrite firstInvalid_S.
    destruct (runeLen (b :: t)) as [w|] eqn:Hw.
    + pose proof (runeLen_bounds _ _ Hw) as [[? _] Hlen].
      specialize (IH (i + w)%nat (drop w (b :: t))).
      rewrite length_drop in IH. cbn [length] in *.
      specialize (IH ltac:(lia)).
      destruct (strings_.firstInvalid f (i + w) (drop w (b :: t))) as [j|].
      * destruct IH as (k & -> & Hv).
        exists (w + k)%nat. split; [lia |].
        rewrite <- take_take_drop. by rewrite ValidString_rune_app.
      * by rewrite (ValidString_drop _ w).
    + exists 0%nat. split; [lia | done].
Qed.

Lemma ToValidUTF8_replaceAll s r : strings_.ToValidUTF8 s r = replaceAll r false s.
Proof.
  unfold strings_.ToValidUTF8.
  pose proof (firstInvalid_spec (length s) 0 s (le_n _)) as H.
  destruct (strings_.firstInvalid (length s) 0 s) as [j|].
  - destruct H as (k & -> & Hv). cbn [Nat.add].
    transitivity (replaceAll r false (take k s ++ drop k s));
      [| by rewrite take_drop].
    rewrite replaceAll_valid_app by done. f_equal.
    by destruct (take k s).
  - by rewrite replaceAll_valid.
Qed.

Lemma sanitizeString_replaceAll b :
  sanitizeString b = replaceAll (go "?") false (strings_.TrimRight b x00).
Proof.
  unfold sanitizeString.
  destruct (ValidString (strings_.TrimRight b x00)) eqn:Hv; cbn [negb].
  - by rewrite replaceAll_valid.
  - apply ToValidUTF8_replaceAll.
Qed.

(** The result of the replacement is valid UTF-8. *)
Lemma replaceAll_ValidString s : ∀ inv,
  ValidString (replaceAll (go "?") inv s) = true.
Proof.
  induction s as [s IH] using length_ind. intros inv.
  destruct s as [|b t]; [done |]. rewrite replaceAll_cons.
  destruct (runeLen (b :: t)) as [w|] eqn:Hw.
  - pose proof (runeLen_bounds _ _ Hw) as [[? _] Hlen].
    rewrite ValidString_rune_app by done.
    apply IH. rewrite length_drop. cbn [length] in *. lia.
  - destruct inv; cbn [app go list_byte_of_string].
    + apply IH. cbn [length]. lia.
    + change (go "?") with [x3f]. cbn [app].
      rewrite ValidString_cons, (runeLen_ascii x3f) by done.
      apply IH. cbn [length]. lia.
Qed.

(** An ASCII byte splits the replacement in two independent parts. *)
Lemma replaceAll_app_ascii r a post pre : ∀ inv,
  byteZ a < 0x80 →
  replaceAll r inv (pre ++ a :: post) = replaceAll r inv pre ++ a :: replaceAll r false post.
Proof.
  induction pre as [pre IH] using length_ind. intros inv Ha.
  destruct pre as [|b t].
  - cbn [app]. rewrite replaceAll_cons, (runeLen_ascii a) by done. done.
  - change ((b :: t) ++ a :: post) with (b :: (t ++ a :: post)).
    rewrite !replaceAll_cons.
    change (b :: (t ++ a :: post)) with ((b :: t) ++ a :: post).
    rewrite runeLen_app_ascii by done.
    destruct (runeLen (b :: t)) as [w|] eqn:Hw.
    + pose proof (runeLen_bounds _ _ Hw) as [[? _] Hlen].
      rewrite take_app_le, drop_app_le by done.
      rewrite IH; [| rewrite length_drop; cbn [length] in *; lia | done].
      by rewrite app_assoc.
    + rewrite IH; [| cbn [length]; lia | done]. by rewrite app_assoc.
Qed.

(** ** [TrimRight] *)

Lemma trimRightByte_snoc_eq s c :
  strings_.trimRightByte (s ++ [c]) c = strings_.trimRightByte s c.
Proof.
  unfold strings_.trimRightByte. rewrite length_app. cbn [length].
  replace (length s + 1)%nat with (S (length s)) by lia.
  cbn [strings_.trimRightByte_loop]. rewrite length_app. cbn [length].
  replace (length s + 1 - 1)%nat with (length s) by lia.
  rewrite app_nth2, Nat.sub_diag by lia. cbn [nth].
  assert (Byte.eqb c c = true) as -> by (by apply Byte.byte_dec_lb).
  replace (0 <? length s + 1)%nat with true by (symmetry; apply Nat.ltb_lt; lia).
  cbn [andb]. by rewrite take_app_length.
Qed.

Lemma trimRightByte_snoc_ne s b c :
  b ≠ c → strings_.trimRightByte (s ++ [b]) c = s ++ [b].
Proof.
  intros Hne. unfold strings_.trimRightByte. rewrite length_app. cbn [length].
  replace (length s + 1)%nat with (S (length s)) by lia.
  cbn [strings_.trimRightByte_loop]. rewrite length_app. cbn [length].
  replace (length s + 1 - 1)%nat with (length s) by lia.
  rewrite app_nth2, Nat.sub_diag by lia. cbn [nth].
  destruct (Byte.eqb b c) eqn:E; [apply Byte.byte_dec_bl in E; done |].
  by rewrite andb_false_r.
Qed.

Lemma trimRightByte_nil c : strings_.trimRightByte [] c = [].
Proof. done. Qed.

(** Trimming removes a block of trailing [c] bytes and nothing else, and
    what is left does not end in [c]. *)
Lemma trimRightByte_spec s c :
  ∃ k, s = strings_.trimRightByte s c ++ replicate k c
       ∧ last (strings_.trimRightByte s c) ≠ Some c.
Proof.
  induction s as [|b s IH] using rev_ind.
  - exists 0%nat. done.
  - destruct (Byte.byte_eq_dec b c) as [->|Hne].
    + rewrite trimRightByte_snoc_eq. destruct IH as (k & Hk & Hl).
      exists (S k). split; [| done].
      rewrite replicate_S_end, app_assoc. by rewrite <- Hk.
    + rewrite trimRightByte_snoc_ne by done. exists 0%nat.
      split; [by rewrite app_nil_r |]. rewrite last_snoc. congruence.
Qed.

Lemma trimRightByte_interior pre c post :
  Exists (λ b, b ≠ c) post →
  strings_.trimRightByte (pre ++ c :: post) c = pre ++ c :: strings_.trimRightByte post c
  ∧ strings_.trimRightByte post c ≠ [].
Proof.
  induction post as [|b post IH] using rev_ind; intros Hex.
  - by apply Exists_nil in Hex.
  - destruct (Byte.byte_eq_dec b c) as [->|Hne].
    + rewrite (trimRightByte_snoc_eq post).
      change (pre ++ c :: post ++ [c]) with (pre ++ (c :: post) ++ [c]).
      rewrite app_assoc, trimRightByte_snoc_eq.
      apply IH. apply Exists_app in Hex as [?|Hex]; [done |].
      apply Exists_cons in Hex as [?|Hex]; [done | by apply Exists_nil in Hex].
    + rewrite (trimRightByte_snoc_ne post) by done.
      change (pre ++ c :: post ++ [b]) with (pre ++ (c :: post) ++ [b]).
      rewrite app_assoc, trimRightByte_snoc_ne by done.
      split; [by rewrite <- app_assoc | by destruct post].
Qed.

(** ** Runs of invalid bytes *)

Lemma invalidRun_le s : (invalidRun s ≤ length s)%nat.
Proof.
  induction s as [|b t IH]; [done |]. cbn [invalidRun length].
  destruct (runeLen (b :: t)); lia.
Qed.

Lemma invalidRun_None s i :
  (i < invalidRun s)%nat → runeLen (drop i s) = None.
Proof.
  revert i. induction s as [|b t IH]; intros i Hi; [cbn in Hi; lia |].
  cbn [invalidRun] in Hi.
  destruct (runeLen (b :: t)) eqn:Hw; [lia |].
  destruct i as [|i]; [done |]. cbn [drop]. apply IH. lia.
Qed.

Lemma invalidRun_end s :
  drop (invalidRun s) s = [] ∨ is_Some (runeLen (drop (invalidRun s) s)).
Proof.
  induction s as [|b t IH]; [by left |]. cbn [invalidRun].
  destruct (runeLen (b :: t)) eqn:Hw; [right; by rewrite drop_0, Hw | done].
Qed.

Lemma replaceAll_skip r k : ∀ s,
  (k ≤ length s)%nat → (∀ i, (i < k)%nat → runeLen (drop i s) = None) →
  replaceAll r true s = replaceAll r true (drop k s).
Proof.
  induction k as [|k IH]; intros s Hk Hrun; [done |].
  destruct s as [|b t]; [cbn in Hk; lia |].
  pose proof (Hrun 0%nat ltac:(lia)) as H0. rewrite drop_0 in H0.
  rewrite replaceAll_cons, H0. cbn [app drop].
  apply IH; [cbn [length] in Hk; lia |].
  intros i Hi. apply (Hrun (S i)). lia.
Qed.

Lemma replaceAll_flag r s :
  s = [] ∨ is_Some (runeLen s) → replaceAll r true s = replaceAll r false s.
Proof.
  intros [->|[w Hw]]; [done |].
  destruct s as [|b t]; [done |]. by rewrite !replaceAll_cons, Hw.
Qed.

(** [replaceAll] computes the replacement the relation describes. *)
Lemma replaceAll_replaced r s : replaced r s (replaceAll r false s).
Proof.
  induction s as [s IH] using length_ind.
  destruct s as [|b t]; [constructor |].
  rewrite replaceAll_cons.
  destruct (runeLen (b :: t)) as [w|] eqn:Hw.
  - pose proof (runeLen_bounds _ _ Hw) as [[? _] Hlen].
    apply replaced_rune; [done |]. apply IH.
    rewrite length_drop. cbn [length] in *. lia.
  - set (k := invalidRun (b :: t)).
    assert (0 < k)%nat as Hk by (subst k; cbn [invalidRun]; rewrite Hw; lia).
    pose proof (invalidRun_le (b :: t)) as Hle. fold k in Hle.
    apply (replaced_run r (b :: t) k); [lia | apply invalidRun_None | apply invalidRun_end |].
    change t with (drop 1 (b :: t)) at 2.
    rewrite (replaceAll_skip r (k - 1)).
    + rewrite drop_drop. replace (1 + (k - 1))%nat with k by lia.
      rewrite replaceAll_flag by apply invalidRun_end.
      apply IH. rewrite length_drop. lia.
    + rewrite length_drop. lia.
    + intros i Hi. rewrite drop_drop. apply invalidRun_None. fold k. lia.
Qed.

Lemma to_int64_range x : - 2 ^ 63 ≤ to_int64 x < 2 ^ 63.
Proof.
  unfold to_int64, to_signed, wrap.
  pose proof (Z.mod_pos_bound x (2 ^ 64) ltac:(lia)).
  destruct (Z.ltb_spec (x mod 2 ^ 64) (2 ^ (64 - 1))); lia.
Qed.

Lemma to_int64_id x : - 2 ^ 63 ≤ x < 2 ^ 63 → to_int64 x = x.
Proof.
  intros H. unfold to_int64, to_signed, wrap.
  destruct (Z.ltb_spec (x mod 2 ^ 64) (2 ^ (64 - 1))) as [Hlt|Hge].
  - destruct (Z.le_gt_cases 0 x).
    + apply Z.mod_small. lia.
    + rewrite <- (Z.mod_add x 1) in Hlt by lia. rewrite Z.mod_small in Hlt by lia. lia.
  - destruct (Z.le_gt_cases 0 x).
    + rewrite Z.mod_small in Hge by lia. lia.
    + rewrite <- (Z.mod_add x 1) by lia. rewrite Z.mod_small by lia. lia.
Qed.

Lemma to_int32_id x : - 2 ^ 31 ≤ x < 2 ^ 31 → to_int32 x = x.
Proof.
  intros H. unfold to_int32, to_signed, wrap.
  destruct (Z.ltb_spec (x mod 2 ^ 32) (2 ^ (32 - 1))) as [Hlt|Hge].
  - destruct (Z.le_gt_cases 0 x).
    + apply Z.mod_small. lia.
    + rewrite <- (Z.mod_add x 1) in Hlt by lia. rewrite Z.mod_small in Hlt by lia. lia.
  - destruct (Z.le_gt_cases 0 x).
    + rewrite Z.mod_small in Hge by lia. lia.
    + rewrite <- (Z.mod_add x 1) by lia. rewrite Z.mod_small by lia. lia.
Qed.

Lemma Add_unixNano t d :
  time_ok t → - 2 ^ 63 ≤ d < 2 ^ 63 →
  let t' := time.Add t d in
  unixNano t' = unixNano t + d ∧ 0 ≤ time.nsec t' < 1000000000
  ∧ - 2 ^ 63 ≤ time.sec t' + time.internalToUnix < 2 ^ 63.
Proof.
  intros [Hn Hs] Hd. unfold time.Add, unixNano.
  pose proof (Z.quot_rem' d 1000000000) as Hqr.
  assert (-1000000000 < d `rem` 1000000000 < 1000000000) as Hr.
  { pose proof (Z.rem_bound_abs d 1000000000). lia. }
  rewrite (to_int32_id (d `rem` _)) by lia.
  rewrite (to_int32_id (time.nsec t + _)) by lia.
  set (q := d ÷ 1000000000) in *. set (r := d `rem` 1000000000) in *.
  clearbody q r.
  assert (- 2 ^ 34 ≤ q ≤ 2 ^ 34) as Hq by lia.
  assert (∀ s n k, - 2 ^ 62 ≤ s ≤ 2 ^ 62 → - 2 ^ 35 ≤ k ≤ 2 ^ 35 →
            time.addSec (time.mkTime s n) k = time.mkTime (s + k) n) as Hadd.
  { intros s n k Hs' Hk. unfold time.addSec. cbn [time.sec time.nsec].
    rewrite to_int64_id by lia.
    destruct (Z.gtb_spec (s + k) s), (Z.gtb_spec k 0); cbn; try done; exfalso; lia. }
  change time.internalToUnix with (-62135596800).
  destruct (Z.geb_spec (time.nsec t + r) 1000000000);
    [| destruct (Z.ltb_spec (time.nsec t + r) 0)];
    rewrite Hadd by lia; cbn [time.sec time.nsec]; lia.
Qed.

(** The timestamp of a decoded event. *)
Lemma pbEvent_Ts boot e :
  time_ok boot →
  let ts := pb.Ts (pbEvent boot e) in
  pb.Seconds ts * 1000000000 + pb.Nanos ts = unixNano boot + to_int64 (Ts e)
  ∧ 0 ≤ pb.Nanos ts < 1000000000.
Proof.
  intros Hok. cbn [pbEvent pb.Ts]. unfold pb.New, time.Unix, time.Nanosecond_of.
  cbn [pb.Seconds pb.Nanos].
  assert (time.mul (to_int64 (Ts e)) time.Nanosecond = to_int64 (Ts e)) as ->.
  { unfold time.mul, time.Nanosecond. rewrite Z.mul_1_r.
    apply to_int64_id, to_int64_range. }
  destruct (Add_unixNano boot (to_int64 (Ts e)) Hok (to_int64_range _)) as (Hu & Hn & Hr).
  rewrite to_int64_id by done. rewrite to_int32_id by lia.
  unfold unixNano in Hu. split; [exact Hu | done].
Qed.


(** ** Decoding a record *)

Lemma binary_Read_short raw :
  (length raw < event_size)%nat →
  binary_Read raw = inl (if (length raw =? 0)%nat then EOF else ErrUnexpectedEOF).
Proof.
  intros Hlt. unfold binary_Read, io.ReadFull.
  change (event_size =? 0)%nat with false. cbn match.
  destruct (length raw =? 0)%nat; [done |].
  by rewrite (proj2 (Nat.ltb_lt _ _) Hlt).
Qed.

Lemma binary_Read_enough raw :
  (event_size ≤ length raw)%nat →
  binary_Read raw = inr (fst (value_event (take event_size raw))).
Proof.
  intros Hle. unfold binary_Read, io.ReadFull.
  change (event_size =? 0)%nat with false. cbn match.
  assert (0 < event_size)%nat by (unfold event_size; lia).
  rewrite (proj2 (Nat.eqb_neq (length raw) 0)) by lia.
  by rewrite (proj2 (Nat.ltb_ge _ _) Hle).
Qed.

(** Bytes beyond the record are not looked at. *)
Lemma binary_Read_take raw :
  (event_size ≤ length raw)%nat →
  binary_Read (take event_size raw) = binary_Read raw.
Proof.
  intros Hle. rewrite (binary_Read_enough raw) by done.
  rewrite binary_Read_enough by (rewrite length_take; lia).
  by rewrite take_take, Nat.min_id.
Qed.

(** The fields of the record, by their offsets. *)
Lemma value_event_fields buf :
  fst (value_event buf) =
  mkevent (binary.Uint64 (take 8 buf))
          (binary.Uint32 (take 4 (drop 8 buf)))
          (binary.Uint32 (take 4 (drop 12 buf)))
          (take 16 (drop 16 buf))
          (binary.Uint32 (take 4 (drop 32 buf)))
          (to_int64 (binary.Uint64 (take 8 (drop 36 buf))))
          (binary.Uint64 (take 8 (drop 44 buf)))
          (take 256 (drop 52 buf))
          (take 256 (drop 308 buf)).
Proof.
  unfold value_event, binary.int64, binary.uint64, binary.uint32, binary.bytes,
    mbind, mret, binary.decoder_bind, binary.decoder_ret.
  cbn [fst]. by rewrite !drop_drop.
Qed.

Lemma take_drop_take {A} (l : list A) i n k :
  (i + n ≤ k)%nat → take n (drop i (take k l)) = take n (drop i l).
Proof.
  intros Hle. rewrite !take_drop_commute, take_take. f_equal. f_equal. lia.
Qed.

(** A record of the full size always decodes, whatever its bytes. *)
Lemma decodeBatch_enough boot raw :
  (event_size ≤ length raw)%nat →
  ∃ e, binary_Read raw = inr e
       ∧ decodeBatch boot raw = inr [pbEvent boot e]
       ∧ Comm e = take 16 (drop 16 raw)
       ∧ SyscallId e = binary.Uint32 (take 4 (drop 32 raw))
       ∧ Path e = take 256 (drop 52 raw)
       ∧ NewPath e = take 256 (drop 308 raw).
Proof.
  intros Hle. eexists. split; [by apply binary_Read_enough |].
  unfold decodeBatch. rewrite binary_Read_enough by done.
  split; [done |]. rewrite value_event_fields. cbn [Comm SyscallId Path NewPath].
  unfold event_size.
  rewrite !take_drop_take by lia. done.
Qed.

Ltac result_simpl H := cbn in H; unfold mbind, mret, result_bind, result_ret in H.

Lemma selectnbsend_open ch batch h c :
  h !! ch = Some c → chan.closed c = false →
  selectnbsend ch batch h = Ok (<[ch := enqueue batch c]> h).
Proof.
  intros Hc Ho. unfold selectnbsend, chan.send, enqueue. rewrite Hc, Ho.
  destruct (length (chan.buf c) <? chan.cap c)%nat; cbn; [done |].
  f_equal.
Qed.

Lemma enqueue_closed batch c : chan.closed c = false → chan.closed (enqueue batch c) = false.
Proof. intros H. unfold enqueue. by case_match. Qed.

Lemma enqueue_cap batch c : chan.cap (enqueue batch c) = chan.cap c.
Proof. unfold enqueue. by case_match. Qed.

Lemma rangeSend_spec batch keys : ∀ h,
  NoDup keys →
  (∀ ch, ch ∈ keys → ∃ c, h !! ch = Some c ∧ chan.closed c = false) →
  ∃ h', rangeSend keys batch h = Ok h'
        ∧ ∀ ch, h' !! ch = (λ c, if decide (ch ∈ keys) then enqueue batch c else c) <$> h !! ch.
Proof.
  induction keys as [|k keys IH]; intros h Hnd Hok.
  - exists h. split; [done |]. intros ch. destruct (h !! ch); cbn; [| done].
    by rewrite decide_False by set_solver.
  - apply NoDup_cons in Hnd as [Hk Hnd].
    destruct (Hok k) as (c & Hc & Ho); [set_solver |].
    cbn [rangeSend]. rewrite (selectnbsend_open _ _ _ _ Hc Ho). cbn.
    destruct (IH (<[k := enqueue batch c]> h) Hnd) as (h' & Hrun & Hh').
    { intros ch Hin. destruct (decide (ch = k)) as [->|Hne]; [done |].
      rewrite lookup_insert_ne by done. apply Hok. set_solver. }
    exists h'. split; [done |]. intros ch. rewrite Hh'.
    destruct (decide (ch = k)) as [->|Hne].
    + rewrite lookup_insert_eq, Hc. cbn.
      rewrite decide_False by done. by rewrite decide_True by set_solver.
    + rewrite lookup_insert_ne by done. destruct (h !! ch); cbn; [| done].
      destruct (decide (ch ∈ keys)).
      * by rewrite decide_True by set_solver.
      * by rewrite decide_False by set_solver.
Qed.

(** The range loop, whatever the order of the iteration. *)
Lemma rangeSend_perm batch r keys :
  registry_ok r → keys ≡ₚ elements (clients r) →
  ∃ h', rangeSend keys batch (chans r) = Ok h'
    ∧ ∀ ch, h' !! ch =
        (λ c, if decide (ch ∈ clients r) then enqueue batch c else c) <$> chans r !! ch.
Proof.
  intros Hok Hperm.
  destruct (rangeSend_spec batch keys (chans r)) as (h' & Hrun & Hh').
  - rewrite Hperm. apply NoDup_elements.
  - intros ch Hin. rewrite Hperm in Hin. apply elem_of_elements in Hin.
    destruct (Hok ch Hin) as (c & ? & ? & ?). eauto.
  - exists h'. split; [done |]. intros ch. rewrite Hh'.
    destruct (chans r !! ch); cbn; [| done]. f_equal.
    destruct (decide (ch ∈ keys)) as [Hin|Hnin].
    + rewrite decide_True; [done |]. rewrite Hperm in Hin. by apply elem_of_elements.
    + rewrite decide_False; [done |]. intros Hin. apply Hnin.
      rewrite Hperm. by apply elem_of_elements.
Qed.

Lemma enqueue_registry_ok batch r ch c :
  registry_ok r → chans r !! ch = Some c → chan.closed c = false →
  registry_ok (mkRegistry (clients r) (<[ch := enqueue batch c]> (chans r))).
Proof.
  intros Hok Hc Ho ch' Hin. cbn in *.
  destruct (decide (ch' = ch)) as [->|Hne].
  - rewrite lookup_insert_eq. eexists. split; [done |].
    rewrite enqueue_closed, enqueue_cap by done.
    destruct (Hok ch Hin) as (c' & ? & ? & ?). by simplify_eq.
  - rewrite lookup_insert_ne by done. by apply Hok.
Qed.

Lemma inv_init boot : inv (init boot).
Proof.
  split; cbn.
  - intros ch. split; [set_solver |]. intros (pc & H & _). by rewrite lookup_empty in H.
  - intros ch pc H. by rewrite lookup_empty in H.
  - intros [|ch]; cbn; [done |]. rewrite lookup_empty. done.
Qed.

Lemma inv_registry_ok st : inv st → registry_ok (reg st).
Proof.
  intros [Hcl Hch _] ch Hin. apply Hcl in Hin as (pc & Hpc & Hr).
  destruct (Hch _ _ Hpc) as (c & Hc & Hcap & Hclosed).
  exists c. split; [done |]. split; [| done]. rewrite Hclosed. by destruct pc.
Qed.

Lemma step_bcast_inv a st st' :
  inv st → step_bcast a st = Ok st' → inv st'.
Proof.
  intros Hinv Hstep. pose proof Hinv as [Hcl Hch Hmu].
  unfold step_bcast in Hstep.
  destruct a as [[raw|]| |ch| | | | |]; destruct (bpc st) as [|batch|batch visited|] eqn:Hb;
    try discriminate.
  - (* read a record *)
    destruct (decodeBatch _ _); simplify_eq; [done |].
    split; cbn; [done | done |].
    intros [|ch]; cbn; [| apply (Hmu (Session ch))].
    specialize (Hmu Broadcaster). cbn in Hmu. rewrite Hb in Hmu. done.
  - (* read error *)
    simplify_eq. split; cbn; [done | done |].
    intros [|ch]; cbn; [| apply (Hmu (Session ch))].
    specialize (Hmu Broadcaster). cbn in Hmu. rewrite Hb in Hmu. done.
  - (* lock *)
    destruct (mu st) eqn:Hm; simplify_eq.
    split; cbn; [done | done |].
    intros [|ch]; cbn; [done |].
    specialize (Hmu (Session ch)). cbn in Hmu.
    split; [intros Hx; by apply Hmu in Hx | done].
  - (* send *)
    case_decide as Hin; [| done].
    destruct (inv_registry_ok _ Hinv ch) as (c & Hc & Ho & Hcap); [set_solver |].
    rewrite (selectnbsend_open _ _ _ _ Hc Ho) in Hstep. cbn in Hstep.
    unfold mret, result_ret in Hstep. simplify_eq.
    split; cbn; [done | |].
    + intros ch' pc Hpc. destruct (Hch _ _ Hpc) as (c' & Hc' & Hcap' & Hcl').
      destruct (decide (ch' = ch)) as [->|Hne].
      * rewrite lookup_insert_eq. eexists. split; [done |].
        rewrite enqueue_cap. simplify_eq. split; [done |].
        rewrite enqueue_closed by done. congruence.
      * rewrite lookup_insert_ne by done. eauto.
    + intros [|ch']; cbn; [| apply (Hmu (Session ch'))].
      specialize (Hmu Broadcaster). cbn in Hmu. rewrite Hb in Hmu. done.
  - (* unlock *)
    case_decide; simplify_eq.
    split; cbn; [done | done |].
    assert (mu st = Some Broadcaster) as Hm.
    { apply Hmu. cbn. by rewrite Hb. }
    intros [|ch']; cbn; [done |].
    specialize (Hmu (Session ch')). cbn in Hmu. rewrite Hm in Hmu.
    split; [intros Hx; by apply Hmu in Hx | done].
Qed.

(** The invariant after session [ch] moved to [pc']. *)
Lemma inv_session_update st ch pc' r' m' s' :
  inv st →
  (∀ ch0, ch0 ≠ ch → (ch0 ∈ clients r' ↔ ch0 ∈ clients (reg st))) →
  (ch ∈ clients r' ↔ registered_pc pc' = true) →
  (∀ ch0, ch0 ≠ ch → chans r' !! ch0 = chans (reg st) !! ch0) →
  (∃ c, chans r' !! ch = Some c
        ∧ chan.cap c = clientChanCap ∧ chan.closed c = is_done pc') →
  (holds_lock pc' = true ↔ m' = Some (Session ch)) →
  (∀ t, t ≠ Session ch → (mu st = Some t ↔ m' = Some t)) →
  inv (mkState r' (bootTime st) m' (bpc st) (<[ch := pc']> (spc st)) s').
Proof.
  intros [Hcl Hch Hmu] Hcl' Hin' Hch' Hc' Hl' Hmu'. split; cbn.
  - intros ch0. destruct (decide (ch0 = ch)) as [->|Hne].
    + rewrite lookup_insert_eq, Hin'. naive_solver.
    + rewrite lookup_insert_ne, Hcl', Hcl by done. done.
  - intros ch0 pc0. destruct (decide (ch0 = ch)) as [->|Hne].
    + rewrite lookup_insert_eq. intros [= <-]. done.
    + rewrite lookup_insert_ne, Hch' by done. apply Hch.
  - intros [|ch0]; cbn.
    + rewrite <- Hmu' by done. apply (Hmu Broadcaster).
    + destruct (decide (ch0 = ch)) as [->|Hne].
      * by rewrite lookup_insert_eq.
      * rewrite lookup_insert_ne by done. rewrite <- Hmu' by congruence.
        apply (Hmu (Session ch0)).
Qed.

Lemma step_session_inv ch st st' :
  inv st → step_session ch st = Ok st' → inv st'.
Proof.
  intros Hinv Hstep. pose proof Hinv as [Hcl Hch Hmu].
  unfold step_session in Hstep.
  destruct (spc st !! ch) as [pc|] eqn:Hpc; [| done].
  pose proof (Hmu (Session ch)) as Hme. cbn in Hme. rewrite Hpc in Hme.
  pose proof (Hcl ch) as Hin.
  destruct (Hch _ _ Hpc) as (c & Hc & Hcap & Hclosed).
  assert (∀ t, t ≠ Session ch → holder st (Session ch) = true →
               (mu st = Some t ↔ None = Some t)) as Hrel.
  { intros t Hne Hh. apply Hmu in Hh. rewrite Hh. naive_solver. }
  destruct pc; try discriminate; cbn in Hme.
  - (* Lock *)
    destruct (mu st) eqn:Hm; simplify_eq.
    apply (inv_session_update st); cbn; try done.
    + rewrite Hin. split; [intros (pc & ? & ?); by simplify_eq | done].
    + eauto.
    + intros t Hne. naive_solver.
  - (* insert *)
    simplify_eq. apply (inv_session_update st); cbn; try done.
    + set_solver.
    + set_solver.
    + eauto.
  - (* unlock *)
    simplify_eq. apply (inv_session_update st); cbn; try done.
    + rewrite Hin. naive_solver.
    + eauto.
    + intros t Hne. apply Hrel; [done |]. cbn. by rewrite Hpc.
  - (* deferred lock *)
    destruct (mu st) eqn:Hm; simplify_eq.
    apply (inv_session_update st); cbn; try done.
    + rewrite Hin. naive_solver.
    + eauto.
    + intros t Hne. naive_solver.
  - (* delete *)
    simplify_eq. apply (inv_session_update st); cbn; try done.
    + set_solver.
    + set_solver.
    + eauto.
  - (* deferred unlock *)
    simplify_eq. apply (inv_session_update st); cbn; try done.
    + rewrite Hin. split; [intros (pc & ? & ?); by simplify_eq | done].
    + eauto.
    + intros t Hne. apply Hrel; [done |]. cbn. by rewrite Hpc.
  - (* close *)
    rewrite Hc in Hstep. unfold chan.close in Hstep. rewrite Hclosed in Hstep.
    result_simpl Hstep. simplify_eq.
    apply (inv_session_update st); cbn; try done.
    + rewrite Hin. split; [intros (pc & ? & ?); by simplify_eq | done].
    + intros ch0 Hne. by rewrite lookup_insert_ne.
    + rewrite lookup_insert_eq. eauto.
Qed.

Lemma step_recv_inv ch sent st st' :
  inv st → step_recv ch sent st = Ok st' → inv st'.
Proof.
  intros Hinv Hstep. pose proof Hinv as [Hcl Hch Hmu].
  unfold step_recv in Hstep.
  destruct (spc st !! ch) as [pc|] eqn:Hpc; [| done].
  pose proof (Hmu (Session ch)) as Hme. cbn in Hme. rewrite Hpc in Hme.
  pose proof (Hcl ch) as Hin.
  destruct (Hch _ _ Hpc) as (c & Hc & Hcap & Hclosed).
  destruct pc; try discriminate. rewrite Hc in Hstep.
  unfold chan.recv in Hstep. cbn in Hclosed. rewrite Hclosed in Hstep.
  destruct (chan.buf c) as [|ep rest] eqn:Hbuf; [done |].
  result_simpl Hstep.
  assert (st' = mkState
    (mkRegistry (clients (reg st)) (<[ch := chan.mk rest (chan.cap c) false]> (chans (reg st))))
    (bootTime st) (mu st) (bpc st)
    (<[ch := if sent then SSelect else SDeferLock]> (spc st))
    (<[ch := streamed st !!! ch ++ [ep]]> (streamed st))) as ->.
  { destruct sent; simplify_eq; unfold set_spc, log_stream, set_reg; cbn; f_equal.
    by rewrite insert_id. }
  apply (inv_session_update st); cbn; try done.
  - split; [intros _; by destruct sent |]. intros _. apply Hin. eauto.
  - intros ch0 Hne. by rewrite lookup_insert_ne.
  - rewrite lookup_insert_eq. eexists. split; [done |]. by destruct sent.
  - rewrite <- Hme. by destruct sent.
Qed.

Lemma step_inv a st st' : inv st → step a st = Ok st' → inv st'.
Proof.
  intros Hinv Hstep. destruct a as [r| |ch| |ch|ch|ch sent|ch]; cbn [step] in Hstep;
    try (by eapply step_bcast_inv);
    [| by eapply step_session_inv | by eapply step_recv_inv |].
  - (* a new session *)
    cbn in Hstep. case_decide as Hfresh; [| done]. destruct Hfresh as [Hf1 Hf2].
    simplify_eq. pose proof Hinv as [Hcl Hch Hmu].
    apply not_elem_of_dom in Hf2.
    apply (inv_session_update st); cbn; try done.
    + split; [| done]. intros Hin. apply Hcl in Hin as (pc & ? & _). congruence.
    + intros ch0 Hne. by rewrite lookup_insert_ne.
    + rewrite lookup_insert_eq. eauto.
    + split; [done |]. intros Hm. apply Hmu in Hm. cbn in Hm. by rewrite Hf2 in Hm.
  - (* cancel *)
    cbn in Hstep. destruct (spc st !! ch) as [pc|] eqn:Hpc; [| done].
    destruct pc; try discriminate. simplify_eq.
    pose proof Hinv as [Hcl Hch Hmu].
    pose proof (Hmu (Session ch)) as Hme. cbn in Hme. rewrite Hpc in Hme.
    apply (inv_session_update st); cbn; try done.
    + rewrite (Hcl ch). naive_solver.
    + destruct (Hch _ _ Hpc) as (c & ? & ? & ?). eauto.
Qed.

Lemma bind_Ok {A B} (a : A) (f : A → result B) : (Ok a ≫= f) = f a.
Proof. done. Qed.

Lemma run_cons a tr st : run (a :: tr) st = st' ← step a st; run tr st'.
Proof. done. Qed.

Lemma run_app tr1 tr2 st :
  run (tr1 ++ tr2) st = st' ← run tr1 st; run tr2 st'.
Proof.
  revert st. induction tr1 as [|a tr1 IH]; intros st; cbn; [done |].
  destruct (step a st); cbn; [apply IH | done | done].
Qed.

Lemma run_inv tr : ∀ st st', inv st → run tr st = Ok st' → inv st'.
Proof.
  induction tr as [|a tr IH]; intros st st' Hinv Hrun; cbn in Hrun.
  - by simplify_eq.
  - destruct (step a st) as [st1| |] eqn:Hs; try done.
    eapply IH; [| done]. by eapply step_inv.
Qed.

(** No step panics where the invariant holds. *)
Lemma step_safe a st : inv st → step a st ≠ Panic.
Proof.
  intros Hinv. pose proof Hinv as [Hcl Hch Hmu].
  destruct a as [[raw|]| |ch| |ch|ch|ch sent|ch]; cbn [step];
    unfold step_bcast, step_session, step_recv.
  - repeat case_match; done.
  - repeat case_match; done.
  - repeat case_match; done.
  - destruct (bpc st) as [| |batch visited|]; try done.
    case_decide as Hin; [| done].
    destruct (inv_registry_ok _ Hinv ch) as (c & Hc & Ho & Hcap); [set_solver |].
    by rewrite (selectnbsend_open _ _ _ _ Hc Ho).
  - repeat case_match; done.
  - repeat case_match; done.
  - destruct (spc st !! ch) as [pc|] eqn:Hpc; [| done].
    destruct (Hch _ _ Hpc) as (c & Hc & Hcap & Hclosed).
    destruct pc; try (repeat case_match; done).
    rewrite Hc. unfold chan.close. by rewrite Hclosed.
  - destruct (spc st !! ch) as [pc|] eqn:Hpc; [| done].
    destruct (Hch _ _ Hpc) as (c & Hc & Hcap & Hclosed).
    destruct pc; try done. rewrite Hc. unfold chan.recv.
    destruct (chan.buf c); [| by destruct sent].
    by rewrite Hclosed.
  - repeat case_match; done.
Qed.

Lemma run_safe tr : ∀ st, inv st → run tr st ≠ Panic.
Proof.
  induction tr as [|a tr IH]; intros st Hinv; cbn; [done |].
  destruct (step a st) as [st1| |] eqn:Hs; cbn; [| done |].
  - apply IH. by eapply step_inv.
  - by apply step_safe in Hs.
Qed.

(** While the loop ranges over [s.clients] no step changes the map. *)
Lemma step_ranging_clients a st st' batch visited :
  inv st → bpc st = BRange batch visited → step a st = Ok st' →
  clients (reg st') = clients (reg st).
Proof.
  intros Hinv Hb Hstep. pose proof Hinv as [Hcl Hch Hmu].
  assert (mu st = Some Broadcaster) as Hm.
  { apply Hmu. cbn. by rewrite Hb. }
  destruct a as [[raw|]| |ch| |ch|ch|ch sent|ch]; cbn [step] in Hstep;
    unfold step_bcast, step_session, step_recv in Hstep; rewrite ?Hb, ?Hm in Hstep;
    try done.
  - case_decide; [| done].
    destruct (selectnbsend ch batch (chans (reg st))); result_simpl Hstep; by simplify_eq.
  - case_decide; by simplify_eq.
  - case_decide; by simplify_eq.
  - destruct (spc st !! ch) as [pc|] eqn:Hpc; [| done].
    pose proof (Hmu (Session ch)) as Hme. cbn in Hme. rewrite Hpc, Hm in Hme.
    destruct pc; try done; cbn in Hme; try (by destruct Hme as [Hme _]; specialize (Hme eq_refl)).
    destruct (chans (reg st) !! ch) as [c|]; [| done].
    destruct (chan.close c); result_simpl Hstep; by simplify_eq.
  - repeat case_match; try done; destruct (chan.recv _) as [[??]| |];
      result_simpl Hstep; by simplify_eq.
  - repeat case_match; by simplify_eq.
Qed.

(** ** Delivery order *)

Lemma registered_rank pc : registered_pc pc = true ↔ (2 ≤ rank pc ≤ 5)%nat.
Proof. destruct pc; cbn; split; intros; try done; lia. Qed.

Lemma step_bootTime a st st' : step a st = Ok st' → bootTime st' = bootTime st.
Proof.
  intros Hstep.
  destruct a as [[raw|]| |ch| |ch|ch|ch sent|ch]; cbn [step] in Hstep;
    unfold step_bcast, step_session, step_recv in Hstep;
    repeat case_match; try done;
    try (destruct (chan.recv _) as [[??]| |]);
    try (destruct (chan.close _));
    try (destruct (selectnbsend _ _ _));
    result_simpl Hstep; try done; by simplify_eq.
Qed.

Lemma run_bootTime tr : ∀ st st', run tr st = Ok st' → bootTime st' = bootTime st.
Proof.
  induction tr as [|a tr IH]; intros st st' Hrun; cbn in Hrun; [by simplify_eq |].
  destruct (step a st) as [st1| |] eqn:Hs; try done.
  rewrite (IH _ _ Hrun). by eapply step_bootTime.
Qed.

(** A session only moves forward. *)
Lemma step_rank a st st' ch pc :
  step a st = Ok st' → spc st !! ch = Some pc →
  ∃ pc', spc st' !! ch = Some pc' ∧ (rank pc ≤ rank pc')%nat.
Proof.
  intros Hstep Hpc.
  assert (∀ ch' pc1 pc', spc st !! ch' = Some pc1 → (rank pc1 ≤ rank pc')%nat →
            ∃ pc2, <[ch' := pc']> (spc st) !! ch = Some pc2 ∧ (rank pc ≤ rank pc2)%nat) as Hupd.
  { intros ch' pc1 pc' H1 Hle. destruct (decide (ch = ch')) as [->|Hne].
    - rewrite lookup_insert_eq. simplify_eq. eauto.
    - rewrite lookup_insert_ne by done. eauto. }
  destruct a as [[raw|]| |ch'| |ch'|ch'|ch' sent|ch']; cbn [step] in Hstep;
    unfold step_bcast, step_session, step_recv in Hstep;
    repeat case_match; try done;
    try (destruct (chan.recv _) as [[??]| |]);
    try (destruct (chan.close _));
    try (destruct (selectnbsend _ _ _));
    result_simpl Hstep; try done; simplify_eq; cbn; eauto;
    try (eapply Hupd; [done | cbn; lia]).
  (* a new session: another channel *)
  match goal with H : _ ∧ _ |- _ => pose proof (proj2 H) as Hf end.
  apply not_elem_of_dom in Hf.
  rewrite lookup_insert_ne by congruence. eauto.
Qed.

Lemma run_rank tr : ∀ st st' ch pc,
  run tr st = Ok st' → spc st !! ch = Some pc →
  ∃ pc', spc st' !! ch = Some pc' ∧ (rank pc ≤ rank pc')%nat.
Proof.
  induction tr as [|a tr IH]; intros st st' ch pc Hrun Hpc; cbn in Hrun.
  - simplify_eq. eauto.
  - destruct (step a st) as [st1| |] eqn:Hs; try done.
    destruct (step_rank _ _ _ _ _ Hs Hpc) as (pc1 & Hpc1 & Hle1).
    destruct (IH _ _ _ _ Hrun Hpc1) as (pc' & Hpc' & Hle').
    exists pc'. split; [done | lia].
Qed.

(** A channel registered before and after a stretch of steps is
    registered all along. *)
Lemma clients_between a tr st st1 st' ch :
  inv st → step a st = Ok st1 → run tr st1 = Ok st' →
  ch ∈ clients (reg st) → ch ∈ clients (reg st') → ch ∈ clients (reg st1).
Proof.
  intros Hinv Hs Hrun Hin Hin'.
  pose proof (step_inv _ _ _ Hinv Hs) as Hinv1.
  pose proof (run_inv _ _ _ Hinv1 Hrun) as Hinv'.
  apply (inv_clients _ Hinv) in Hin as (pc & Hpc & Hr).
  apply (inv_clients _ Hinv') in Hin' as (pc' & Hpc' & Hr').
  destruct (step_rank _ _ _ _ _ Hs Hpc) as (pc1 & Hpc1 & Hle1).
  destruct (run_rank _ _ _ _ _ Hrun Hpc1) as (pc2 & Hpc2 & Hle2).
  simplify_eq. apply (inv_clients _ Hinv1). exists pc1. split; [done |].
  apply registered_rank. apply registered_rank in Hr, Hr'. lia.
Qed.

Lemma decoded_cons boot a tr : decoded boot (a :: tr) = decoded1 boot a ++ decoded boot tr.
Proof. done. Qed.

(** What enters the queue of one channel [ch], step by step. *)
Section delivery.
Context (ch : loc).

Lemma delivery_frame st st' a :
  queue st' ch = queue st ch → streamed st' !!! ch = streamed st !!! ch →
  pending st' ch = pending st ch → decoded1 (bootTime st) a = [] →
  ∃ d, delivered st' ch = delivered st ch ++ d
       ∧ d ++ pending st' ch `sublist_of` pending st ch ++ decoded1 (bootTime st) a
       ∧ (finds_full ch a st = false →
          d ++ pending st' ch = pending st ch ++ decoded1 (bootTime st) a).
Proof.
  intros Hq Hs Hp Hd. exists []. unfold delivered.
  rewrite Hq, Hs, Hp, Hd, !app_nil_r. done.
Qed.

Lemma step_delivery a st st' :
  inv st → step a st = Ok st' → ch ∈ clients (reg st) →
  ∃ d, delivered st' ch = delivered st ch ++ d
       ∧ d ++ pending st' ch `sublist_of` pending st ch ++ decoded1 (bootTime st) a
       ∧ (finds_full ch a st = false →
          d ++ pending st' ch = pending st ch ++ decoded1 (bootTime st) a).
Proof.
  intros Hinv Hstep Hin. pose proof Hinv as [Hcl Hch Hmu].
  destruct (inv_registry_ok _ Hinv ch Hin) as (c & Hc & Ho & Hcap).
  destruct a as [[raw|]| |ch'| |ch'|ch'|ch' sent|ch']; cbn [step] in Hstep.
  - (* a record is read *)
    unfold step_bcast in Hstep. destruct (bpc st) eqn:Hb; try done.
    destruct (decodeBatch (bootTime st) raw) as [err|b] eqn:Hd; simplify_eq.
    + apply delivery_frame; try done. cbn. by rewrite Hd.
    + exists []. unfold delivered, queue, pending. cbn. rewrite Hb, Hd.
      by rewrite !app_nil_r.
  - (* the read fails *)
    unfold step_bcast in Hstep. destruct (bpc st) eqn:Hb; try done. simplify_eq.
    apply delivery_frame; try done. unfold pending. cbn. by rewrite Hb.
  - (* the loop locks *)
    unfold step_bcast in Hstep. destruct (bpc st) eqn:Hb; try done.
    destruct (mu st); simplify_eq.
    apply delivery_frame; try done. unfold pending. cbn. rewrite Hb.
    by rewrite decide_False by (clear; set_solver).
  - (* the loop sends to ch' *)
    unfold step_bcast in Hstep. destruct (bpc st) as [| |b visited|] eqn:Hb; try done.
    case_decide as Hin'; [| done].
    destruct (inv_registry_ok _ Hinv ch') as (c' & Hc' & Ho' & Hcap');
      [clear -Hin'; set_solver |].
    rewrite (selectnbsend_open _ _ _ _ Hc' Ho') in Hstep. result_simpl Hstep. simplify_eq.
    destruct (decide (ch' = ch)) as [->|Hne].
    + simplify_eq.
      assert (ch ∉ visited) as Hnv by (clear -Hin'; set_solver).
      unfold delivered, queue, pending, finds_full, full, enqueue.
      cbn [reg chans bpc streamed set_bpc set_reg decoded1 bootTime].
      rewrite Hb, lookup_insert_eq, Hc.
      rewrite (decide_False (P := ch ∈ visited)) by done.
      rewrite (decide_True (P := ch ∈ {[ch]} ∪ visited)) by (clear; set_solver).
      rewrite bool_decide_eq_true_2 by done. cbn [andb].
      destruct (length (chan.buf c) <? chan.cap c)%nat; cbn [chan.buf negb].
      * exists [b]. rewrite app_assoc, !app_nil_r.
        split; [done |]. split; [reflexivity | done].
      * exists []. rewrite !app_nil_r. split; [done |]. split; [| done].
        apply sublist_nil_l.
    + apply delivery_frame; try done.
      * unfold queue. cbn. by rewrite lookup_insert_ne.
      * unfold pending. cbn. rewrite Hb.
        destruct (decide (ch ∈ visited)).
        -- by rewrite decide_True by (clear -e; set_solver).
        -- by rewrite decide_False by (clear -n Hne; set_solver).
  - (* the loop unlocks *)
    unfold step_bcast in Hstep. destruct (bpc st) as [| |b visited|] eqn:Hb; try done.
    case_decide as Hsub; simplify_eq.
    apply delivery_frame; try done. unfold pending. cbn. rewrite Hb.
    by rewrite decide_True by (clear -Hin Hsub; set_solver).
  - (* a new session *)
    case_decide as Hfresh; simplify_eq. destruct Hfresh as [Hf _].
    apply not_elem_of_dom in Hf.
    apply delivery_frame; try done.
    unfold queue. cbn. rewrite lookup_insert_ne by congruence. done.
  - (* a statement of session ch' *)
    unfold step_session in Hstep.
    destruct (spc st !! ch') as [pc|] eqn:Hpc; [| done].
    destruct pc; try done.
    1,4: (destruct (mu st); [done |]; simplify_eq; by apply delivery_frame).
    1-4: (simplify_eq; by apply delivery_frame).
    destruct (Hch _ _ Hpc) as (c' & Hc' & _ & Hcl').
    rewrite Hc' in Hstep. unfold chan.close in Hstep. rewrite Hcl' in Hstep.
    result_simpl Hstep. simplify_eq.
    apply delivery_frame; try done.
    unfold queue. cbn. destruct (decide (ch' = ch)) as [->|Hne].
    + rewrite lookup_insert_eq, Hc'. done.
    + by rewrite lookup_insert_ne.
  - (* session ch' receives *)
    unfold step_recv in Hstep.
    destruct (spc st !! ch') as [pc|] eqn:Hpc; [| done].
    destruct pc; try done.
    destruct (Hch _ _ Hpc) as (c' & Hc' & _ & Hcl').
    rewrite Hc' in Hstep. unfold chan.recv in Hstep. cbn in Hcl'. rewrite Hcl' in Hstep.
    destruct (chan.buf c') as [|ep rest] eqn:Hbuf; [done |].
    result_simpl Hstep.
    assert (bpc st' = bpc st ∧ bootTime st' = bootTime st
            ∧ chans (reg st') = <[ch' := chan.mk rest (chan.cap c') false]> (chans (reg st))
            ∧ streamed st' = <[ch' := streamed st !!! ch' ++ [ep]]> (streamed st))
      as (Hb' & Ht' & Hc'' & Hs').
    { destruct sent; by simplify_eq. }
    destruct (decide (ch' = ch)) as [->|Hne].
    + exists []. unfold delivered, queue, pending.
      rewrite Hb', Hc'', Hs', lookup_insert_eq, lookup_total_insert_eq, Hc', Hbuf.
      cbn. rewrite !app_nil_r, <- app_assoc. done.
    + apply delivery_frame; try done.
      * unfold queue. by rewrite Hc'', lookup_insert_ne.
      * by rewrite Hs', lookup_total_insert_ne.
      * unfold pending. by rewrite Hb'.
  - (* session ch' is cancelled *)
    destruct (spc st !! ch') as [pc|] eqn:Hpc; [| done].
    destruct pc; try done. simplify_eq. by apply delivery_frame.
Qed.


Lemma run_delivery tr : ∀ st st',
  inv st → run tr st = Ok st' →
  ch ∈ clients (reg st) → ch ∈ clients (reg st') →
  ∃ D, delivered st' ch = delivered st ch ++ D
       ∧ D ++ pending st' ch `sublist_of` pending st ch ++ decoded (bootTime st) tr
       ∧ (never_full ch tr st = true →
          D ++ pending st' ch = pending st ch ++ decoded (bootTime st) tr).
Proof.
  induction tr as [|a tr IH]; intros st st' Hinv Hrun Hin Hin'; cbn in Hrun.
  - simplify_eq. exists []. rewrite !app_nil_r. done.
  - destruct (step a st) as [st1| |] eqn:Hs; try done.
    pose proof (clients_between _ _ _ _ _ _ Hinv Hs Hrun Hin Hin') as Hin1.
    destruct (step_delivery _ _ _ Hinv Hs Hin) as (d & Hd & Hsub & Heq).
    destruct (IH _ _ (step_inv _ _ _ Hinv Hs) Hrun Hin1 Hin') as (D & HD & HsubD & HeqD).
    rewrite (step_bootTime _ _ _ Hs) in HsubD, HeqD.
    exists (d ++ D). rewrite decoded_cons. split; [| split].
    + by rewrite HD, Hd, app_assoc.
    + rewrite <- app_assoc, (app_assoc (pending st ch)).
      etrans; [apply sublist_app; [reflexivity | apply HsubD] |].
      rewrite app_assoc. by apply sublist_app.
    + cbn [never_full]. rewrite Hs. intros [Hnf Hnever]%andb_true_iff.
      apply negb_true_iff in Hnf.
      rewrite <- app_assoc, (HeqD Hnever), app_assoc, (Heq Hnf), <- app_assoc. done.
Qed.

End delivery.

(** ** The loop run on its own and the loop among the goroutines *)

(** The sends of the range loop, taken one after the other with no other
    goroutine in between, are [rangeSend]. *)
Lemma run_range batch keys : ∀ st visited,
  bpc st = BRange batch visited → NoDup keys →
  (∀ ch, ch ∈ keys → ch ∈ clients (reg st) ∧ ch ∉ visited) →
  registry_ok (reg st) →
  ∃ h', rangeSend keys batch (chans (reg st)) = Ok h'
    ∧ run (map ABSend keys) st =
      Ok (mkState (mkRegistry (clients (reg st)) h') (bootTime st) (mu st)
                  (BRange batch (list_to_set keys ∪ visited)) (spc st) (streamed st)).
Proof.
  induction keys as [|k keys IH]; intros st visited Hb Hnd Hin Hok.
  - exists (chans (reg st)). split; [done |]. cbn.
    assert (∅ ∪ visited = visited) as -> by set_solver.
    destruct st as [[cl h] ? ? ? ? ?]. cbn in *. by subst.
  - apply NoDup_cons in Hnd as [Hk Hnd].
    destruct (Hin k) as [Hkc Hkv]; [set_solver |].
    destruct (Hok k Hkc) as (c & Hc & Ho & Hcap).
    cbn [rangeSend map run step]. unfold step_bcast. rewrite Hb.
    rewrite decide_True by set_solver.
    rewrite (selectnbsend_open _ _ _ _ Hc Ho). cbn.
    unfold mret, result_ret, mbind, result_bind.
    edestruct (IH (set_bpc (set_reg st (mkRegistry (clients (reg st))
                              (<[k := enqueue batch c]> (chans (reg st)))))
                           (BRange batch ({[k]} ∪ visited))) ({[k]} ∪ visited))
      as (h' & Hrange & Hrun); [done | done | | |].
    + intros ch Hch. cbn. split; [apply Hin; set_solver |].
      assert (ch ≠ k) by (intros ->; done).
      destruct (Hin ch) as [_ ?]; set_solver.
    + cbn. by apply enqueue_registry_ok.
    + cbn in Hrange, Hrun. exists h'. split; [done |]. rewrite Hrun.
      assert (list_to_set keys ∪ ({[k]} ∪ visited) = list_to_set (k :: keys) ∪ visited)
        as -> by set_solver.
      done.
Qed.

(** One turn of the loop on a record that decodes, with no other
    goroutine in between, is [broadcast]: the statement-by-statement
    account of the loop and the loop run on its own agree. *)
Lemma run_turn st raw batch keys :
  bpc st = BRead → mu st = None → registry_ok (reg st) →
  decodeBatch (bootTime st) raw = inr batch →
  keys ≡ₚ elements (clients (reg st)) →
  ∃ r', broadcast batch (reg st) = Ok r'
    ∧ broadcastEvents (bootTime st) [Record_ raw] (reg st) = Ok r'
    ∧ run (ARead (Record_ raw) :: ABLock :: map ABSend keys ++ [ABUnlock]) st =
      Ok (set_reg st r').
Proof.
  intros Hb Hm Hok Hd Hperm.
  destruct (rangeSend_perm batch (reg st) (elements (clients (reg st))) Hok (reflexivity _))
    as (h0 & Hr0 & Hh0).
  exists (mkRegistry (clients (reg st)) h0).
  assert (broadcast batch (reg st) = Ok (mkRegistry (clients (reg st)) h0)) as Hbc.
  { unfold broadcast. by rewrite Hr0. }
  split; [done |]. split.
  { cbn [broadcastEvents]. rewrite Hd, Hbc. done. }
  set (st1 := set_bpc st (BLock batch)).
  set (st2 := set_bpc (set_mu st1 (Some Broadcaster)) (BRange batch ∅)).
  assert (step (ARead (Record_ raw)) st = Ok st1) as H1.
  { cbn [step]. unfold step_bcast. by rewrite Hb, Hd. }
  assert (step ABLock st1 = Ok st2) as H2.
  { cbn [step]. unfold step_bcast. cbn [bpc st1 set_bpc mu]. by rewrite Hm. }
  destruct (run_range batch keys st2 ∅) as (h' & Hrange & Hrun); [done | | | done |].
  - rewrite Hperm. apply NoDup_elements.
  - intros ch Hin. cbn. rewrite Hperm in Hin. apply elem_of_elements in Hin.
    split; [done | set_solver].
  - cbn in Hrange, Hrun.
    destruct (rangeSend_perm batch (reg st) keys Hok Hperm) as (h2 & Hr2 & Hh2).
    assert (h' = h0) as ->.
    { rewrite Hr2 in Hrange. simplify_eq. apply map_eq. intros ch.
      by rewrite Hh2, Hh0. }
    rewrite run_cons, H1, bind_Ok, run_cons, H2, bind_Ok, run_app, Hrun, bind_Ok.
    rewrite run_cons. cbn [step]. unfold step_bcast. cbn [bpc].
    rewrite decide_True.
    + cbn. destruct st as [r ? ? ? ? ?]. cbn in *. by subst.
    + cbn. intros ch Hin. apply elem_of_union_l, elem_of_list_to_set.
      rewrite Hperm. by apply elem_of_elements.
Qed.

(** ** How often a session executes a statement *)

Lemma rank_inj p q : rank p = rank q → p = q.
Proof. destruct p, q; cbn; intros H; done || lia. Qed.

(** What a step does to the sessions' statements: nothing, or it starts
    a session, or it takes one session to its next statement, by that
    session's own step or by its leaving the select loop. *)
Lemma step_spc a st st' :
  step a st = Ok st' →
  spc st' = spc st
  ∨ ∃ ch' p', spc st' = <[ch' := p']> (spc st)
      ∧ ((spc st !! ch' = None ∧ p' = SLock)
         ∨ ∃ p, spc st !! ch' = Some p ∧ rank p' = S (rank p)
             ∧ (p = SSelect ∨ a = ASStep ch')).
Proof.
  intros Hstep.
  assert (Hupd : ∀ ch' p p' x, spc st !! ch' = Some p → rank p' = S (rank p) →
            (p = SSelect ∨ a = ASStep ch') →
            x = <[ch' := p']> (spc st) →
            x = spc st
            ∨ ∃ ch1 p1, x = <[ch1 := p1]> (spc st)
                ∧ ((spc st !! ch1 = None ∧ p1 = SLock)
                   ∨ ∃ p, spc st !! ch1 = Some p ∧ rank p1 = S (rank p)
                       ∧ (p = SSelect ∨ a = ASStep ch1))).
  { intros ch' p p' x Hp Hr Hwhy ->. right. exists ch', p'. split; [done |]. right. eauto. }
  destruct a as [[raw|]| |ch'| |ch'|ch'|ch' sent|ch']; cbn [step] in Hstep;
    unfold step_bcast, step_session, step_recv in Hstep;
    repeat case_match; try done;
    try (destruct (chan.recv _) as [[??]| |]);
    try (destruct (chan.close _));
    try (destruct (selectnbsend _ _ _));
    result_simpl Hstep; try done; simplify_eq; cbn; auto;
    try (eapply Hupd; [ | | | reflexivity]; [eassumption | reflexivity | by auto]).
  match goal with H : _ ∧ _ |- _ => pose proof (proj2 H) as Hf end.
  apply not_elem_of_dom in Hf. right. exists ch', SLock. split; [done |]. by left.
Qed.

Lemma step_progress a st st' ch :
  step a st = Ok st' →
  progress st' ch = progress st ch
  ∨ (progress st' ch = S (progress st ch)
     ∧ ∃ p, spc st !! ch = Some p ∧ (p = SSelect ∨ a = ASStep ch)).
Proof.
  intros Hstep. unfold progress.
  destruct (step_spc _ _ _ Hstep) as [-> | (ch' & p' & -> & Hwhy)]; [by left |].
  destruct (decide (ch = ch')) as [<- | Hne]; [| rewrite lookup_insert_ne by done; by left].
  rewrite lookup_insert_eq.
  destruct Hwhy as [[-> ->] | (p & -> & Hr & Hwhy)]; [by left |].
  right. split; [done |]. eauto.
Qed.

Lemma step_executes a st st' ch pc :
  step a st = Ok st' → executes ch pc a st = true →
  progress st ch = rank pc ∧ progress st' ch = S (rank pc).
Proof.
  intros Hstep He. unfold executes in He.
  destruct a as [r| |ch'| |ch'|ch'|ch' sent|ch']; try done.
  apply andb_true_iff in He as [Hch Hpc]. apply bool_decide_eq_true in Hch as ->.
  destruct (spc st !! ch) as [p|] eqn:Hp; [| done].
  apply Nat.eqb_eq in Hpc. split; [unfold progress; by rewrite Hp |]. rewrite <- Hpc.
  cbn [step] in Hstep. unfold step_session in Hstep. rewrite Hp in Hstep.
  destruct p; repeat case_match; try done;
    try (destruct (chan.close _)); result_simpl Hstep; try done; simplify_eq;
    unfold progress; cbn [spc set_spc set_mu set_reg]; by rewrite lookup_insert_eq.
Qed.

Lemma run_progress tr : ∀ st st' ch,
  run tr st = Ok st' → (progress st ch ≤ progress st' ch)%nat.
Proof.
  induction tr as [|a tr IH]; intros st st' ch Hrun; cbn in Hrun; [by simplify_eq |].
  destruct (step a st) as [st1| |] eqn:Hs; try done.
  specialize (IH _ _ ch Hrun).
  destruct (step_progress _ _ _ ch Hs) as [Hsame | [Hnext _]]; lia.
Qed.

(** A statement other than the select is executed once on the way past
    it, and not otherwise. *)
Lemma executions_progress ch pc tr : ∀ st st',
  pc ≠ SSelect → run tr st = Ok st' →
  executions ch pc tr st
  = if decide (progress st ch ≤ rank pc < progress st' ch)%nat then 1%nat else 0%nat.
Proof.
  induction tr as [|a tr IH]; intros st st' Hpc Hrun; cbn in Hrun.
  - simplify_eq. cbn. rewrite decide_False; [done | lia].
  - cbn [executions]. destruct (step a st) as [st1| |] eqn:Hs; try done.
    rewrite (IH st1 st' Hpc Hrun).
    pose proof (run_progress _ _ _ ch Hrun) as Hmono.
    destruct (executes ch pc a st) eqn:He.
    + destruct (step_executes _ _ _ _ _ Hs He) as [H0 H1].
      rewrite decide_False by lia. rewrite decide_True by lia. done.
    + destruct (step_progress _ _ _ ch Hs) as [Hsame | (Hnext & p & Hp & Hwhy)].
      * rewrite Hsame. done.
      * assert (rank pc ≠ progress st ch).
        { unfold progress. rewrite Hp. intros Heq. apply rank_inj in Heq as ->.
          destruct Hwhy as [-> | ->]; [done |].
          unfold executes in He. rewrite Hp, Nat.eqb_refl in He.
          by rewrite bool_decide_eq_true_2 in He. }
        repeat case_decide; try done; lia.
Qed.

(** * The claims *)

(** ** Supporting facts *)

Lemma registry_ok_empty : registry_ok (mkRegistry ∅ ∅).
Proof. intros ch Hin. set_solver. Qed.

Lemma register_ok ch r :
  registry_ok r → chans r !! ch = None → registry_ok (register ch r).
Proof.
  intros Hok Hfresh ch' Hin. unfold register in *. cbn in *.
  destruct (decide (ch' = ch)) as [->|Hne].
  - rewrite lookup_insert_eq. eauto.
  - rewrite lookup_insert_ne by done. apply Hok. set_solver.
Qed.

Lemma reachable_inv boot tr st : run tr (init boot) = Ok st → inv st.
Proof. apply run_inv, inv_init. Qed.

(** In every state the goroutines reach the registered channels are open
    queues of capacity 100. *)
Lemma reachable_registry_ok boot tr st :
  run tr (init boot) = Ok st → registry_ok (reg st).
Proof. intros Hrun. eapply inv_registry_ok, reachable_inv, Hrun. Qed.

Lemma replaceAll_nonempty r s inv :
  s ≠ [] → (inv = false ∧ r ≠ [] ∨ is_Some (runeLen s)) → replaceAll r inv s ≠ [].
Proof.
  intros Hs Hr. destruct s as [|b t]; [done |]. rewrite replaceAll_cons.
  destruct (runeLen (b :: t)) as [w|] eqn:Hw.
  - apply runeLen_bounds in Hw as [[? _] _]. destruct w; [lia | done].
  - destruct Hr as [[-> Hr]|[? ?]]; [| done]. by destruct r.
Qed.

Lemma cstring_no_zero s : x00 ∉ cstring s.
Proof.
  induction s as [|b t IH]; cbn; [set_solver |].
  destruct (Byte.eqb b x00) eqn:E; [set_solver |].
  apply Byte.eqb_false in E. set_solver.
Qed.

(** ** C1 *)

(** C1. One broadcast of a batch over a registry whose registered
    channels are open queues of capacity 100 (as they are in every state
    the program reaches): the operation returns (it neither blocks nor
    panics), the set of clients is as before, every registered channel
    with fewer than 100 waiting batches has the batch appended, every
    registered channel that is full is unchanged, channels outside the
    registry are untouched, and the order in which the map iteration
    yields the channels makes no difference. *)
Theorem broadcast_nonblocking_fanout (batch : pb.EventBatch) (r : registry) :
  registry_ok r →
  ∃ r', broadcast batch r = Ok r'
    ∧ clients r' = clients r
    ∧ (∀ ch c, ch ∈ clients r → chans r !! ch = Some c →
         chans r' !! ch =
         Some (if (length (chan.buf c) <? 100)%nat
               then chan.mk (chan.buf c ++ [batch]) 100 false
               else c))
    ∧ (∀ ch, ch ∉ clients r → chans r' !! ch = chans r !! ch)
    ∧ (∀ keys, keys ≡ₚ elements (clients r) →
         rangeSend keys batch (chans r) = Ok (chans r')).
Proof.
  intros Hok.
  pose proof (rangeSend_perm batch r) as Hrange.
  destruct (Hrange (elements (clients r)) Hok (reflexivity _)) as (h' & Hrun & Hh').
  exists (mkRegistry (clients r) h'). unfold broadcast. rewrite Hrun. cbn.
  split; [done |]. split; [done |]. split; [| split].
  - intros ch c Hin Hc. rewrite Hh', Hc. cbn. rewrite decide_True by done.
    destruct (Hok ch Hin) as (c' & Hc' & Ho & Hcap). simplify_eq.
    unfold enqueue. rewrite Hcap. done.
  - intros ch Hnin. rewrite Hh'. destruct (chans r !! ch); cbn; [| done].
    by rewrite decide_False.
  - intros keys Hperm. destruct (Hrange keys Hok Hperm) as (h2 & Hrun2 & Hh2).
    rewrite Hrun2. f_equal. apply map_eq. intros ch. by rewrite Hh2, Hh'.
Qed.

Lemma broadcast_nonblocking_fanout_witness :
  let st := final (run (startup 1 ++ turn1 (rawRecord x01) ++ startup 2) (init boot0))
                  (init boot0) in
  let batch := [pbEvent boot0 (mkevent 0 0 0 [] 2 0 0 [] [])] in
  registry_ok (reg st)
  ∧ ∃ r', broadcast batch (reg st) = Ok r' ∧ clients r' = clients (reg st).
Proof.
  intros st batch.
  assert (registry_ok (reg st)) as Hok.
  { apply (reachable_registry_ok boot0
             (startup 1 ++ turn1 (rawRecord x01) ++ startup 2)).
    by vm_compute. }
  split; [exact Hok |].
  destruct (broadcast_nonblocking_fanout batch (reg st) Hok) as (r' & Hb & Hc & _).
  exists r'. split; [exact Hb | exact Hc].
Defined.

(** The scenario of a queue of capacity 1 that is not drained: of three
    records in a row the first is queued and the other two are dropped,
    and the loop returns normally. *)
Example capacity_one_scenario :
  ∃ r, broadcastEvents boot0
         [Record_ (rawRecord x01); Record_ (rawRecord x02); Record_ (rawRecord x03)]
         (mkRegistry {[1%positive]} {[1%positive := chan.make 1]}) = Ok r
    ∧ chans r !! 1%positive
      = Some (chan.mk [[pbEvent boot0 (mkevent 0 0 0 (replicate 16 x00) 1 0 0
                                         (replicate 256 x00) (replicate 256 x00))]]
                      1 false).
Proof. eexists. split; by vm_compute. Qed.

(** ** C3 *)

(** C3, as stated, fails: an input of 700 bytes has a length that differs
    from 652 (the size the claim gives) and from 564 (the size of the
    declared layout), and [binary.Read] decodes it. *)
Lemma decode_accepts_longer_input :
  length (replicate 700 x00) ≠ 652%nat
  ∧ length (replicate 700 x00) ≠ event_size
  ∧ ∃ e, binary_Read (replicate 700 x00) = inr e.
Proof.
  split; [by vm_compute |]. split; [by vm_compute |].
  eexists. vm_compute. reflexivity.
Qed.

(** C3, amended. The fixed size of the declared layout is 564 bytes.
    Every input shorter than that fails to decode, with [io.EOF] when it is
    empty and [io.ErrUnexpectedEOF] otherwise, and yields no batch; every
    input of 564 bytes or more decodes, to the event of its first 564
    bytes: what follows them is not read. *)
Theorem decode_fails_iff_short (boot : time.Time) (raw : list byte) :
  event_size = 564%nat
  ∧ ((length raw < event_size)%nat →
       binary_Read raw = inl (if (length raw =? 0)%nat then EOF else ErrUnexpectedEOF)
       ∧ ∃ err, decodeBatch boot raw = inl err)
  ∧ ((event_size ≤ length raw)%nat →
       ∃ e, binary_Read raw = inr e
         ∧ binary_Read (take event_size raw) = inr e
         ∧ decodeBatch boot raw = inr [pbEvent boot e]).
Proof.
  split; [reflexivity |]. split.
  - intros Hlt. split; [by apply binary_Read_short |].
    unfold decodeBatch. rewrite binary_Read_short by done. eauto.
  - intros Hle. destruct (decodeBatch_enough boot raw Hle) as (e & He & Hb & _).
    exists e. split; [done |]. split; [| done].
    by rewrite binary_Read_take.
Qed.

(** ** C5 *)

(** C5. [syscallName] maps 1 to "openat", 2 to "write", 3 to "rename" and
    every other identifier to "unknown"; it has no failing case, and a
    record of the full size decodes whatever its identifier is, to an
    event that carries the name of that identifier. *)
Theorem syscallName_mapping :
  syscallName 1 = go "openat"
  ∧ syscallName 2 = go "write"
  ∧ syscallName 3 = go "rename"
  ∧ (∀ id, id ≠ 1 → id ≠ 2 → id ≠ 3 → syscallName id = go "unknown")
  ∧ (∀ boot raw, (event_size ≤ length raw)%nat →
       ∃ e, binary_Read raw = inr e
         ∧ SyscallId e = binary.Uint32 (take 4 (drop 32 raw))
         ∧ decodeBatch boot raw = inr [pbEvent boot e]
         ∧ pb.Syscall (pbEvent boot e) = syscallName (SyscallId e)).
Proof.
  split; [done |]. split; [done |]. split; [done |]. split.
  - intros id H1 H2 H3. unfold syscallName.
    by rewrite (proj2 (Z.eqb_neq id 1)), (proj2 (Z.eqb_neq id 2)),
      (proj2 (Z.eqb_neq id 3)).
  - intros boot raw Hle.
    destruct (decodeBatch_enough boot raw Hle) as (e & He & Hb & _ & Hid & _).
    exists e. done.
Qed.

(** The names the sample records decode to. *)
Example syscallName_samples :
  decodedSyscall boot0 (rawRecord x01) = Some (go "openat")
  ∧ decodedSyscall boot0 (rawRecord x02) = Some (go "write")
  ∧ decodedSyscall boot0 (rawRecord x03) = Some (go "rename")
  ∧ decodedSyscall boot0 (rawRecord x00) = Some (go "unknown")
  ∧ decodedSyscall boot0 (rawRecord x04) = Some (go "unknown")
  ∧ decodedSyscall boot0 (rawRecord xff) = Some (go "unknown").
Proof. by vm_compute. Qed.

(** ** C4 *)

(** C4. For every fixed-width string field [b]: [sanitizeString] removes
    the trailing zero bytes, all of them and nothing else; in what is left
    every maximal run of bytes that start no well-formed rune is replaced
    by one "?" and the well-formed runes are kept ([replaced]); the result
    is always valid UTF-8; and when what is left is valid UTF-8 already,
    the result is exactly that. The string fields cannot make the decoding
    fail: every record of the full size decodes, and its three strings are
    the sanitized fields. *)
Theorem sanitizeString_trims_and_replaces :
  (∀ b : list byte,
     let s := strings_.TrimRight b x00 in
     (∃ k, b = s ++ replicate k x00)
     ∧ last s ≠ Some x00
     ∧ replaced (go "?") s (sanitizeString b)
     ∧ ValidString (sanitizeString b) = true
     ∧ (ValidString s = true → sanitizeString b = s))
  ∧ (∀ boot raw, (event_size ≤ length raw)%nat →
       ∃ e, decodeBatch boot raw = inr [pbEvent boot e]
         ∧ pb.Comm (pbEvent boot e) = sanitizeString (take 16 (drop 16 raw))
         ∧ pb.Path (pbEvent boot e) = sanitizeString (take 256 (drop 52 raw))
         ∧ pb.NewPath (pbEvent boot e) = sanitizeString (take 256 (drop 308 raw))).
Proof.
  split.
  - intros b s. subst s. unfold strings_.TrimRight.
    destruct (trimRightByte_spec b x00) as (k & Hk & Hl).
    split; [eauto |]. split; [done |].
    rewrite sanitizeString_replaceAll. unfold strings_.TrimRight.
    split; [apply replaceAll_replaced |]. split; [apply replaceAll_ValidString |].
    intros Hv. by apply replaceAll_valid.
  - intros boot raw Hle.
    destruct (decodeBatch_enough boot raw Hle) as (e & He & Hb & Hc & _ & Hp & Hn).
    exists e. split; [done |]. cbn [pbEvent pb.Comm pb.Path pb.NewPath].
    by rewrite Hc, Hp, Hn.
Qed.

(** Sample fields: a name padded with zeros; two invalid bytes in a row
    give one "?"; a truncated rune at the end gives "?"; a surrogate
    (three bytes) gives one "?"; U+FFFD itself is kept. *)
Example sanitizeString_samples :
  sanitizeString (go "python3" ++ replicate 9 x00) = go "python3"
  ∧ sanitizeString [x61; xff; xfe; x62; x00; x00] = go "a?b"
  ∧ sanitizeString [x61; xe2; x82; x00] = go "a?"
  ∧ sanitizeString [xed; xa0; x80; x21] = go "?!"
  ∧ sanitizeString [xef; xbf; xbd; x00] = [xef; xbf; xbd]
  ∧ sanitizeString (replicate 16 x00) = [].
Proof. by vm_compute. Qed.

(** ** C10 *)

(** C10, as stated, fails: in the buffer "A", 0, 0xFF the zero byte is
    interior and a non-zero byte follows it, yet the decoded string is
    "A", 0, "?": the byte after the zero is not retained but replaced. *)
Lemma bytes_after_zero_not_all_retained :
  sanitizeString [x41; x00; xff] = [x41; x00; x3f]
  ∧ ¬ ∃ out, sanitizeString [x41; x00; xff] = out ++ [x00; xff].
Proof.
  split; [by vm_compute |]. intros [out Hout].
  change (sanitizeString [x41; x00; xff]) with [x41; x00; x3f] in Hout.
  destruct out as [|? [|? [|? [|? ?]]]]; discriminate.
Qed.

(** C10, amended. For a buffer [pre ++ 0 :: post] in which a non-zero byte
    follows the zero: the trimming keeps the zero and every byte after it
    up to the last non-zero byte; the decoded string is the sanitized
    [pre], the zero byte, and the sanitized [post] (which is not empty), so
    it holds a zero byte, which its reading as a C string never does; and
    when the trimmed bytes are valid UTF-8 the decoded string is [pre], the
    zero and the trimmed [post], unchanged. (Bytes after the zero that are
    not valid UTF-8 are replaced like anywhere else.) *)
Theorem interior_zero_not_truncated (pre post : list byte) :
  Exists (λ b, b ≠ x00) post →
  let b := pre ++ x00 :: post in
  strings_.TrimRight b x00 = pre ++ x00 :: strings_.TrimRight post x00
  ∧ strings_.TrimRight post x00 ≠ []
  ∧ sanitizeString b = strings_.ToValidUTF8 pre (go "?") ++ x00 :: sanitizeString post
  ∧ sanitizeString post ≠ []
  ∧ (x00 ∈ sanitizeString b) ∧ (x00 ∉ cstring b)
  ∧ (ValidString (strings_.TrimRight b x00) = true →
       sanitizeString b = pre ++ x00 :: strings_.TrimRight post x00).
Proof.
  intros Hex b. subst b.
  destruct (trimRightByte_interior pre x00 post Hex) as [Htrim Hne].
  unfold strings_.TrimRight.
  assert (sanitizeString (pre ++ x00 :: post)
          = strings_.ToValidUTF8 pre (go "?") ++ x00 :: sanitizeString post) as Hs.
  { rewrite !sanitizeString_replaceAll, ToValidUTF8_replaceAll.
    unfold strings_.TrimRight. rewrite Htrim.
    by apply replaceAll_app_ascii. }
  split; [done |]. split; [done |]. split; [done |]. split; [| split; [| split]].
  - rewrite sanitizeString_replaceAll. apply replaceAll_nonempty; [done |].
    left. done.
  - rewrite Hs. set_solver.
  - apply cstring_no_zero.
  - intros Hv. rewrite sanitizeString_replaceAll. unfold strings_.TrimRight.
    rewrite replaceAll_valid by done. done.
Qed.

Lemma interior_zero_not_truncated_witness :
  Exists (λ b, b ≠ x00) [x42; x00]
  ∧ sanitizeString ([x41] ++ x00 :: [x42; x00])
    = strings_.ToValidUTF8 [x41] (go "?") ++ x00 :: sanitizeString [x42; x00].
Proof.
  assert (Exists (λ b, b ≠ x00) [x42; x00]) as Hex.
  { apply Exists_cons_hd. discriminate. }
  split; [exact Hex |].
  exact (proj1 (proj2 (proj2 (interior_zero_not_truncated [x41] [x42; x00] Hex)))).
Defined.

(** ** C6 *)

(** C6, as stated, fails: a raw timestamp is not always added as the
    number of nanoseconds it is. The record [rawHighTs] decodes, its
    timestamp is [2^63], and its event is dated [2^63] nanoseconds before
    the boot time instead of [2^63] nanoseconds after it: the conversion
    [time.Duration(e.Ts)] of the [uint64] to the [int64] duration wraps. *)
Lemma raw_timestamp_wraps_before_boot :
  time_ok boot0
  ∧ ∃ e, binary_Read rawHighTs = inr e
      ∧ Ts e = 2 ^ 63
      ∧ pb.Seconds (pb.Ts (pbEvent boot0 e)) * 1000000000 + pb.Nanos (pb.Ts (pbEvent boot0 e))
        = unixNano boot0 - 2 ^ 63
      ∧ pb.Seconds (pb.Ts (pbEvent boot0 e)) * 1000000000 + pb.Nanos (pb.Ts (pbEvent boot0 e))
        ≠ unixNano boot0 + Ts e.
Proof.
  split; [by vm_compute |]. eexists. split; [by vm_compute |].
  split; [by vm_compute |]. split; by vm_compute.
Qed.

(** C6, amended. For a boot time within [2^62] seconds of the year 1, the
    timestamp of a decoded event is the boot time plus the raw timestamp
    taken as a [time.Duration], the [uint64] converted to the [int64]
    count of nanoseconds: in nanoseconds since the Unix epoch,
    [Seconds * 10^9 + Nanos] is the boot time's reading plus the raw
    timestamp when that is below [2^63], and the boot time's reading plus
    the raw timestamp minus [2^64], a time before the boot time, when it
    is [2^63] or more; [Nanos] is within a second. The boot time is the
    one [main] stored before it started the loop: no step of any goroutine
    changes it, so every batch the loop decodes is built from it. Being a
    function of the boot time and the raw timestamp, the result is the
    same for the same two. *)
Theorem timestamp_reconciliation (boot : time.Time) (e : event) :
  time_ok boot →
  let ts := pb.Ts (pbEvent boot e) in
  (0 ≤ Ts e < 2 ^ 63 →
     pb.Seconds ts * 1000000000 + pb.Nanos ts = unixNano boot + Ts e)
  ∧ (2 ^ 63 ≤ Ts e < 2 ^ 64 →
       pb.Seconds ts * 1000000000 + pb.Nanos ts = unixNano boot + (Ts e - 2 ^ 64)
       ∧ pb.Seconds ts * 1000000000 + pb.Nanos ts < unixNano boot)
  ∧ pb.Seconds ts * 1000000000 + pb.Nanos ts = unixNano boot + to_int64 (Ts e)
  ∧ 0 ≤ pb.Nanos ts < 1000000000
  ∧ (∀ e', Ts e' = Ts e → pb.Ts (pbEvent boot e') = ts)
  ∧ (∀ tr st, run tr (init boot) = Ok st → bootTime st = boot)
  ∧ (∀ st raw batch, bpc st = BRead →
       step (ARead (Record_ raw)) st = Ok (set_bpc st (BLock batch)) →
       decodeBatch (bootTime st) raw = inr batch).
Proof.
  intros Hok ts. subst ts.
  destruct (pbEvent_Ts boot e Hok) as [Hts Hn].
  split; [| split; [| split; [done | split; [done | split; [| split]]]]].
  - intros Hr. rewrite Hts, to_int64_id by lia. done.
  - intros Hr. rewrite Hts.
    assert (to_int64 (Ts e) = Ts e - 2 ^ 64) as ->; [| lia].
    unfold to_int64, to_signed, wrap. rewrite Z.mod_small by lia.
    destruct (Z.ltb_spec (Ts e) (2 ^ (64 - 1))); lia.
  - intros e' He. cbn [pbEvent pb.Ts]. by rewrite He.
  - intros tr st Hrun. by rewrite (run_bootTime _ _ _ Hrun).
  - intros st raw batch Hb Hstep. cbn [step] in Hstep. unfold step_bcast in Hstep.
    rewrite Hb in Hstep.
    destruct (decodeBatch (bootTime st) raw) as [err|b']; simplify_eq.
    + destruct st. cbn in *. simplify_eq.
    + done.
Qed.

Lemma timestamp_reconciliation_witness :
  time_ok boot0
  ∧ pb.Seconds (pb.Ts (pbEvent boot0 (mkevent 1500000001 0 0 [] 1 0 0 [] []))) * 1000000000
    + pb.Nanos (pb.Ts (pbEvent boot0 (mkevent 1500000001 0 0 [] 1 0 0 [] [])))
    = unixNano boot0 + 1500000001.
Proof.
  assert (time_ok boot0) as Hok by (by vm_compute).
  split; [exact Hok |].
  exact (proj1 (timestamp_reconciliation boot0 (mkevent 1500000001 0 0 [] 1 0 0 [] []) Hok)
           ltac:(by vm_compute)).
Defined.

(** The boot time [main] computes is the wall clock minus the monotonic
    clock, and a record stamped with that monotonic reading gets the wall
    clock back. *)
Example computeBootTime_sample :
  let now := time.mkTime (time.unixToInternal + 1700000000) 250000000 in
  let mono := mkTimespec 3600 750000000 in
  computeBootTime now mono = time.mkTime (time.unixToInternal + 1699996399) 500000000
  ∧ pb.Ts (pbEvent (computeBootTime now mono) (mkevent 3600750000000 0 0 [] 1 0 0 [] []))
    = pb.mkTimestamp 1700000000 250000000.
Proof. by vm_compute. Qed.

(** ** C7 *)

(** C7. When the loop reads a record whose decoding fails, that turn of
    the loop changes nothing: the state after it is the state before it, so
    no queue is modified and no session sees the error, and the loop is at
    its read again; whatever the goroutines do next they do as if the
    record had not been there. The same holds of the loop run on its own:
    the rest of the records is processed as without the bad one. *)
Theorem decode_error_skips_record (st : state) (raw : list byte) (err : error) :
  bpc st = BRead →
  binary_Read raw = inl err →
  step (ARead (Record_ raw)) st = Ok st
  ∧ (∀ tr, run (ARead (Record_ raw) :: tr) st = run tr st)
  ∧ (∀ tr1 tr2 st0, run tr1 st0 = Ok st →
       run (tr1 ++ ARead (Record_ raw) :: tr2) st0 = run (tr1 ++ tr2) st0)
  ∧ (∀ reads r,
       broadcastEvents (bootTime st) (Record_ raw :: reads) r
       = broadcastEvents (bootTime st) reads r).
Proof.
  intros Hb Herr.
  assert (step (ARead (Record_ raw)) st = Ok st) as Hstep.
  { cbn [step]. unfold step_bcast, decodeBatch. by rewrite Hb, Herr. }
  split; [done |]. split; [| split].
  - intros tr. cbn [run]. by rewrite Hstep.
  - intros tr1 tr2 st0 Hrun. rewrite !run_app, Hrun.
    change (run (ARead (Record_ raw) :: tr2) st = run tr2 st).
    cbn [run]. by rewrite Hstep.
  - intros reads r. cbn [broadcastEvents]. unfold decodeBatch. by rewrite Herr.
Qed.

Lemma decode_error_skips_record_witness :
  bpc (init boot0) = BRead
  ∧ binary_Read [x01; x02; x03] = inl ErrUnexpectedEOF
  ∧ step (ARead (Record_ [x01; x02; x03])) (init boot0) = Ok (init boot0).
Proof.
  assert (binary_Read [x01; x02; x03] = inl ErrUnexpectedEOF) as Herr by (by vm_compute).
  split; [reflexivity |]. split; [exact Herr |].
  exact (proj1 (decode_error_skips_record (init boot0) [x01; x02; x03] _ eq_refl Herr)).
Defined.

(** A bad record between two good ones: both good ones are queued, in
    order, and the loop goes on. *)
Example malformed_record_between :
  ∃ r, broadcastEvents boot0
         [Record_ (rawRecord x01); Record_ [xff]; Record_ (rawRecord x03)]
         (register 1 (mkRegistry ∅ ∅)) = Ok r
    ∧ (chan.buf <$> chans r !! 1%positive)
      = Some [[pbEvent boot0 (mkevent 0 0 0 (replicate 16 x00) 1 0 0
                                (replicate 256 x00) (replicate 256 x00))];
              [pbEvent boot0 (mkevent 0 0 0 (replicate 16 x00) 3 0 0
                                (replicate 256 x00) (replicate 256 x00))]].
Proof. eexists. split; by vm_compute. Qed.

(** ** C8 *)

(** C8, as stated, fails: a second unregister of the same handle is not a
    no-op, it panics (close of a closed channel). *)
Lemma unregister_twice_panics :
  ∃ r1, unregister 1 (register 1 (mkRegistry ∅ ∅)) = Ok r1
    ∧ unregister 1 r1 = Panic.
Proof. eexists. split; by vm_compute. Qed.

(** C8, amended. Unregistering a registered subscriber returns, removes
    its channel from the registry and closes the channel, leaving its
    queue and every other channel as they were. Afterwards the handle is
    out of the registry, so that deleting it again changes nothing, but
    the unregister as a whole is not idempotent: invoked a second time
    for the same handle it panics on the close of the closed channel. The
    program never invokes it a second time: along every schedule a
    session executes the [delete] and the [close] of its deferred
    function at most once each, and exactly once each when it has
    returned; the step that executes the [delete] takes the channel out
    of [s.clients], and the step that executes the [close] closes the
    open channel. *)
Theorem unregister_removes_and_closes (ch : loc) (r : registry) :
  registry_ok r → ch ∈ clients r →
  (∃ c r', chans r !! ch = Some c
     ∧ unregister ch r = Ok r'
     ∧ clients r' = clients r ∖ {[ch]}
     ∧ chans r' = <[ch := chan.mk (chan.buf c) (chan.cap c) true]> (chans r)
     ∧ clients r' ∖ {[ch]} = clients r'
     ∧ registry_ok r'
     ∧ unregister ch r' = Panic)
  ∧ (∀ boot tr st, run tr (init boot) = Ok st →
       (executions ch SDelete tr (init boot) ≤ 1)%nat
       ∧ (executions ch SClose tr (init boot) ≤ 1)%nat
       ∧ (executions ch SClose tr (init boot) = 1%nat ↔ spc st !! ch = Some SDone)
       ∧ (spc st !! ch = Some SDone → executions ch SDelete tr (init boot) = 1%nat))
  ∧ (∀ a st st', step a st = Ok st' → executes ch SDelete a st = true →
       clients (reg st') = clients (reg st) ∖ {[ch]}
       ∧ chans (reg st') = chans (reg st))
  ∧ (∀ a st st', step a st = Ok st' → executes ch SClose a st = true →
       ∃ c, chans (reg st) !! ch = Some c ∧ chan.closed c = false
         ∧ chans (reg st') = <[ch := chan.mk (chan.buf c) (chan.cap c) true]> (chans (reg st))
         ∧ clients (reg st') = clients (reg st)).
Proof.
  intros Hok Hin. split; [| split; [| split]].
  - destruct (Hok ch Hin) as (c & Hc & Ho & Hcap).
    exists c. eexists. split; [done |].
    unfold unregister at 1. rewrite Hc. unfold chan.close. rewrite Ho. cbn.
    split; [reflexivity |]. cbn. split; [done |]. split; [done |].
    split; [set_solver |]. split.
    + intros ch' Hin'. cbn in *.
      assert (ch' ≠ ch) by set_solver. rewrite lookup_insert_ne by done.
      apply Hok. set_solver.
    + unfold unregister. cbn. by rewrite lookup_insert_eq.
  - intros boot tr st Hrun.
    rewrite !(executions_progress ch _ tr (init boot) st) by done.
    assert (progress (init boot) ch = 0%nat) as -> by done.
    assert (Hmax : (progress st ch ≤ 8)%nat).
    { unfold progress. destruct (spc st !! ch) as [[]|]; cbn; lia. }
    assert (Hdone : progress st ch = 8%nat ↔ spc st !! ch = Some SDone).
    { unfold progress. destruct (spc st !! ch) as [[]|]; cbn; split; done || lia. }
    cbn [rank].
    split; [case_decide; lia |]. split; [case_decide; lia |]. split.
    + rewrite <- Hdone. case_decide; split; intros; try done; lia.
    + intros Hd. apply Hdone in Hd. rewrite decide_True by lia. done.
  - intros a st st' Hstep He. unfold executes in He.
    destruct a as [| | | | |ch'| |]; try done.
    apply andb_true_iff in He as [Hch Hpc]. apply bool_decide_eq_true in Hch as ->.
    destruct (spc st !! ch) as [p|] eqn:Hp; [| done].
    apply Nat.eqb_eq, rank_inj in Hpc as ->.
    cbn [step] in Hstep. unfold step_session in Hstep. rewrite Hp in Hstep.
    by simplify_eq.
  - intros a st st' Hstep He. unfold executes in He.
    destruct a as [| | | | |ch'| |]; try done.
    apply andb_true_iff in He as [Hch Hpc]. apply bool_decide_eq_true in Hch as ->.
    destruct (spc st !! ch) as [p|] eqn:Hp; [| done].
    apply Nat.eqb_eq, rank_inj in Hpc as ->.
    cbn [step] in Hstep. unfold step_session in Hstep. rewrite Hp in Hstep.
    destruct (chans (reg st) !! ch) as [c|] eqn:Hc; [| done].
    unfold chan.close in Hstep. destruct (chan.closed c) eqn:Ho; [done |].
    result_simpl Hstep. simplify_eq. exists c. done.
Qed.

Lemma unregister_removes_and_closes_witness :
  registry_ok (register 1 (mkRegistry ∅ ∅))
  ∧ (1%positive ∈ clients (register 1 (mkRegistry ∅ ∅)))
  ∧ ∃ c r', chans (register 1 (mkRegistry ∅ ∅)) !! 1%positive = Some c
      ∧ unregister 1 (register 1 (mkRegistry ∅ ∅)) = Ok r'
      ∧ clients r' = clients (register 1 (mkRegistry ∅ ∅)) ∖ {[1%positive]}.
Proof.
  assert (registry_ok (register 1 (mkRegistry ∅ ∅))) as Hok.
  { apply register_ok; [apply registry_ok_empty | reflexivity]. }
  assert (1%positive ∈ clients (register 1 (mkRegistry ∅ ∅))) as Hin.
  { apply (bool_decide_unpack _). by vm_compute. }
  split; [exact Hok |]. split; [exact Hin |].
  destruct (proj1 (unregister_removes_and_closes 1 _ Hok Hin))
    as (c & r' & Hc & Hu & Hcl & _).
  exists c, r'. split; [exact Hc |]. split; [exact Hu | exact Hcl].
Defined.

(** A session from its start to its return: it executes the [delete] and
    the [close] once each. *)
Example deferred_function_runs_once :
  executions 1 SDelete (startup 1 ++ [ASCancel 1] ++ teardown 1) (init boot0) = 1%nat
  ∧ executions 1 SClose (startup 1 ++ [ASCancel 1] ++ teardown 1) (init boot0) = 1%nat
  ∧ executions 1 SClose (startup 1 ++ [ASCancel 1]) (init boot0) = 0%nat
  ∧ run (startup 1 ++ [ASCancel 1] ++ teardown 1 ++ [ASStep 1]) (init boot0) = Stuck.
Proof. by vm_compute. Qed.

(** ** C9 *)

(** The two ways the race can go, from start to end without a panic. In
    [race_dropped] session 1 has deleted its channel before the loop
    locks, and closes it while the loop ranges: the batch is not queued
    for it. In [race_delivered] the loop locks first, session 1 waits for
    the lock, and the batch is queued for it. Either way the batch is
    queued for session 2. *)
Lemma race_outcomes :
  let batch := [pbEvent boot0 (mkevent 0 0 0 (replicate 16 x00) 1 0 0
                                 (replicate 256 x00) (replicate 256 x00))] in
  (∃ st, run race_dropped (init boot0) = Ok st
     ∧ chans (reg st) !! 1%positive = Some (chan.mk [] 100 true)
     ∧ chans (reg st) !! 2%positive = Some (chan.mk [batch] 100 false))
  ∧ (∃ st, run race_delivered (init boot0) = Ok st
       ∧ chans (reg st) !! 1%positive = Some (chan.mk [batch] 100 true)
       ∧ chans (reg st) !! 2%positive = Some (chan.mk [batch] 100 false))
  ∧ (∃ st, run (startup 1 ++ [ARead (Record_ (rawRecord x01)); ABLock; ASCancel 1])
               (init boot0) = Ok st
       ∧ step (ASStep 1) st = Stuck).
Proof.
  intros batch. split; [| split].
  - exists (final (run race_dropped (init boot0)) (init boot0)).
    split; [| split]; by vm_compute.
  - exists (final (run race_delivered (init boot0)) (init boot0)).
    split; [| split]; by vm_compute.
  - exists (final (run (startup 1 ++ [ARead (Record_ (rawRecord x01)); ABLock; ASCancel 1])
                       (init boot0)) (init boot0)).
    split; by vm_compute.
Qed.

(** C9. In every state [st] that any interleaving of the goroutines'
    steps reaches from the start: no step panics, whichever goroutine
    takes it, so no schedule ends in a panic; while the loop is in its
    range every registered channel is open, so the loop never sends on a
    closed channel; no step taken meanwhile changes [s.clients] (a session
    that unregisters waits for the lock, or has deleted its channel
    before); the send to every registered channel not yet visited is
    enabled and follows the enqueue rule, whatever the other sessions have
    done; and the loop leaves the range only when every registered channel
    has been visited. Whether the event in flight reaches the session that
    unregisters depends on who takes the lock first ([race_outcomes]). *)
Theorem unregister_race_is_safe (boot : time.Time) (tr : list action) (st : state) :
  run tr (init boot) = Ok st →
  (∀ a, step a st ≠ Panic)
  ∧ (∀ tr', run tr' st ≠ Panic)
  ∧ (∀ batch visited, bpc st = BRange batch visited →
       (∀ ch, ch ∈ clients (reg st) →
          ∃ c, chans (reg st) !! ch = Some c ∧ chan.closed c = false)
       ∧ (∀ a st', step a st = Ok st' → clients (reg st') = clients (reg st))
       ∧ (∀ ch, ch ∈ clients (reg st) ∖ visited →
          ∃ c, chans (reg st) !! ch = Some c
            ∧ step (ABSend ch) st =
              Ok (set_bpc (set_reg st (mkRegistry (clients (reg st))
                                         (<[ch := enqueue batch c]> (chans (reg st)))))
                          (BRange batch ({[ch]} ∪ visited))))
       ∧ (∀ st', step ABUnlock st = Ok st' → clients (reg st) ⊆ visited))
  ∧ (∀ ch, spc st !! ch = Some SClose →
       (ch ∉ clients (reg st))
       ∧ ∃ c, chans (reg st) !! ch = Some c ∧ chan.closed c = false).
Proof.
  intros Hrun. pose proof (reachable_inv _ _ _ Hrun) as Hinv.
  split; [intros a; by apply step_safe |].
  split; [intros tr'; by apply run_safe |]. split.
  - intros batch visited Hb. split; [| split; [| split]].
    + intros ch Hin. destruct (inv_registry_ok _ Hinv ch Hin) as (c & ? & ? & _). eauto.
    + intros a st' Hstep. by eapply step_ranging_clients.
    + intros ch Hin.
      destruct (inv_registry_ok _ Hinv ch) as (c & Hc & Ho & _); [set_solver |].
      exists c. split; [done |]. cbn [step]. unfold step_bcast. rewrite Hb.
      rewrite decide_True by done.
      by rewrite (selectnbsend_open _ _ _ _ Hc Ho).
    + intros st' Hstep. cbn [step] in Hstep. unfold step_bcast in Hstep.
      rewrite Hb in Hstep. by case_decide.
  - intros ch Hpc. split.
    + intros Hin. apply (inv_clients _ Hinv) in Hin as (pc & Hpc' & Hr).
      by simplify_eq.
    + destruct (inv_chans _ Hinv _ _ Hpc) as (c & ? & _ & ?). eauto.
Qed.

Lemma unregister_race_is_safe_witness :
  run (startup 1 ++ startup 2 ++ [ARead (Record_ (rawRecord x01)); ABLock; ASCancel 1])
      (init boot0)
  = Ok (final (run (startup 1 ++ startup 2
                    ++ [ARead (Record_ (rawRecord x01)); ABLock; ASCancel 1])
                   (init boot0)) (init boot0))
  ∧ ∀ a, step a (final (run (startup 1 ++ startup 2
                             ++ [ARead (Record_ (rawRecord x01)); ABLock; ASCancel 1])
                            (init boot0)) (init boot0)) ≠ Panic.
Proof.
  assert (run (startup 1 ++ startup 2
               ++ [ARead (Record_ (rawRecord x01)); ABLock; ASCancel 1]) (init boot0)
          = Ok (final (run (startup 1 ++ startup 2
                            ++ [ARead (Record_ (rawRecord x01)); ABLock; ASCancel 1])
                           (init boot0)) (init boot0))) as Hrun by (by vm_compute).
  split; [exact Hrun |].
  exact (proj1 (unregister_race_is_safe boot0 _ _ Hrun)).
Defined.

(** ** C2 *)

(** C2. Take any stretch [tr] of steps of the goroutines that starts with
    the loop at its read, in a state the program reaches, and a channel
    [ch] that is registered at its start and at its end (hence all along).
    The batches [D] that enter the queue of [ch] during the stretch (what
    its session has passed on, followed by what waits in the queue, grows
    by exactly [D] at its end) form a sublist of the batches the loop
    decodes during the stretch, in decode order: each decoded batch enters
    at most once and the order is kept. When no send to [ch] finds its
    queue full and the loop is back at its read (or has returned), [D] is
    the whole sequence of decoded batches: each was delivered once. *)
Theorem delivery_in_decode_order
    (boot : time.Time) (tr0 tr : list action) (st0 st1 : state) (ch : loc) :
  run tr0 (init boot) = Ok st0 →
  bpc st0 = BRead →
  run tr st0 = Ok st1 →
  ch ∈ clients (reg st0) →
  ch ∈ clients (reg st1) →
  ∃ D, delivered st1 ch = delivered st0 ch ++ D
    ∧ D `sublist_of` decoded boot tr
    ∧ (never_full ch tr st0 = true →
       bpc st1 = BRead ∨ bpc st1 = BReturned →
       D = decoded boot tr).
Proof.
  intros Hrun0 Hb0 Hrun Hin0 Hin1.
  pose proof (reachable_inv _ _ _ Hrun0) as Hinv.
  destruct (run_delivery ch tr st0 st1 Hinv Hrun Hin0 Hin1) as (D & HD & Hsub & Heq).
  rewrite (run_bootTime _ _ _ Hrun0) in Hsub, Heq. cbn [init bootTime] in Hsub, Heq.
  unfold pending in Hsub, Heq. rewrite Hb0 in Hsub, Heq. cbn [app] in Hsub, Heq.
  exists D. split; [done |]. split.
  - etrans; [| exact Hsub]. by apply sublist_inserts_r.
  - intros Hnf Hb1. specialize (Heq Hnf).
    destruct Hb1 as [Hb1|Hb1]; rewrite Hb1 in Heq; by rewrite app_nil_r in Heq.
Qed.

Lemma delivery_in_decode_order_witness :
  let tr0 := startup 1 in
  let tr := turn1 (rawRecord x01) ++ [ARead (Record_ [xff]); ASRecv 1 true]
            ++ turn1 (rawRecord x02) in
  let st0 := final (run tr0 (init boot0)) (init boot0) in
  let st1 := final (run tr st0) (init boot0) in
  run tr0 (init boot0) = Ok st0
  ∧ run tr st0 = Ok st1
  ∧ ∃ D, delivered st1 1 = delivered st0 1 ++ D ∧ D `sublist_of` decoded boot0 tr.
Proof.
  intros tr0 tr st0 st1.
  assert (run tr0 (init boot0) = Ok st0) as H0 by (by vm_compute).
  assert (run tr st0 = Ok st1) as H1 by (by vm_compute).
  assert (bpc st0 = BRead) as Hb by (by vm_compute).
  assert (1%positive ∈ clients (reg st0)) as Hin0.
  { apply (bool_decide_unpack _). by vm_compute. }
  assert (1%positive ∈ clients (reg st1)) as Hin1.
  { apply (bool_decide_unpack _). by vm_compute. }
  split; [exact H0 |]. split; [exact H1 |].
  destruct (delivery_in_decode_order boot0 tr0 tr st0 st1 1 H0 Hb H1 Hin0 Hin1)
    as (D & HD & Hsub & _).
  exists D. split; [exact HD | exact Hsub].
Defined.

(** * Further properties of the code *)

(** ** The environment *)

(** X1. [getenvDefault] returns the variable's value exactly when the
    variable is set to a non-empty string and the default otherwise, so a
    variable set to the empty string counts as not set; with a non-empty
    default the result is never empty, and the address [main] listens on
    never is. *)
Theorem getenvDefault_empty_is_unset (env : environ) (k : string) (v : list byte) :
  getenvDefault env k v
    = match env !! k with
      | Some (b :: val) => b :: val
      | _ => v
      end
  ∧ getenvDefault (<[k := []]> env) k v = getenvDefault (delete k env) k v
  ∧ (v ≠ [] → getenvDefault env k v ≠ [])
  ∧ (∀ k', k' ≠ k → ∀ val, getenvDefault (<[k' := val]> env) k v = getenvDefault env k v)
  ∧ listenAddr env ≠ [].
Proof.
  assert (Hval : getenvDefault env k v
                 = match env !! k with Some (b :: val) => b :: val | _ => v end).
  { unfold getenvDefault, Getenv. by destruct (env !! k) as [[|b val]|]. }
  assert (Hne : ∀ env' k' v', v' ≠ [] → getenvDefault env' k' v' ≠ []).
  { intros env' k' v' Hv. unfold getenvDefault, Getenv.
    by destruct (env' !! k') as [[|b val]|]. }
  split; [done |]. split; [| split; [| split]].
  - unfold getenvDefault, Getenv. by rewrite lookup_insert_eq, lookup_delete_eq.
  - apply Hne.
  - intros k' Hk val. unfold getenvDefault, Getenv. by rewrite lookup_insert_ne.
  - apply Hne. done.
Qed.

(** ** The decoder *)

Lemma lor_shiftl_add a b n :
  0 ≤ n → 0 ≤ a < 2 ^ n → Z.lor a (b ≪ n) = a + b * 2 ^ n.
Proof.
  intros Hn Ha. rewrite Z.shiftl_mul_pow2 by done.
  symmetry. apply Z.add_nocarry_lor.
  apply Z.bits_inj'. intros i Hi. rewrite Z.land_spec, Z.bits_0.
  destruct (Z.lt_ge_cases i n) as [Hlt | Hge].
  - rewrite (Z.mul_pow2_bits_low b n i) by done. apply andb_false_r.
  - rewrite <- (Z.mod_small a (2 ^ n)) by done.
    rewrite Z.mod_pow2_bits_high by lia. done.
Qed.

Lemma Uint32_le b0 b1 b2 b3 :
  binary.Uint32 [b0; b1; b2; b3] = le_value [b0; b1; b2; b3].
Proof.
  unfold binary.Uint32, binary.u8. cbn [nth le_value].
  pose proof (byteZ_range b0). pose proof (byteZ_range b1).
  pose proof (byteZ_range b2). pose proof (byteZ_range b3).
  rewrite (lor_shiftl_add _ _ 8) by lia.
  rewrite (lor_shiftl_add _ _ 16) by lia.
  rewrite (lor_shiftl_add _ _ 24) by lia. lia.
Qed.

Lemma Uint64_le b0 b1 b2 b3 b4 b5 b6 b7 :
  binary.Uint64 [b0; b1; b2; b3; b4; b5; b6; b7]
  = le_value [b0; b1; b2; b3; b4; b5; b6; b7].
Proof.
  unfold binary.Uint64, binary.u8. cbn [nth le_value].
  pose proof (byteZ_range b0). pose proof (byteZ_range b1).
  pose proof (byteZ_range b2). pose proof (byteZ_range b3).
  pose proof (byteZ_range b4). pose proof (byteZ_range b5).
  pose proof (byteZ_range b6). pose proof (byteZ_range b7).
  rewrite (lor_shiftl_add _ _ 8) by lia.
  rewrite (lor_shiftl_add _ _ 16) by lia.
  rewrite (lor_shiftl_add _ _ 24) by lia.
  rewrite (lor_shiftl_add _ _ 32) by lia.
  rewrite (lor_shiftl_add _ _ 40) by lia.
  rewrite (lor_shiftl_add _ _ 48) by lia.
  rewrite (lor_shiftl_add _ _ 56) by lia. lia.
Qed.

Lemma le_value_range b : 0 ≤ le_value b < 256 ^ Z.of_nat (length b).
Proof.
  induction b as [|x t IH]; [cbn; lia |].
  cbn [le_value length]. pose proof (byteZ_range x).
  rewrite Nat2Z.inj_succ, Z.pow_succ_r by lia. lia.
Qed.

Lemma take_length_eq {A} (n : nat) (l : list A) :
  (n ≤ length l)%nat → length (take n l) = n.
Proof. intros H. rewrite length_take. lia. Qed.

Lemma le_value_take n l :
  (n ≤ length l)%nat → 0 ≤ le_value (take n l) < 256 ^ Z.of_nat n.
Proof.
  intros H. pose proof (le_value_range (take n l)) as R.
  by rewrite take_length_eq in R.
Qed.

Lemma Uint32_take b :
  (4 ≤ length b)%nat → binary.Uint32 (take 4 b) = le_value (take 4 b).
Proof.
  intros H. destruct b as [|b0 [|b1 [|b2 [|b3 t]]]]; cbn in H; try lia.
  cbn [take]. apply Uint32_le.
Qed.

Lemma Uint64_take b :
  (8 ≤ length b)%nat → binary.Uint64 (take 8 b) = le_value (take 8 b).
Proof.
  intros H.
  destruct b as [|b0 [|b1 [|b2 [|b3 [|b4 [|b5 [|b6 [|b7 t]]]]]]]]; cbn in H; try lia.
  cbn [take]. apply Uint64_le.
Qed.

(** What [binary.Read] makes of a sample that is long enough, field by
    field. *)
Lemma binary_Read_layout raw e :
  binary_Read raw = inr e →
  (event_size ≤ length raw)%nat
  ∧ e = mkevent (le_value (take 8 raw))
                (le_value (take 4 (drop 8 raw)))
                (le_value (take 4 (drop 12 raw)))
                (take 16 (drop 16 raw))
                (le_value (take 4 (drop 32 raw)))
                (to_int64 (le_value (take 8 (drop 36 raw))))
                (le_value (take 8 (drop 44 raw)))
                (take 256 (drop 52 raw))
                (take 256 (drop 308 raw)).
Proof.
  intros Hread.
  destruct (decide (length raw < event_size)%nat) as [Hshort | Hlong].
  { rewrite binary_Read_short in Hread by done. done. }
  assert (Hlen : (event_size ≤ length raw)%nat) by lia. split; [done |].
  rewrite binary_Read_enough in Hread by done. simplify_eq.
  rewrite value_event_fields. unfold event_size in *. cbn in Hlen.
  rewrite !take_drop_take by lia. rewrite take_take. cbn [Nat.min Init.Nat.min].
  replace (8 `min` (8 + 4 + 4 + 16 + 4 + 8 + 8 + 256 + 256))%nat with 8%nat by done.
  rewrite !Uint32_take, !Uint64_take by (rewrite ?length_drop; lia). done.
Qed.

(** X2. A sample decodes only if it has the 564 bytes of the layout, and
    then every field is read at its offset in declaration order, without
    padding: the numbers least significant byte first ([RetVal] in two's
    complement), the arrays as they are. So the numbers are within their
    Go types and the arrays have their declared lengths. *)
Theorem decode_layout (raw : list byte) (e : event) :
  binary_Read raw = inr e →
  (564 ≤ length raw)%nat
  ∧ Ts e = le_value (take 8 raw)
  ∧ Pid e = le_value (take 4 (drop 8 raw))
  ∧ Tid e = le_value (take 4 (drop 12 raw))
  ∧ Comm e = take 16 (drop 16 raw)
  ∧ SyscallId e = le_value (take 4 (drop 32 raw))
  ∧ RetVal e = (let u := le_value (take 8 (drop 36 raw)) in
                if u <? 2 ^ 63 then u else u - 2 ^ 64)
  ∧ Bytes e = le_value (take 8 (drop 44 raw))
  ∧ Path e = take 256 (drop 52 raw)
  ∧ NewPath e = take 256 (drop 308 raw)
  ∧ (0 ≤ Ts e < 2 ^ 64 ∧ 0 ≤ Pid e < 2 ^ 32 ∧ 0 ≤ Tid e < 2 ^ 32
     ∧ 0 ≤ SyscallId e < 2 ^ 32 ∧ - 2 ^ 63 ≤ RetVal e < 2 ^ 63
     ∧ 0 ≤ Bytes e < 2 ^ 64)
  ∧ length (Comm e) = 16%nat ∧ length (Path e) = 256%nat
  ∧ length (NewPath e) = 256%nat.
Proof.
  intros Hread. apply binary_Read_layout in Hread as [Hlen ->].
  unfold event_size in Hlen. cbn in Hlen. cbn [Ts Pid Tid Comm SyscallId RetVal Bytes Path NewPath].
  pose proof (le_value_range (take 8 raw)) as R1.
  pose proof (le_value_range (take 4 (drop 8 raw))) as R2.
  pose proof (le_value_range (take 4 (drop 12 raw))) as R3.
  pose proof (le_value_range (take 4 (drop 32 raw))) as R4.
  pose proof (le_value_range (take 8 (drop 36 raw))) as R5.
  pose proof (le_value_range (take 8 (drop 44 raw))) as R6.
  rewrite take_length_eq in R1, R2, R3, R4, R5, R6 by (rewrite ?length_drop; lia).
  assert (Hret : to_int64 (le_value (take 8 (drop 36 raw)))
                 = (let u := le_value (take 8 (drop 36 raw)) in
                    if u <? 2 ^ 63 then u else u - 2 ^ 64)).
  { unfold to_int64, to_signed, wrap. cbn zeta.
    rewrite Z.mod_small by (change (2 ^ 64) with (256 ^ Z.of_nat 8); lia). done. }
  pose proof (to_int64_range (le_value (take 8 (drop 36 raw)))) as R7.
  rewrite !take_length_eq by (rewrite ?length_drop; lia).
  change (256 ^ Z.of_nat 8) with (2 ^ 64) in *.
  change (256 ^ Z.of_nat 4) with (2 ^ 32) in *.
  repeat split; try done; try lia.
Qed.

Lemma decode_layout_witness :
  binary_Read rawRename = inr renameEvent
  ∧ Pid renameEvent = le_value (take 4 (drop 8 rawRename))
  ∧ RetVal renameEvent = -1.
Proof.
  assert (H : binary_Read rawRename = inr renameEvent) by (by vm_compute).
  split; [exact H |]. split; [| done].
  exact (proj1 (proj2 (proj2 (decode_layout rawRename renameEvent H)))).
Defined.
(** ** The decoder loses nothing *)

Lemma byteZ_inj b b' : byteZ b = byteZ b' → b = b'.
Proof.
  unfold byteZ. intros H. apply N2Z.inj in H.
  pose proof (Byte.of_to_N b) as Hb. rewrite H, Byte.of_to_N in Hb. congruence.
Qed.

Lemma le_value_inj l1 : ∀ l2,
  length l1 = length l2 → le_value l1 = le_value l2 → l1 = l2.
Proof.
  induction l1 as [|x l1 IH]; intros [|y l2] Hlen Hv; try done.
  cbn in Hlen, Hv. pose proof (byteZ_range x). pose proof (byteZ_range y).
  f_equal; [apply byteZ_inj; lia | apply IH; lia].
Qed.

Lemma to_int64_inj u u' :
  0 ≤ u < 2 ^ 64 → 0 ≤ u' < 2 ^ 64 → to_int64 u = to_int64 u' → u = u'.
Proof.
  unfold to_int64, to_signed, wrap. intros Hu Hu'.
  rewrite !Z.mod_small by done.
  destruct (Z.ltb_spec u (2 ^ (64 - 1))), (Z.ltb_spec u' (2 ^ (64 - 1))); lia.
Qed.

Lemma take_split {A} (l : list A) (n m k : nat) :
  k = (n + m)%nat → take k l = take n l ++ take m (drop n l).
Proof. intros ->. by rewrite take_take_drop. Qed.

Lemma record_split (raw : list byte) :
  take 564 raw
  = take 8 raw ++ take 4 (drop 8 raw) ++ take 4 (drop 12 raw) ++ take 16 (drop 16 raw)
    ++ take 4 (drop 32 raw) ++ take 8 (drop 36 raw) ++ take 8 (drop 44 raw)
    ++ take 256 (drop 52 raw) ++ take 256 (drop 308 raw).
Proof.
  rewrite (take_split raw 8 556 564 eq_refl).
  rewrite (take_split (drop 8 raw) 4 552 556 eq_refl), drop_drop.
  rewrite (take_split (drop (8 + 4) raw) 4 548 552 eq_refl), drop_drop.
  rewrite (take_split (drop (8 + 4 + 4) raw) 16 532 548 eq_refl), drop_drop.
  rewrite (take_split (drop (8 + 4 + 4 + 16) raw) 4 528 532 eq_refl), drop_drop.
  rewrite (take_split (drop (8 + 4 + 4 + 16 + 4) raw) 8 520 528 eq_refl), drop_drop.
  rewrite (take_split (drop (8 + 4 + 4 + 16 + 4 + 8) raw) 8 512 520 eq_refl), drop_drop.
  rewrite (take_split (drop (8 + 4 + 4 + 16 + 4 + 8 + 8) raw) 256 256 512 eq_refl), drop_drop.
  done.
Qed.

(** X3. Decoding loses nothing of the record: two samples decode to
    the same raw event exactly when their first 564 bytes are the same,
    so the bytes of a record can be recovered from its fields. *)
Theorem decode_injective (raw1 raw2 : list byte) (e : event) :
  binary_Read raw1 = inr e →
  (binary_Read raw2 = inr e ↔
     (564 ≤ length raw2)%nat ∧ take 564 raw2 = take 564 raw1).
Proof.
  intros H1. pose proof H1 as H1'. apply binary_Read_layout in H1' as [Hlen1 He1].
  unfold event_size in Hlen1. cbn in Hlen1. split.
  - intros H2. apply binary_Read_layout in H2 as [Hlen2 He2].
    unfold event_size in Hlen2. cbn in Hlen2. split; [done |].
    rewrite He1 in He2. injection He2 as E1 E2 E3 E4 E5 E6 E7 E8 E9.
    apply to_int64_inj in E6;
      [| pose proof (le_value_take 8 (drop 36 raw1)) as R;
         rewrite length_drop in R; change (256 ^ Z.of_nat 8) with (2 ^ 64) in R; lia
       | pose proof (le_value_take 8 (drop 36 raw2)) as R;
         rewrite length_drop in R; change (256 ^ Z.of_nat 8) with (2 ^ 64) in R; lia].
    apply le_value_inj in E1, E2, E3, E5, E6, E7;
      try (rewrite !take_length_eq by (rewrite ?length_drop; lia); done).
    rewrite (record_split raw1), (record_split raw2).
    by rewrite E1, E2, E3, E4, E5, E6, E7, E8, E9.
  - intros [Hlen2 Htake].
    rewrite <- (binary_Read_take raw2) by (unfold event_size; cbn; lia).
    rewrite <- (binary_Read_take raw1) in H1 by (unfold event_size; cbn; lia).
    change event_size with 564%nat in *. by rewrite Htake.
Qed.

Lemma decode_injective_witness :
  binary_Read rawRename = inr renameEvent
  ∧ binary_Read (rawRename ++ [x01; x02]) = inr renameEvent.
Proof.
  assert (H : binary_Read rawRename = inr renameEvent) by (by vm_compute).
  split; [exact H |].
  apply (decode_injective rawRename (rawRename ++ [x01; x02]) renameEvent H).
  split; [vm_compute; lia | by vm_compute].
Defined.
(** ** [sanitizeString], further *)

Lemma replaceAll_length r s : (length r ≤ 1)%nat →
  ∀ inv, (length (replaceAll r inv s) ≤ length s)%nat.
Proof.
  intros Hr. induction s as [s IH] using length_ind. intros inv.
  destruct s as [|b t]; [by rewrite replaceAll_nil |].
  rewrite replaceAll_cons. destruct (runeLen (b :: t)) as [w|] eqn:Hw.
  - apply runeLen_bounds in Hw as [[Hw1 _] Hw2].
    rewrite length_app, length_take.
    specialize (IH (drop w (b :: t))). rewrite length_drop in IH.
    specialize (IH ltac:(cbn in *; lia) false). lia.
  - rewrite length_app. specialize (IH t ltac:(cbn; lia) true).
    destruct inv; cbn [length] in *; lia.
Qed.

Lemma trimRightByte_length s c : (length (strings_.trimRightByte s c) ≤ length s)%nat.
Proof.
  destruct (trimRightByte_spec s c) as (k & Hk & _).
  rewrite Hk at 2. rewrite length_app. lia.
Qed.

Lemma trimRightByte_id s c : last s ≠ Some c → strings_.trimRightByte s c = s.
Proof.
  intros Hl. destruct s as [|b t] using rev_ind; [apply trimRightByte_nil |].
  rewrite last_snoc in Hl. apply trimRightByte_snoc_ne. congruence.
Qed.

Lemma trimRightByte_pad s c k :
  last s ≠ Some c → strings_.trimRightByte (s ++ replicate k c) c = s.
Proof.
  intros Hl. induction k as [|k IH]; cbn [replicate].
  - rewrite app_nil_r. by apply trimRightByte_id.
  - rewrite replicate_cons_app, app_assoc, trimRightByte_snoc_eq. done.
Qed.

(** The replacement leaves no zero byte at the end where there was none. *)
Lemma replaceAll_last s : ∀ inv,
  last s ≠ Some x00 → last (replaceAll (go "?") inv s) ≠ Some x00.
Proof.
  induction s as [s IH] using length_ind. intros inv Hl.
  destruct s as [|b t]; [by rewrite replaceAll_nil |].
  rewrite replaceAll_cons. destruct (runeLen (b :: t)) as [w|] eqn:Hw.
  - pose proof (runeLen_bounds _ _ Hw) as [[Hw1 _] Hw2].
    rewrite <- (take_drop w (b :: t)) in Hl. rewrite last_app in Hl.
    rewrite last_app.
    destruct (last (replaceAll (go "?") false (drop w (b :: t)))) as [y|] eqn:Hy.
    + rewrite <- Hy. apply IH; [rewrite length_drop; cbn in *; lia |].
      destruct (last (drop w (b :: t))) as [z|] eqn:Hz; [done |].
      apply last_None in Hz. rewrite Hz, replaceAll_nil in Hy. done.
    + apply last_None in Hy.
      destruct (decide (drop w (b :: t) = [])) as [He | Hne].
      * by rewrite He in Hl.
      * exfalso. revert Hy. apply replaceAll_nonempty; [done |]. left. done.
  - rewrite last_app.
    destruct (last (replaceAll (go "?") true t)) as [y|] eqn:Hy.
    + rewrite <- Hy. apply IH; [cbn; lia |].
      destruct t as [|b' t']; [by rewrite replaceAll_nil in Hy |]. done.
    + by destruct inv.
Qed.

Lemma sanitizeString_last b : last (sanitizeString b) ≠ Some x00.
Proof.
  rewrite sanitizeString_replaceAll. apply replaceAll_last.
  unfold strings_.TrimRight. by destruct (trimRightByte_spec b x00) as (k & _ & Hl).
Qed.

Lemma sanitizeString_valid b : ValidString (sanitizeString b) = true.
Proof. rewrite sanitizeString_replaceAll. apply replaceAll_ValidString. Qed.

Lemma sanitizeString_fixed b :
  ValidString b = true → last b ≠ Some x00 → sanitizeString b = b.
Proof.
  intros Hv Hl. rewrite sanitizeString_replaceAll. unfold strings_.TrimRight.
  rewrite trimRightByte_id by done. by apply replaceAll_valid.
Qed.

Lemma sanitizeString_le b : (length (sanitizeString b) ≤ length b)%nat.
Proof.
  rewrite sanitizeString_replaceAll.
  etrans; [apply replaceAll_length; cbn; lia |]. apply trimRightByte_length.
Qed.

Lemma cstring_pad s k : x00 ∉ s → cstring (s ++ replicate k x00) = s.
Proof.
  induction s as [|b t IH]; intros Hs.
  - by destruct k.
  - cbn. destruct (Byte.eqb b x00) eqn:E.
    + apply Byte.byte_dec_bl in E. set_solver.
    + f_equal. apply IH. set_solver.
Qed.

Lemma last_not_elem {A} (x : A) (s : list A) : x ∉ s → last s ≠ Some x.
Proof.
  intros Hs Hl. apply last_Some in Hl as (l' & ->). set_solver.
Qed.

(** X4. Sanitizing never lengthens: the result has at most as many
    bytes as the buffer, since the trailing zeros go and every run of
    invalid bytes is replaced by the one byte of ["?"]. *)
Theorem sanitizeString_never_longer (b : list byte) :
  (length (sanitizeString b) ≤ length b)%nat
  ∧ (length (sanitizeString b) ≤ length (strings_.TrimRight b x00))%nat
  ∧ (length (strings_.TrimRight b x00) ≤ length b)%nat.
Proof.
  split; [apply sanitizeString_le |]. split.
  - rewrite sanitizeString_replaceAll. apply replaceAll_length. cbn. lia.
  - apply trimRightByte_length.
Qed.

(** X5. Sanitizing is idempotent, and its fixed points are exactly the
    valid UTF-8 strings that do not end in a zero byte: the result of
    [sanitizeString] is such a string, and such a string is returned as
    it is. *)
Theorem sanitizeString_idempotent (b : list byte) :
  sanitizeString (sanitizeString b) = sanitizeString b
  ∧ (sanitizeString b = b ↔ ValidString b = true ∧ last b ≠ Some x00).
Proof.
  split.
  - apply sanitizeString_fixed; [apply sanitizeString_valid | apply sanitizeString_last].
  - split.
    + intros Heq. rewrite <- Heq. split; [apply sanitizeString_valid | apply sanitizeString_last].
    + intros [Hv Hl]. by apply sanitizeString_fixed.
Qed.

(** X6. On a buffer filled the C way, some text without a zero byte
    followed only by zero bytes, whose text is valid UTF-8, the result of
    [sanitizeString] is the C string: the text before the first zero. *)
Theorem sanitizeString_cstring (b : list byte) (k : nat) :
  b = cstring b ++ replicate k x00 →
  ValidString (cstring b) = true →
  sanitizeString b = cstring b.
Proof.
  intros Hb Hv. rewrite Hb at 1. rewrite sanitizeString_replaceAll.
  unfold strings_.TrimRight. rewrite trimRightByte_pad.
  - by apply replaceAll_valid.
  - apply last_not_elem, cstring_no_zero.
Qed.

Lemma sanitizeString_cstring_witness :
  go "python3" ++ replicate 9 x00 = cstring (go "python3" ++ replicate 9 x00) ++ replicate 9 x00
  ∧ ValidString (cstring (go "python3" ++ replicate 9 x00)) = true
  ∧ sanitizeString (go "python3" ++ replicate 9 x00)
    = cstring (go "python3" ++ replicate 9 x00).
Proof.
  split; [by vm_compute |]. split; [by vm_compute |].
  apply (sanitizeString_cstring (go "python3" ++ replicate 9 x00) 9); by vm_compute.
Defined.
(** ** An empty string *)

Lemma trimRightByte_nonempty s c :
  strings_.trimRightByte s c = [] → s = replicate (length s) c.
Proof.
  intros H. destruct (trimRightByte_spec s c) as (k & Hk & _).
  rewrite H in Hk. cbn in Hk. rewrite Hk at 2. by rewrite length_replicate.
Qed.

(** X7. A field decodes to the empty string exactly when it holds
    nothing but zero bytes: an unset field of the raw record gives an
    empty string, and any other content shows in the result. *)
Theorem sanitizeString_empty_iff (b : list byte) :
  sanitizeString b = [] ↔ b = replicate (length b) x00.
Proof.
  rewrite sanitizeString_replaceAll. unfold strings_.TrimRight. split.
  - intros H. apply trimRightByte_nonempty.
    destruct (strings_.trimRightByte b x00) as [|x t] eqn:Ht; [done |].
    exfalso. revert H. apply replaceAll_nonempty; [done |]. left. done.
  - intros ->. rewrite <- (app_nil_l (replicate _ _)).
    rewrite trimRightByte_pad by done. apply replaceAll_nil.
Qed.
(** ** Time, further *)

Lemma Add_time_ok t d :
  clock_ok t → - 2 ^ 63 ≤ d < 2 ^ 63 →
  unixNano (time.Add t d) = unixNano t + d ∧ time_ok (time.Add t d).
Proof.
  intros [Hn Hs] Hd.
  destruct (Add_unixNano t d) as (Hu & Hn' & _); [split; lia | done |].
  split; [done |]. split; [done |].
  unfold unixNano in Hu. lia.
Qed.

Lemma computeBootTime_Add now ts :
  mono_ok ts →
  computeBootTime now ts = time.Add now (- (ts_Sec ts * 1000000000 + ts_Nsec ts)).
Proof.
  intros [Hs Hn]. unfold computeBootTime, time.mul, time.neg, time.Nanosecond.
  rewrite (to_int64_id (ts_Sec ts * _)) by lia.
  rewrite (to_int64_id (_ + ts_Nsec ts)) by lia.
  rewrite (to_int64_id (- _)) by lia.
  rewrite Z.mul_1_r, to_int64_id by lia. done.
Qed.

Lemma timestamp_unique s n s' n' :
  s * 1000000000 + n = s' * 1000000000 + n' →
  0 ≤ n < 1000000000 → 0 ≤ n' < 1000000000 → s = s' ∧ n = n'.
Proof. lia. Qed.

(** X8. The boot time [main] computes is the wall clock minus the
    reading of the monotonic clock, and it undoes that reading: a record
    stamped with the reading itself gets the wall clock of the startup as
    its timestamp, and a record stamped later gets the wall clock of the
    startup plus the monotonic time elapsed since. *)
Theorem computeBootTime_round_trip (now : time.Time) (ts : Timespec) :
  clock_ok now → mono_ok ts →
  let monoNs := ts_Sec ts * 1000000000 + ts_Nsec ts in
  let boot := computeBootTime now ts in
  unixNano boot = unixNano now - monoNs
  ∧ time_ok boot
  ∧ (∀ e, Ts e = monoNs →
       pb.Ts (pbEvent boot e)
       = pb.mkTimestamp (time.sec now + time.internalToUnix) (time.nsec now))
  ∧ (∀ e, 0 ≤ Ts e < 2 ^ 63 →
       pb.Seconds (pb.Ts (pbEvent boot e)) * 1000000000 + pb.Nanos (pb.Ts (pbEvent boot e))
       = unixNano now + (Ts e - monoNs)).
Proof.
  intros Hnow Hts monoNs boot. subst boot monoNs.
  rewrite computeBootTime_Add by done.
  pose proof Hts as [Hs Hn].
  destruct (Add_time_ok now (- (ts_Sec ts * 1000000000 + ts_Nsec ts)) Hnow ltac:(lia))
    as [Hu Hok].
  split; [lia |]. split; [done |].
  assert (Hlater : ∀ e, 0 ≤ Ts e < 2 ^ 63 →
    pb.Seconds (pb.Ts (pbEvent (time.Add now (- (ts_Sec ts * 1000000000 + ts_Nsec ts))) e))
      * 1000000000
    + pb.Nanos (pb.Ts (pbEvent (time.Add now (- (ts_Sec ts * 1000000000 + ts_Nsec ts))) e))
    = unixNano now + (Ts e - (ts_Sec ts * 1000000000 + ts_Nsec ts))).
  { intros e He. destruct (pbEvent_Ts _ e Hok) as [Hsum _].
    rewrite Hsum, Hu, to_int64_id by lia. lia. }
  split; [| exact Hlater].
  intros e He. specialize (Hlater e ltac:(lia)).
  destruct (pbEvent_Ts _ e Hok) as [_ Hnanos].
  destruct Hnow as [Hnn _].
  destruct (pb.Ts (pbEvent _ e)) as [S N]. cbn [pb.Seconds pb.Nanos] in *.
  unfold unixNano in Hlater.
  destruct (timestamp_unique S N (time.sec now + time.internalToUnix) (time.nsec now));
    [lia | done | done |]. by subst.
Qed.

Lemma computeBootTime_round_trip_witness :
  clock_ok now0 ∧ mono_ok mono0
  ∧ unixNano (computeBootTime now0 mono0) = unixNano now0 - 3600750000000.
Proof.
  assert (H1 : clock_ok now0) by (by vm_compute).
  assert (H2 : mono_ok mono0) by (by vm_compute).
  split; [exact H1 |]. split; [exact H2 |].
  exact (proj1 (computeBootTime_round_trip now0 mono0 H1 H2)).
Defined.

(** X9. The reconciliation keeps the order and the distances of the
    kernel's timestamps: of two records stamped below [2^63] nanoseconds,
    the later one gets the later absolute timestamp, exactly as many
    nanoseconds later, and equal absolute timestamps come from equal
    stamps only. *)
Theorem timestamps_keep_order (boot : time.Time) (e1 e2 : event) :
  time_ok boot →
  0 ≤ Ts e1 < 2 ^ 63 → 0 ≤ Ts e2 < 2 ^ 63 →
  let t1 := pb.Ts (pbEvent boot e1) in
  let t2 := pb.Ts (pbEvent boot e2) in
  (pb.Seconds t2 * 1000000000 + pb.Nanos t2)
    - (pb.Seconds t1 * 1000000000 + pb.Nanos t1) = Ts e2 - Ts e1
  ∧ (Ts e1 ≤ Ts e2 ↔
       pb.Seconds t1 < pb.Seconds t2
       ∨ (pb.Seconds t1 = pb.Seconds t2 ∧ pb.Nanos t1 ≤ pb.Nanos t2))
  ∧ (t1 = t2 ↔ Ts e1 = Ts e2).
Proof.
  intros Hok H1 H2 t1 t2. subst t1 t2.
  destruct (pbEvent_Ts boot e1 Hok) as [Hs1 Hn1].
  destruct (pbEvent_Ts boot e2 Hok) as [Hs2 Hn2].
  rewrite to_int64_id in Hs1, Hs2 by lia.
  assert (Heq : Ts e1 = Ts e2 → pb.Ts (pbEvent boot e1) = pb.Ts (pbEvent boot e2)).
  { intros He. cbn [pbEvent pb.Ts]. by rewrite He. }
  destruct (pb.Ts (pbEvent boot e1)) as [S1 N1].
  destruct (pb.Ts (pbEvent boot e2)) as [S2 N2].
  cbn [pb.Seconds pb.Nanos] in *.
  split; [lia |]. split; [lia |].
  split; [| done]. intros [= -> ->]. lia.
Qed.

Lemma timestamps_keep_order_witness :
  time_ok boot0
  ∧ (pb.Seconds (pb.Ts (pbEvent boot0 (mkevent 2500000000 0 0 [] 1 0 0 [] []))) * 1000000000
     + pb.Nanos (pb.Ts (pbEvent boot0 (mkevent 2500000000 0 0 [] 1 0 0 [] []))))
    - (pb.Seconds (pb.Ts (pbEvent boot0 (mkevent 999999999 0 0 [] 1 0 0 [] []))) * 1000000000
       + pb.Nanos (pb.Ts (pbEvent boot0 (mkevent 999999999 0 0 [] 1 0 0 [] []))))
    = 2500000000 - 999999999.
Proof.
  assert (Hok : time_ok boot0) by (by vm_compute).
  split; [exact Hok |].
  exact (proj1 (timestamps_keep_order boot0 (mkevent 999999999 0 0 [] 1 0 0 [] [])
                  (mkevent 2500000000 0 0 [] 1 0 0 [] []) Hok
                  ltac:(by vm_compute) ltac:(by vm_compute))).
Defined.
(** ** The goroutines, further *)

Lemma selectnbsend_Ok ch batch h h' :
  selectnbsend ch batch h = Ok h' →
  ∃ c, h !! ch = Some c ∧ chan.closed c = false ∧ h' = <[ch := enqueue batch c]> h.
Proof.
  unfold selectnbsend, chan.send, enqueue. intros H.
  destruct (h !! ch) as [c|]; [| done]. exists c.
  destruct (chan.closed c); [done |].
  destruct (length (chan.buf c) <? chan.cap c)%nat; result_simpl H; by simplify_eq.
Qed.

Lemma recv_Ok c c' o :
  chan.recv c = Ok (c', o) →
  (∃ ep rest, chan.buf c = ep :: rest
     ∧ c' = chan.mk rest (chan.cap c) (chan.closed c) ∧ o = Some ep)
  ∨ (chan.buf c = [] ∧ chan.closed c = true ∧ c' = c ∧ o = None).
Proof.
  unfold chan.recv. intros H. destruct (chan.buf c) as [|ep rest].
  - destruct (chan.closed c); [| done]. simplify_eq. by right.
  - simplify_eq. left. eauto.
Qed.

Lemma close_Ok c c' :
  chan.close c = Ok c' →
  chan.closed c = false ∧ c' = chan.mk (chan.buf c) (chan.cap c) true.
Proof. unfold chan.close. intros H. destruct (chan.closed c); by simplify_eq. Qed.

(** What a step does to the channels and to the streams. *)
Lemma step_effect a st st' :
  step a st = Ok st' →
  match a with
  | ARead _ | ABLock | ABUnlock | ASCancel _ =>
    reg st' = reg st ∧ streamed st' = streamed st
  | ABSend ch =>
    ∃ b v c, bpc st = BRange b v ∧ bpc st' = BRange b ({[ch]} ∪ v)
      ∧ chans (reg st) !! ch = Some c ∧ chan.closed c = false
      ∧ reg st' = mkRegistry (clients (reg st)) (<[ch := enqueue b c]> (chans (reg st)))
      ∧ streamed st' = streamed st
  | ASNew ch =>
    chans (reg st) !! ch = None
    ∧ reg st' = mkRegistry (clients (reg st))
                           (<[ch := chan.make clientChanCap]> (chans (reg st)))
    ∧ streamed st' = streamed st
  | ASStep ch =>
    streamed st' = streamed st
    ∧ (chans (reg st') = chans (reg st)
       ∨ ∃ c, chans (reg st) !! ch = Some c ∧ chan.closed c = false
           ∧ chans (reg st')
             = <[ch := chan.mk (chan.buf c) (chan.cap c) true]> (chans (reg st)))
  | ASRecv ch sent =>
    ∃ c c' o, spc st !! ch = Some SSelect
      ∧ chans (reg st) !! ch = Some c ∧ chan.recv c = Ok (c', o)
      ∧ reg st' = mkRegistry (clients (reg st)) (<[ch := c']> (chans (reg st)))
      ∧ streamed st' = <[ch := streamed st !!! ch ++ [default [] o]]> (streamed st)
  end.
Proof.
  intros Hstep.
  destruct a as [[raw|]| |ch| |ch|ch|ch sent|ch]; cbn [step] in Hstep;
    unfold step_bcast, step_session, step_recv in Hstep.
  - repeat case_match; by simplify_eq.
  - repeat case_match; by simplify_eq.
  - repeat case_match; by simplify_eq.
  - destruct (bpc st) as [| |b v|] eqn:Hb; try done.
    case_decide; [| done].
    destruct (selectnbsend ch b (chans (reg st))) as [h'| |] eqn:Hs;
      result_simpl Hstep; [| done | done].
    apply selectnbsend_Ok in Hs as (c & Hc & Ho & ->). simplify_eq.
    exists b, v, c. done.
  - repeat case_match; by simplify_eq.
  - case_decide as Hf; [| done]. simplify_eq. cbn.
    split; [| done]. apply not_elem_of_dom. tauto.
  - destruct (spc st !! ch) as [[]|] eqn:Hpc; try done;
      try (repeat case_match; simplify_eq; cbn; by auto).
    destruct (chans (reg st) !! ch) as [c|] eqn:Hc; [| done].
    destruct (chan.close c) as [c'| |] eqn:Hcl; result_simpl Hstep; [| done | done].
    apply close_Ok in Hcl as [Ho ->]. simplify_eq. cbn. split; [done |]. right. eauto.
  - destruct (spc st !! ch) as [[]|] eqn:Hpc; try done.
    destruct (chans (reg st) !! ch) as [c|] eqn:Hc; [| done].
    destruct (chan.recv c) as [[c' o]| |] eqn:Hr; result_simpl Hstep; [| done | done].
    exists c, c', o. destruct sent; by simplify_eq.
  - repeat case_match; by simplify_eq.
Qed.

(** *** The queues stay within their capacity *)

Lemma step_bounded a st st' :
  queues_bounded st → step a st = Ok st' → queues_bounded st'.
Proof.
  intros Hq Hstep ch0 c0 Hc0. apply step_effect in Hstep.
  destruct a as [r| |ch| |ch|ch|ch sent|ch].
  - destruct Hstep as [Hr _]. rewrite Hr in Hc0. eauto.
  - destruct Hstep as [Hr _]. rewrite Hr in Hc0. eauto.
  - destruct Hstep as (b & v & c & _ & _ & Hc & _ & Hr & _). rewrite Hr in Hc0.
    cbn in Hc0. apply lookup_insert_Some in Hc0 as [[-> <-]|[_ Hc0]]; [| eauto].
    destruct (Hq _ _ Hc) as [Hlen Hcap]. unfold enqueue.
    destruct (Nat.ltb_spec (length (chan.buf c)) (chan.cap c)); cbn; [| done].
    rewrite length_app. cbn. split; [lia | done].
  - destruct Hstep as [Hr _]. rewrite Hr in Hc0. eauto.
  - destruct Hstep as (_ & Hr & _). rewrite Hr in Hc0. cbn in Hc0.
    apply lookup_insert_Some in Hc0 as [[-> <-]|[_ Hc0]]; [| eauto].
    cbn. split; [lia | done].
  - destruct Hstep as (_ & [Hr | (c & Hc & _ & Hr)]); rewrite Hr in Hc0; [eauto |].
    apply lookup_insert_Some in Hc0 as [[-> <-]|[_ Hc0]]; [| eauto].
    apply (Hq _ _ Hc).
  - destruct Hstep as (c & c' & o & _ & Hc & Hrecv & Hr & _). rewrite Hr in Hc0.
    cbn in Hc0. apply lookup_insert_Some in Hc0 as [[-> <-]|[_ Hc0]]; [| eauto].
    destruct (Hq _ _ Hc) as [Hlen Hcap].
    apply recv_Ok in Hrecv as [(ep & rest & Hbuf & -> & _) | (_ & _ & -> & _)]; [| done].
    rewrite Hbuf in Hlen. cbn in *. split; [lia | done].
  - destruct Hstep as [Hr _]. rewrite Hr in Hc0. eauto.
Qed.

Lemma run_bounded tr : ∀ st st',
  queues_bounded st → run tr st = Ok st' → queues_bounded st'.
Proof.
  induction tr as [|a tr IH]; intros st st' Hq Hrun; cbn in Hrun; [by simplify_eq |].
  destruct (step a st) as [st1| |] eqn:Hs; try done.
  eapply IH; [| exact Hrun]. by eapply step_bounded.
Qed.

Lemma bounded_init boot : queues_bounded (init boot).
Proof. intros ch c Hc. cbn in Hc. by rewrite lookup_empty in Hc. Qed.

(** X10. No queue ever holds more than 100 batches: in every state the
    program reaches, every channel has the capacity [StreamEvents] made
    it with and at most that many batches waiting. *)
Theorem queue_never_exceeds_capacity (boot : time.Time) (tr : list action) (st : state) :
  run tr (init boot) = Ok st →
  ∀ ch, (length (queue st ch) ≤ 100)%nat
        ∧ ∀ c, chans (reg st) !! ch = Some c →
               chan.cap c = 100%nat ∧ (length (chan.buf c) ≤ chan.cap c)%nat.
Proof.
  intros Hrun ch.
  pose proof (run_bounded _ _ _ (bounded_init boot) Hrun) as Hq.
  split.
  - unfold queue. destruct (chans (reg st) !! ch) as [c|] eqn:Hc; [| cbn; lia].
    destruct (Hq _ _ Hc) as [Hlen Hcap]. unfold clientChanCap in Hcap. lia.
  - intros c Hc. destruct (Hq _ _ Hc) as [Hlen Hcap]. done.
Qed.

Lemma queue_never_exceeds_capacity_witness :
  let st := final (run flood (init boot0)) (init boot0) in
  run flood (init boot0) = Ok st
  ∧ length (decoded boot0 flood) = 101%nat
  ∧ length (queue st 1) = 100%nat
  ∧ ∀ ch, (length (queue st ch) ≤ 100)%nat.
Proof.
  intros st.
  assert (Hrun : run flood (init boot0) = Ok st) by (by vm_compute).
  split; [exact Hrun |]. split; [by vm_compute |]. split; [by vm_compute |].
  intros ch. exact (proj1 (queue_never_exceeds_capacity boot0 flood st Hrun ch)).
Defined.
(** *** The lock *)

(** X11. [s.mu] excludes: in every state the program reaches at most one
    goroutine is inside a critical section, it is the one recorded as the
    holder of the lock, the lock is free exactly when no goroutine is
    inside, and the loop does not hold it once it has returned or while
    it reads and decodes. *)
Theorem lock_mutual_exclusion (boot : time.Time) (tr : list action) (st : state) :
  run tr (init boot) = Ok st →
  (∀ t1 t2, holder st t1 = true → holder st t2 = true → t1 = t2)
  ∧ (∀ t, holder st t = true ↔ mu st = Some t)
  ∧ (mu st = None ↔ ∀ t, holder st t = false)
  ∧ (mu st = Some Broadcaster ↔ ∃ batch visited, bpc st = BRange batch visited).
Proof.
  intros Hrun. pose proof (reachable_inv _ _ _ Hrun) as [_ _ Hmu].
  split; [| split; [done | split]].
  - intros t1 t2 H1 H2. apply Hmu in H1, H2. congruence.
  - split.
    + intros Hn t. destruct (holder st t) eqn:Ht; [| done].
      apply Hmu in Ht. congruence.
    + intros Hall. destruct (mu st) as [t|] eqn:Hm; [| done].
      pose proof (proj2 (Hmu t) eq_refl) as Ht. by rewrite Hall in Ht.
  - rewrite <- Hmu. cbn. destruct (bpc st); cbn; split; try done; eauto.
    all: by intros (? & ? & ?).
Qed.

Lemma lock_mutual_exclusion_witness :
  let st := final (run (startup 1 ++ [ARead (Record_ rawRename); ABLock]) (init boot0))
                  (init boot0) in
  run (startup 1 ++ [ARead (Record_ rawRename); ABLock]) (init boot0) = Ok st
  ∧ (∀ t, holder st t = true ↔ mu st = Some t).
Proof.
  intros st.
  assert (Hrun : run (startup 1 ++ [ARead (Record_ rawRename); ABLock]) (init boot0) = Ok st)
    by (by vm_compute).
  split; [exact Hrun |].
  exact (proj1 (proj2 (lock_mutual_exclusion boot0 _ st Hrun))).
Defined.

(** *** Receiving *)

Lemma queue_insert st r ch c ch0 :
  reg st = r → ∀ st', reg st' = mkRegistry (clients r) (<[ch := c]> (chans r)) →
  queue st' ch0 = if decide (ch0 = ch) then chan.buf c else queue st ch0.
Proof.
  intros <- st' Hr. unfold queue. rewrite Hr. cbn.
  case_decide as Hd; [subst; by rewrite lookup_insert_eq |].
  by rewrite lookup_insert_ne.
Qed.

(** X12. A session takes the batches out of its queue in the order they
    went in, and forwards to [stream.Send] what it took: in every state
    the program reaches a receive that happens removes the head of the
    queue and appends it to the session's stream, leaving everything
    else as it was; on an empty queue the receive waits, and it never
    yields the nil batch of a closed channel. *)
Theorem session_receives_head
    (boot : time.Time) (tr : list action) (st : state) (ch : loc) (sent : bool) :
  run tr (init boot) = Ok st →
  (queue st ch = [] → step (ASRecv ch sent) st = Stuck)
  ∧ (∀ st', step (ASRecv ch sent) st = Ok st' →
       ∃ ep, queue st ch = ep :: queue st' ch
         ∧ streamed st' !!! ch = streamed st !!! ch ++ [ep]
         ∧ delivered st' ch = delivered st ch
         ∧ spc st' !! ch = Some (if sent then SSelect else SDeferLock)
         ∧ ∀ ch', ch' ≠ ch →
             queue st' ch' = queue st ch' ∧ streamed st' !!! ch' = streamed st !!! ch').
Proof.
  intros Hrun. pose proof (reachable_inv _ _ _ Hrun) as [_ Hch _].
  assert (Hok : ∀ st', step (ASRecv ch sent) st = Ok st' →
            ∃ c ep, chans (reg st) !! ch = Some c ∧ chan.buf c = ep :: queue st' ch
              ∧ streamed st' = <[ch := streamed st !!! ch ++ [ep]]> (streamed st)
              ∧ (∀ ch', ch' ≠ ch → queue st' ch' = queue st ch')
              ∧ spc st' !! ch = Some (if sent then SSelect else SDeferLock)).
  { intros st' Hstep. pose proof (step_effect _ _ _ Hstep) as Heff. cbn in Heff.
    destruct Heff as (c & c' & o & Hpc & Hc & Hrecv & Hr & Hs).
    destruct (Hch _ _ Hpc) as (c0 & Hc0 & _ & Hclosed). simplify_eq.
    assert (Hq : ∀ ch0, queue st' ch0 = if decide (ch0 = ch) then chan.buf c' else queue st ch0)
      by (intros ch0; by eapply queue_insert).
    assert (Hpc' : spc st' !! ch = Some (if sent then SSelect else SDeferLock)).
    { cbn [step] in Hstep. unfold step_recv in Hstep. rewrite Hpc, Hc, Hrecv in Hstep.
      result_simpl Hstep. destruct sent; simplify_eq; cbn; [done |].
      by rewrite lookup_insert_eq. }
    apply recv_Ok in Hrecv as [(ep & rest & Hbuf & -> & ->) | (_ & Hcl & _)];
      [| cbn in Hclosed; congruence].
    exists c, ep. split; [done |]. split.
    { rewrite Hq, decide_True by done. done. }
    split; [done |]. split; [| done].
    intros ch' Hne. rewrite Hq, decide_False by done. done. }
  split.
  - intros Hempty. destruct (step (ASRecv ch sent) st) as [st'| |] eqn:Hstep; [| done |].
    + destruct (Hok st' eq_refl) as (c & ep & Hc & Hbuf & _).
      unfold queue in Hempty. rewrite Hc in Hempty. congruence.
    + pose proof (reachable_inv _ _ _ Hrun) as Hinv. by apply step_safe in Hstep.
  - intros st' Hstep. destruct (Hok st' Hstep) as (c & ep & Hc & Hbuf & Hs & Hq & Hpc).
    exists ep.
    assert (Hqueue : queue st ch = ep :: queue st' ch).
    { unfold queue at 1. by rewrite Hc. }
    assert (Hstream : streamed st' !!! ch = streamed st !!! ch ++ [ep]).
    { rewrite Hs. apply lookup_total_insert_eq. }
    split; [done |]. split; [done |]. split; [| split; [done |]].
    + unfold delivered. rewrite Hstream, Hqueue, <- app_assoc. done.
    + intros ch' Hne. split; [by apply Hq |].
      rewrite Hs. by apply lookup_total_insert_ne.
Qed.

Lemma session_receives_head_witness :
  let st := final (run one_waiting (init boot0)) (init boot0) in
  run one_waiting (init boot0) = Ok st
  ∧ ∀ st', step (ASRecv 1 true) st = Ok st' →
      ∃ ep, queue st 1 = ep :: queue st' 1.
Proof.
  intros st.
  assert (Hrun : run one_waiting (init boot0) = Ok st) by (by vm_compute).
  split; [exact Hrun |].
  intros st' Hstep.
  destruct (proj2 (session_receives_head boot0 one_waiting st 1 true Hrun) st' Hstep)
    as (ep & Hq & _).
  exists ep. exact Hq.
Defined.
(** *** The loop is not held up *)

(** X13. Once the loop is ranging over [s.clients] it finishes the pass
    on its own, whatever the sessions are doing and however full their
    queues are: from every state the program reaches inside the range
    loop, sending to the clients not yet visited and unlocking runs
    through, every one of those clients gets the batch unless its queue
    is full, the set of clients and the sessions are as before, the lock
    is free and the loop is back at its read. *)
Theorem range_pass_completes
    (boot : time.Time) (tr : list action) (st : state)
    (batch : pb.EventBatch) (visited : gset loc) :
  run tr (init boot) = Ok st →
  bpc st = BRange batch visited →
  ∃ st', run (finish_range st) st = Ok st'
    ∧ bpc st' = BRead ∧ mu st' = None
    ∧ clients (reg st') = clients (reg st)
    ∧ spc st' = spc st ∧ streamed st' = streamed st
    ∧ (∀ ch, chans (reg st') !! ch
         = (λ c, if decide (ch ∈ clients (reg st) ∖ visited)
                 then enqueue batch c else c) <$> chans (reg st) !! ch).
Proof.
  intros Hrun Hb. pose proof (reachable_inv _ _ _ Hrun) as Hinv.
  pose proof (inv_registry_ok _ Hinv) as Hok.
  unfold finish_range. rewrite Hb.
  set (keys := elements (clients (reg st) ∖ visited)).
  assert (Hnd : NoDup keys) by apply NoDup_elements.
  assert (Hkeys : ∀ ch, ch ∈ keys ↔ ch ∈ clients (reg st) ∖ visited)
    by (intros ch; apply elem_of_elements).
  destruct (run_range batch keys st visited Hb Hnd) as (h' & Hrange & Hrun');
    [intros ch Hin; apply Hkeys in Hin; set_solver | done |].
  destruct (rangeSend_spec batch keys (chans (reg st)) Hnd) as (h2 & Hrange2 & Hh2).
  { intros ch Hin. apply Hkeys in Hin.
    destruct (Hok ch) as (c & Hc & Ho & _); [set_solver | eauto]. }
  rewrite Hrange2 in Hrange. simplify_eq.
  eexists. rewrite run_app, Hrun', bind_Ok, run_cons. cbn [step].
  unfold step_bcast. cbn [bpc]. rewrite decide_True.
  - cbn. split; [reflexivity |]. cbn. repeat (split; [done |]).
    intros ch. rewrite Hh2. destruct (chans (reg st) !! ch) as [c|]; [| done]. cbn.
    f_equal. destruct (decide (ch ∈ keys)) as [Hin | Hnin].
    + rewrite decide_True by (by apply Hkeys). done.
    + rewrite decide_False by (by rewrite <- Hkeys). done.
  - cbn. intros ch Hin. destruct (decide (ch ∈ visited)) as [Hv | Hv]; [set_solver |].
    apply elem_of_union_l, elem_of_list_to_set, Hkeys. set_solver.
Qed.

Lemma range_pass_completes_witness :
  let tr := startup 1 ++ startup 2 ++ [ARead (Record_ rawRename); ABLock; ABSend 2] in
  let st := final (run tr (init boot0)) (init boot0) in
  run tr (init boot0) = Ok st
  ∧ bpc st = BRange [pbEvent boot0 renameEvent] {[2%positive]}
  ∧ ∃ st', run (finish_range st) st = Ok st' ∧ bpc st' = BRead ∧ mu st' = None.
Proof.
  intros tr st.
  assert (Hrun : run tr (init boot0) = Ok st) by (by vm_compute).
  assert (Hb : bpc st = BRange [pbEvent boot0 renameEvent] {[2%positive]})
    by (by vm_compute).
  split; [exact Hrun |]. split; [exact Hb |].
  destruct (range_pass_completes boot0 tr st _ _ Hrun Hb) as (st' & H1 & H2 & H3 & _).
  exists st'. split; [exact H1 |]. split; [exact H2 | exact H3].
Defined.
(** *** After the loop has returned *)

Lemma step_bpc a st st' :
  step a st = Ok st' → of_session a = true → bpc st' = bpc st.
Proof.
  intros Hstep Ha.
  destruct a as [[raw|]| |ch| |ch|ch|ch sent|ch]; try done; cbn [step] in Hstep;
    unfold step_session, step_recv in Hstep;
    repeat case_match; try done;
    try (destruct (chan.recv _) as [[??]| |]);
    try (destruct (chan.close _));
    result_simpl Hstep; try done; by simplify_eq.
Qed.

Lemma step_returned a st st' :
  bpc st = BReturned → step a st = Ok st' →
  of_session a = true ∧ bpc st' = BReturned
  ∧ ∀ ch, ∃ k, queue st' ch = drop k (queue st ch).
Proof.
  intros Hb Hstep.
  assert (Ha : of_session a = true).
  { destruct a as [[raw|]| |ch| |ch|ch|ch sent|ch]; try done; cbn [step] in Hstep;
      unfold step_bcast in Hstep; by rewrite Hb in Hstep. }
  split; [done |]. split; [by rewrite (step_bpc _ _ _ Hstep Ha) |].
  intros ch0. pose proof (step_effect _ _ _ Hstep) as Heff.
  destruct a as [r| |ch| |ch|ch|ch sent|ch]; try done.
  - destruct Heff as (Hnone & Hr & _). exists 0%nat. rewrite drop_0.
    rewrite (queue_insert st _ ch _ ch0 eq_refl st' Hr). case_decide; [| done].
    subst. unfold queue. by rewrite Hnone.
  - destruct Heff as (_ & [Hr | (c & Hc & _ & Hr)]); exists 0%nat; rewrite drop_0;
      unfold queue; rewrite Hr; [done |].
    destruct (decide (ch0 = ch)) as [-> | Hne].
    + by rewrite lookup_insert_eq, Hc.
    + by rewrite lookup_insert_ne.
  - destruct Heff as (c & c' & o & _ & Hc & Hrecv & Hr & _).
    rewrite (queue_insert st _ ch _ ch0 eq_refl st' Hr).
    case_decide; [subst | by exists 0%nat].
    unfold queue. rewrite Hc.
    apply recv_Ok in Hrecv as [(ep & rest & Hbuf & -> & _) | (_ & _ & -> & _)].
    + exists 1%nat. by rewrite Hbuf.
    + by exists 0%nat.
  - destruct Heff as [Hr _]. exists 0%nat. unfold queue. by rewrite Hr.
Qed.

(** X14. When [Read] fails the loop returns, and that is its end: from
    a state in which it has returned, every step that happens is a step
    of a session, the loop stays returned, and nothing is added to any
    queue any more, a queue only losing from its head what its session
    receives. *)
Theorem nothing_enqueued_after_return (tr : list action) :
  ∀ st st', bpc st = BReturned → run tr st = Ok st' →
  bpc st' = BReturned
  ∧ Forall (λ a, of_session a = true) tr
  ∧ ∀ ch, ∃ k, queue st' ch = drop k (queue st ch).
Proof.
  induction tr as [|a tr IH]; intros st st' Hb Hrun; cbn in Hrun.
  - simplify_eq. split; [done |]. split; [done |]. intros ch. by exists 0%nat.
  - destruct (step a st) as [st1| |] eqn:Hs; try done.
    destruct (step_returned _ _ _ Hb Hs) as (Ha & Hb1 & Hq1).
    destruct (IH _ _ Hb1 Hrun) as (Hb' & Hall & Hq').
    split; [done |]. split; [by constructor |].
    intros ch. destruct (Hq1 ch) as [k1 Hk1]. destruct (Hq' ch) as [k2 Hk2].
    exists (k1 + k2)%nat. by rewrite Hk2, Hk1, drop_drop.
Qed.

Lemma nothing_enqueued_after_return_witness :
  let st := final (run (one_waiting ++ [ARead ReadError]) (init boot0)) (init boot0) in
  let st' := final (run [ASRecv 1 true; ASNew 2] st) st in
  bpc st = BReturned
  ∧ run [ASRecv 1 true; ASNew 2] st = Ok st'
  ∧ queue st 1 = [[pbEvent boot0 renameEvent]]
  ∧ bpc st' = BReturned.
Proof.
  intros st st'.
  assert (Hb : bpc st = BReturned) by (by vm_compute).
  assert (Hrun : run [ASRecv 1 true; ASNew 2] st = Ok st') by (by vm_compute).
  split; [exact Hb |]. split; [exact Hrun |]. split; [by vm_compute |].
  exact (proj1 (nothing_enqueued_after_return _ st st' Hb Hrun)).
Defined.

(** *** The life of a session *)

(** X15. The head of [StreamEvents], run without another goroutine in
    between, is [register]: from a state with the lock free, making the
    channel, locking, inserting and unlocking leave the registry
    [register] gives, the session in its select loop, the lock free and
    the loop where it was. *)
Theorem startup_registers (st : state) (ch : loc) :
  mu st = None →
  ch ∉ dom (chans (reg st)) → ch ∉ dom (spc st) →
  run (startup ch) st
  = Ok (mkState (register ch (reg st)) (bootTime st) None (bpc st)
                (<[ch := SSelect]> (spc st)) (streamed st)).
Proof.
  intros Hm Hc Hs. unfold startup. destruct st as [[cl h] bt m b s str]. cbn in *. subst.
  rewrite decide_True by done. cbn.
  unfold step_session. cbn. rewrite lookup_insert_eq. cbn.
  unfold step_session. cbn. rewrite lookup_insert_eq. cbn.
  unfold step_session. cbn. rewrite lookup_insert_eq. cbn.
  unfold register, set_spc, set_mu, set_reg. cbn.
  by rewrite !insert_insert_eq.
Qed.

Lemma startup_registers_witness :
  mu (init boot0) = None
  ∧ run (startup 1) (init boot0)
    = Ok (mkState (register 1 (reg (init boot0))) boot0 None BRead {[1%positive := SSelect]} ∅).
Proof.
  split; [reflexivity |].
  rewrite (startup_registers (init boot0) 1 eq_refl); [| by vm_compute | by vm_compute].
  by vm_compute.
Defined.
(** X16. The deferred function of [StreamEvents], run without another
    goroutine in between, is [unregister]: from a state the program
    reaches in which the lock is free and the session has left its
    select loop, locking, deleting, unlocking and closing succeed and
    leave the registry [unregister] gives, the session returned, its
    channel out of [s.clients] and closed with what was still waiting in
    it, the lock free. *)
Theorem teardown_unregisters
    (boot : time.Time) (tr : list action) (st : state) (ch : loc) :
  run tr (init boot) = Ok st →
  mu st = None →
  spc st !! ch = Some SDeferLock →
  ∃ r', unregister ch (reg st) = Ok r'
    ∧ run (teardown ch) st
      = Ok (mkState r' (bootTime st) None (bpc st) (<[ch := SDone]> (spc st)) (streamed st))
    ∧ (ch ∉ clients r')
    ∧ ∃ c, chans (reg st) !! ch = Some c
        ∧ chans r' !! ch = Some (chan.mk (chan.buf c) 100 true).
Proof.
  intros Hrun Hm Hpc. pose proof (reachable_inv _ _ _ Hrun) as [_ Hch _].
  destruct (Hch _ _ Hpc) as (c & Hc & Hcap & Hclosed). cbn in Hclosed.
  unfold unregister, teardown. rewrite Hc. unfold chan.close. rewrite Hclosed. cbn.
  eexists. split; [reflexivity |].
  destruct st as [[cl h] bt m b s str]. cbn in *. subst.
  split; [| split].
  - unfold step_session. cbn. rewrite Hpc. cbn.
    unfold step_session. cbn. rewrite lookup_insert_eq. cbn.
    unfold step_session. cbn. rewrite lookup_insert_eq. cbn.
    unfold step_session. cbn. rewrite lookup_insert_eq. cbn. rewrite Hc. cbn.
    unfold chan.close. rewrite Hclosed. cbn.
    unfold set_spc, set_mu, set_reg. cbn. by rewrite !insert_insert_eq.
  - set_solver.
  - exists c. split; [done |]. rewrite lookup_insert_eq. by rewrite Hcap.
Qed.

Lemma teardown_unregisters_witness :
  let st := final (run (one_waiting ++ [ASCancel 1]) (init boot0)) (init boot0) in
  run (one_waiting ++ [ASCancel 1]) (init boot0) = Ok st
  ∧ mu st = None
  ∧ spc st !! 1%positive = Some SDeferLock
  ∧ ∃ r', unregister 1 (reg st) = Ok r' ∧ (1%positive ∉ clients r').
Proof.
  intros st.
  assert (Hrun : run (one_waiting ++ [ASCancel 1]) (init boot0) = Ok st) by (by vm_compute).
  assert (Hm : mu st = None) by (by vm_compute).
  assert (Hpc : spc st !! 1%positive = Some SDeferLock) by (by vm_compute).
  split; [exact Hrun |]. split; [exact Hm |]. split; [exact Hpc |].
  destruct (teardown_unregisters boot0 _ st 1 Hrun Hm Hpc) as (r' & H1 & _ & H3 & _).
  exists r'. split; [exact H1 | exact H3].
Defined.

(** X17. A channel that has left [s.clients] never comes back: once a
    session is past its [delete], in every later state its channel is
    outside [s.clients], the loop cannot send to it, and the session has
    only moved on towards its return; so a closed channel is never
    registered again. *)
Theorem unregistered_stays_out
    (boot : time.Time) (tr0 tr : list action) (st st' : state) (ch : loc) (pc : sess_pc) :
  run tr0 (init boot) = Ok st →
  spc st !! ch = Some pc → (5 < rank pc)%nat →
  run tr st = Ok st' →
  (ch ∉ clients (reg st'))
  ∧ step (ABSend ch) st' = Stuck
  ∧ step (ASNew ch) st' = Stuck
  ∧ ∃ pc', spc st' !! ch = Some pc' ∧ (rank pc ≤ rank pc')%nat.
Proof.
  intros Hrun0 Hpc Hrank Hrun.
  pose proof (reachable_inv _ _ _ Hrun0) as Hinv.
  pose proof (run_inv _ _ _ Hinv Hrun) as Hinv'.
  destruct (run_rank _ _ _ _ _ Hrun Hpc) as (pc' & Hpc' & Hle).
  assert (Hout : ch ∉ clients (reg st')).
  { intros Hin. apply (inv_clients _ Hinv') in Hin as (pc2 & Hpc2 & Hr).
    simplify_eq. apply registered_rank in Hr. lia. }
  split; [done |]. split; [| split; [| eauto]].
  - cbn [step]. unfold step_bcast. destruct (bpc st'); try done.
    rewrite decide_False; [done | set_solver].
  - cbn [step]. rewrite decide_False; [done |].
    intros [_ Hf]. apply Hf. apply elem_of_dom. eauto.
Qed.

Lemma unregistered_stays_out_witness :
  let tr0 := one_waiting ++ [ASCancel 1; ASStep 1; ASStep 1] in
  let tr := [ASStep 1; ARead (Record_ rawRename); ABLock; ABUnlock; ASStep 1] in
  let st := final (run tr0 (init boot0)) (init boot0) in
  let st' := final (run tr st) st in
  run tr0 (init boot0) = Ok st
  ∧ spc st !! 1%positive = Some SDeferUnlock
  ∧ run tr st = Ok st'
  ∧ (1%positive ∉ clients (reg st')).
Proof.
  intros tr0 tr st st'.
  assert (Hrun0 : run tr0 (init boot0) = Ok st) by (by vm_compute).
  assert (Hpc : spc st !! 1%positive = Some SDeferUnlock) by (by vm_compute).
  assert (Hrun : run tr st = Ok st') by (by vm_compute).
  split; [exact Hrun0 |]. split; [exact Hpc |]. split; [exact Hrun |].
  exact (proj1 (unregistered_stays_out boot0 tr0 tr st st' 1 SDeferUnlock Hrun0 Hpc
                  ltac:(cbn; lia) Hrun)).
Defined.
(** *** A session that has left its loop *)

Lemma step_streamed a st st' ch pc :
  step a st = Ok st' → spc st !! ch = Some pc → (3 < rank pc)%nat →
  streamed st' !!! ch = streamed st !!! ch.
Proof.
  intros Hstep Hpc Hrank. pose proof (step_effect _ _ _ Hstep) as Heff.
  destruct a as [r| |ch'| |ch'|ch'|ch' sent|ch'].
  - destruct Heff as [_ ->]. done.
  - destruct Heff as [_ ->]. done.
  - destruct Heff as (b & v & c & _ & _ & _ & _ & _ & ->). done.
  - destruct Heff as [_ ->]. done.
  - destruct Heff as (_ & _ & ->). done.
  - destruct Heff as (-> & _). done.
  - destruct Heff as (c & c' & o & Hpc' & _ & _ & _ & ->).
    destruct (decide (ch' = ch)) as [-> | Hne].
    + simplify_eq. cbn in Hrank. lia.
    + by rewrite lookup_total_insert_ne.
  - destruct Heff as [_ ->]. done.
Qed.

(** X18. A session that has left its select loop, because the client
    went away or a send failed, forwards nothing more: in every later
    state what it has passed to [stream.Send] is what it had passed when
    it left, so the batches still waiting in its queue are never sent. *)
Theorem cancelled_session_sends_no_more (tr : list action) :
  ∀ (st st' : state) (ch : loc) (pc : sess_pc),
  spc st !! ch = Some pc → (3 < rank pc)%nat →
  run tr st = Ok st' →
  streamed st' !!! ch = streamed st !!! ch
  ∧ ∃ pc', spc st' !! ch = Some pc' ∧ (3 < rank pc')%nat.
Proof.
  induction tr as [|a tr IH]; intros st st' ch pc Hpc Hrank Hrun; cbn in Hrun.
  - simplify_eq. eauto.
  - destruct (step a st) as [st1| |] eqn:Hs; try done.
    destruct (step_rank _ _ _ _ _ Hs Hpc) as (pc1 & Hpc1 & Hle1).
    destruct (IH st1 st' ch pc1 Hpc1 ltac:(lia) Hrun) as (Heq & pc' & Hpc' & Hr').
    split; [| eauto]. rewrite Heq. by eapply step_streamed.
Qed.

Lemma cancelled_session_sends_no_more_witness :
  let st := final (run (one_waiting ++ [ASCancel 1]) (init boot0)) (init boot0) in
  let tr := teardown 1 ++ [ARead (Record_ rawRename); ABLock; ABUnlock] in
  let st' := final (run tr st) st in
  spc st !! 1%positive = Some SDeferLock
  ∧ run tr st = Ok st'
  ∧ queue st 1 = [[pbEvent boot0 renameEvent]]
  ∧ streamed st' !!! 1%positive = streamed st !!! 1%positive.
Proof.
  intros st tr st'.
  assert (Hpc : spc st !! 1%positive = Some SDeferLock) by (by vm_compute).
  assert (Hrun : run tr st = Ok st') by (by vm_compute).
  split; [exact Hpc |]. split; [exact Hrun |]. split; [by vm_compute |].
  exact (proj1 (cancelled_session_sends_no_more tr st st' 1 SDeferLock Hpc
                  ltac:(cbn; lia) Hrun)).
Defined.
(** *** What a slow subscriber keeps *)

Lemma take_take_app {A} (n : nat) (l1 l2 : list A) :
  take n (take n l1 ++ l2) = take n (l1 ++ l2).
Proof.
  destruct (decide (n ≤ length l1)%nat) as [Hle | Hgt].
  - rewrite (take_app_le l1) by done.
    rewrite take_app_le by (rewrite length_take; lia).
    rewrite take_take. f_equal. lia.
  - rewrite (take_ge l1) by lia. done.
Qed.

Lemma enqueue_take b c :
  (length (chan.buf c) ≤ chan.cap c)%nat → chan.closed c = false →
  enqueue b c = chan.mk (take (chan.cap c) (chan.buf c ++ [b])) (chan.cap c) false.
Proof.
  intros Hlen Ho. unfold enqueue. destruct c as [buf cap cl].
  cbn [chan.buf chan.cap chan.closed] in *. subst.
  destruct (Nat.ltb_spec (length buf) cap).
  - rewrite take_ge by (rewrite length_app; cbn; lia). done.
  - rewrite take_app_le by lia. rewrite take_ge by lia. done.
Qed.

Lemma broadcast_enqueue batch r :
  registry_ok r →
  ∃ r', broadcast batch r = Ok r' ∧ clients r' = clients r
    ∧ (∀ ch c, ch ∈ clients r → chans r !! ch = Some c →
         chans r' !! ch = Some (enqueue batch c))
    ∧ registry_ok r'.
Proof.
  intros Hok.
  destruct (rangeSend_perm batch r (elements (clients r)) Hok (reflexivity _))
    as (h' & Hrun & Hh').
  exists (mkRegistry (clients r) h'). unfold broadcast. rewrite Hrun.
  split; [done |]. split; [done |]. split.
  - intros ch c Hin Hc. rewrite Hh', Hc. cbn. by rewrite decide_True.
  - intros ch Hin. cbn in *. destruct (Hok ch Hin) as (c & Hc & Ho & Hcap).
    exists (enqueue batch c). rewrite Hh', Hc. cbn. rewrite decide_True by done.
    split; [done |]. split; [by apply enqueue_closed | by rewrite enqueue_cap].
Qed.

(** X19. A subscriber that does not take its batches keeps the oldest
    and loses the newest: after [broadcastEvents] has gone through a
    sequence of reads, the queue of every client holds what it held
    followed by the batches decoded from the reads, cut off at 100; the
    batches beyond are the ones dropped, and a queue that was full is
    unchanged. *)
Theorem broadcastEvents_keeps_oldest (boot : time.Time) (reads : list read_result) :
  ∀ r : registry,
  registry_ok r →
  (∀ ch c, ch ∈ clients r → chans r !! ch = Some c → (length (chan.buf c) ≤ 100)%nat) →
  ∃ r', broadcastEvents boot reads r = Ok r'
    ∧ clients r' = clients r
    ∧ (∀ ch c, ch ∈ clients r → chans r !! ch = Some c →
         chans r' !! ch
         = Some (chan.mk (take 100 (chan.buf c ++ decodedReads boot reads)) 100 false))
    ∧ (∀ ch c, ch ∈ clients r → chans r !! ch = Some c →
         length (chan.buf c) = 100%nat → chans r' !! ch = Some c).
Proof.
  assert (Hmain : ∀ r : registry,
    registry_ok r →
    (∀ ch c, ch ∈ clients r → chans r !! ch = Some c → (length (chan.buf c) ≤ 100)%nat) →
    ∃ r', broadcastEvents boot reads r = Ok r'
      ∧ clients r' = clients r
      ∧ (∀ ch c, ch ∈ clients r → chans r !! ch = Some c →
           chans r' !! ch
           = Some (chan.mk (take 100 (chan.buf c ++ decodedReads boot reads)) 100 false))).
  { induction reads as [|rd reads IH]; intros r Hok Hlen.
    - exists r. split; [done |]. split; [done |].
      intros ch c Hin Hc. cbn. rewrite app_nil_r, take_ge by eauto.
      destruct (Hok ch Hin) as (c' & Hc' & Ho & Hcap). simplify_eq.
      destruct c. cbn in *. unfold clientChanCap in Hcap. by subst.
    - destruct rd as [raw|].
      2: { exists r. split; [done |]. split; [done |].
           intros ch c Hin Hc. cbn. rewrite app_nil_r, take_ge by eauto.
           destruct (Hok ch Hin) as (c' & Hc' & Ho & Hcap). simplify_eq.
           destruct c. cbn in *. unfold clientChanCap in Hcap. by subst. }
      cbn [broadcastEvents decodedReads].
      destruct (decodeBatch boot raw) as [err|batch]; [by apply IH |].
      destruct (broadcast_enqueue batch r Hok) as (r1 & Hb & Hcl1 & Hch1 & Hok1).
      rewrite Hb, bind_Ok.
      assert (Henq : ∀ ch c, ch ∈ clients r → chans r !! ch = Some c →
                enqueue batch c = chan.mk (take 100 (chan.buf c ++ [batch])) 100 false).
      { intros ch c Hin Hc. destruct (Hok ch Hin) as (c' & Hc' & Ho & Hcap). simplify_eq.
        unfold clientChanCap in Hcap. rewrite <- Hcap.
        apply enqueue_take; [| done]. rewrite Hcap. eauto. }
      destruct (IH r1 Hok1) as (r' & Hrun & Hcl' & Hch').
      { intros ch c Hin Hc. rewrite Hcl1 in Hin.
        destruct (Hok ch Hin) as (c0 & Hc0 & _).
        rewrite (Hch1 _ _ Hin Hc0), (Henq _ _ Hin Hc0) in Hc. simplify_eq. cbn.
        rewrite length_take. lia. }
      exists r'. split; [done |]. split; [congruence |].
      intros ch c Hin Hc.
      rewrite (Hch' ch (chan.mk (take 100 (chan.buf c ++ [batch])) 100 false)).
      + cbn. rewrite take_take_app, <- app_assoc. done.
      + by rewrite Hcl1.
      + by rewrite (Hch1 _ _ Hin Hc), (Henq _ _ Hin Hc). }
  intros r Hok Hlen. destruct (Hmain r Hok Hlen) as (r' & Hrun & Hcl & Hch).
  exists r'. split; [done |]. split; [done |]. split; [done |].
  intros ch c Hin Hc Hfull. rewrite (Hch _ _ Hin Hc).
  rewrite take_app_le, take_ge by lia.
  destruct (Hok ch Hin) as (c' & Hc' & Ho & Hcap). simplify_eq.
  destruct c. cbn in *. unfold clientChanCap in Hcap. by subst.
Qed.

Lemma broadcastEvents_keeps_oldest_witness :
  let r := register 1 (mkRegistry ∅ ∅) in
  let reads := [Record_ rawRename; Record_ [xff]; Record_ (rawRecord x01); ReadError;
                Record_ rawRename] in
  registry_ok r
  ∧ ∃ r', broadcastEvents boot0 reads r = Ok r'
      ∧ chans r' !! 1%positive
        = Some (chan.mk (take 100 ([] ++ decodedReads boot0 reads)) 100 false).
Proof.
  intros r reads.
  assert (Hok : registry_ok r).
  { apply register_ok; [apply registry_ok_empty | done]. }
  assert (Hlen : ∀ ch c, ch ∈ clients r → chans r !! ch = Some c →
                  (length (chan.buf c) ≤ 100)%nat).
  { intros ch c Hin Hc. cbn in Hin, Hc.
    assert (ch = 1%positive) as -> by set_solver.
    rewrite lookup_insert_eq in Hc. simplify_eq. cbn. lia. }
  split; [exact Hok |].
  destruct (broadcastEvents_keeps_oldest boot0 reads r Hok Hlen) as (r' & H1 & _ & H3 & _).
  exists r'. split; [exact H1 |].
  apply (H3 1%positive (chan.make clientChanCap)).
  - cbn. set_solver.
  - cbn. by rewrite lookup_insert_eq.
Defined.
(** *** What a subscriber receives *)

Lemma syscallName_known id :
  existsb (list_byte_eqb (syscallName id)) syscall_names = true.
Proof.
  unfold syscallName.
  destruct (id =? 1); [by vm_compute |].
  destruct (id =? 2); [by vm_compute |].
  destruct (id =? 3); by vm_compute.
Qed.

(** The batch of a record that decodes is as [batch_ok] has it. *)
Lemma decodeBatch_ok boot raw b : decodeBatch boot raw = inr b → batch_ok b = true.
Proof.
  unfold decodeBatch, mkBatch. intros H.
  destruct (binary_Read raw) as [err|e] eqn:Hread; simplify_eq.
  apply binary_Read_layout in Hread as [Hlen ->].
  unfold event_size in Hlen. cbn in Hlen.
  cbn [batch_ok]. unfold event_ok, pbEvent.
  cbn [pb.Comm pb.Path pb.NewPath pb.Syscall pb.Pid pb.Tid pb.RetVal pb.Bytes pb.Flags
       Pid Tid Comm SyscallId RetVal Bytes Path NewPath].
  pose proof (le_value_take 4 (drop 8 raw)) as R2.
  pose proof (le_value_take 4 (drop 12 raw)) as R3.
  pose proof (le_value_take 8 (drop 44 raw)) as R6.
  rewrite length_drop in R2, R3, R6.
  change (256 ^ Z.of_nat 8) with (2 ^ 64) in *.
  change (256 ^ Z.of_nat 4) with (2 ^ 32) in *.
  pose proof (to_int64_range (le_value (take 8 (drop 36 raw)))) as R7.
  assert (Hs : ∀ n i, (i + n ≤ length raw)%nat →
            (length (sanitizeString (take n (drop i raw))) <=? n)%nat = true).
  { intros n i Hi. apply Nat.leb_le. etrans; [apply sanitizeString_le |].
    rewrite length_take, length_drop. lia. }
  rewrite !sanitizeString_valid, !Hs, syscallName_known by lia. cbn [andb].
  repeat (apply andb_true_intro; split);
    first [reflexivity | apply Z.leb_le; lia | apply Z.ltb_lt; lia].
Qed.

Lemma step_in_hand a st st' b :
  step a st = Ok st' → b ∈ in_hand (bpc st') →
  b ∈ in_hand (bpc st)
  ∨ ∃ raw, a = ARead (Record_ raw) ∧ decodeBatch (bootTime st) raw = inr b.
Proof.
  intros Hstep Hb.
  destruct (of_session a) eqn:Ha.
  { left. by rewrite <- (step_bpc _ _ _ Hstep Ha). }
  destruct a as [[raw|]| |ch| |ch|ch|ch sent|ch]; try done; cbn [step] in Hstep;
    unfold step_bcast in Hstep.
  - destruct (bpc st) eqn:Hpc; try done.
    destruct (decodeBatch (bootTime st) raw) as [err|b'] eqn:Hd; simplify_eq.
    + left. by rewrite Hpc in Hb.
    + right. exists raw. split; [done |]. cbn in Hb. set_solver.
  - destruct (bpc st); simplify_eq. cbn in Hb. set_solver.
  - destruct (bpc st); try done. destruct (mu st); simplify_eq. by left.
  - destruct (bpc st) as [| |b0 v|]; try done. case_decide; [| done].
    destruct (selectnbsend _ _ _); result_simpl Hstep; simplify_eq. by left.
  - destruct (bpc st); try done. case_decide; simplify_eq. cbn in Hb. set_solver.
Qed.

Lemma step_batches_ok a st st' :
  inv st → batches_ok st → step a st = Ok st' → batches_ok st'.
Proof.
  intros Hinv [Hhand Hq Hs] Hstep.
  assert (Hhand' : Forall (λ b, batch_ok b = true) (in_hand (bpc st'))).
  { apply Forall_forall. intros b Hb.
    destruct (step_in_hand _ _ _ _ Hstep Hb) as [Hold | (raw & _ & Hd)].
    - by eapply Forall_forall in Hhand.
    - by eapply decodeBatch_ok. }
  assert (Hlog : ∀ ch l, streamed st !!! ch = l → Forall (λ b, batch_ok b = true) l).
  { intros ch l <-. rewrite lookup_total_alt.
    destruct (streamed st !! ch) as [l|] eqn:Hl; cbn; [eauto | done]. }
  pose proof (step_effect _ _ _ Hstep) as Heff.
  split; [done | |].
  - intros ch0 c0 Hc0. destruct a as [r| |ch| |ch|ch|ch sent|ch].
    + destruct Heff as [Hr _]. rewrite Hr in Hc0. eauto.
    + destruct Heff as [Hr _]. rewrite Hr in Hc0. eauto.
    + destruct Heff as (b & v & c & Hb & _ & Hc & _ & Hr & _). rewrite Hr in Hc0.
      cbn in Hc0. apply lookup_insert_Some in Hc0 as [[-> <-]|[_ Hc0]]; [| eauto].
      unfold enqueue. case_match; [| eauto]. cbn.
      apply Forall_app. split; [eauto |].
      rewrite Hb in Hhand. done.
    + destruct Heff as [Hr _]. rewrite Hr in Hc0. eauto.
    + destruct Heff as (_ & Hr & _). rewrite Hr in Hc0. cbn in Hc0.
      apply lookup_insert_Some in Hc0 as [[-> <-]|[_ Hc0]]; [done | eauto].
    + destruct Heff as (_ & [Hr | (c & Hc & _ & Hr)]); rewrite Hr in Hc0; [eauto |].
      apply lookup_insert_Some in Hc0 as [[-> <-]|[_ Hc0]]; [cbn |]; eauto.
    + destruct Heff as (c & c' & o & _ & Hc & Hrecv & Hr & _). rewrite Hr in Hc0.
      cbn in Hc0. apply lookup_insert_Some in Hc0 as [[-> <-]|[_ Hc0]]; [| eauto].
      apply recv_Ok in Hrecv as [(ep & rest & Hbuf & -> & _) | (_ & _ & -> & _)]; [| eauto].
      specialize (Hq _ _ Hc). rewrite Hbuf in Hq. by apply Forall_cons in Hq as [_ ?].
    + destruct Heff as [Hr _]. rewrite Hr in Hc0. eauto.
  - intros ch0 l Hl. destruct a as [r| |ch| |ch|ch|ch sent|ch].
    + destruct Heff as [_ Hr]. rewrite Hr in Hl. eauto.
    + destruct Heff as [_ Hr]. rewrite Hr in Hl. eauto.
    + destruct Heff as (b & v & c & _ & _ & _ & _ & _ & Hr). rewrite Hr in Hl. eauto.
    + destruct Heff as [_ Hr]. rewrite Hr in Hl. eauto.
    + destruct Heff as (_ & _ & Hr). rewrite Hr in Hl. eauto.
    + destruct Heff as (Hr & _). rewrite Hr in Hl. eauto.
    + destruct Heff as (c & c' & o & Hpc & Hc & Hrecv & _ & Hr). rewrite Hr in Hl.
      apply lookup_insert_Some in Hl as [[-> <-]|[_ Hl]]; [| eauto].
      apply Forall_app. split; [by eapply Hlog |].
      destruct (inv_chans _ Hinv _ _ Hpc) as (c0 & Hc0 & _ & Hclosed). simplify_eq.
      apply recv_Ok in Hrecv as [(ep & rest & Hbuf & _ & ->) | (_ & Hcl & _)];
        [| cbn in Hclosed; congruence].
      specialize (Hq _ _ Hc). rewrite Hbuf in Hq. apply Forall_cons in Hq as [? _].
      cbn. by constructor.
    + destruct Heff as [_ Hr]. rewrite Hr in Hl. eauto.
Qed.

Lemma run_batches_ok tr : ∀ st st',
  inv st → batches_ok st → run tr st = Ok st' → batches_ok st'.
Proof.
  induction tr as [|a tr IH]; intros st st' Hinv Hok Hrun; cbn in Hrun; [by simplify_eq |].
  destruct (step a st) as [st1| |] eqn:Hs; try done.
  eapply IH; [| | exact Hrun]; [by eapply step_inv | by eapply step_batches_ok].
Qed.

Lemma batches_ok_init boot : batches_ok (init boot).
Proof.
  split; cbn; [done | |]; intros ch x Hx; by rewrite lookup_empty in Hx.
Qed.

(** X20. Whatever reaches a subscriber is a batch as the loop builds
    it: in every state the program reaches, every batch waiting in a
    queue or already passed to [stream.Send] holds exactly one event,
    whose strings are valid UTF-8 of at most 16 and 256 bytes, whose
    numbers are within their Go types, whose syscall name is one of
    [openat], [write], [rename] and [unknown], and whose access mode is
    the default. *)
Theorem subscribers_get_well_formed_batches
    (boot : time.Time) (tr : list action) (st : state) :
  run tr (init boot) = Ok st →
  ∀ ch b, b ∈ delivered st ch →
    batch_ok b = true
    ∧ ∃ ev, b = [ev]
        ∧ ValidString (pb.Comm ev) = true ∧ ValidString (pb.Path ev) = true
        ∧ ValidString (pb.NewPath ev) = true
        ∧ pb.Syscall ev ∈ syscall_names
        ∧ pb.Flags ev = pb.Event_O_RDONLY.
Proof.
  intros Hrun ch b Hb.
  pose proof (run_batches_ok _ _ _ (inv_init boot) (batches_ok_init boot) Hrun)
    as [_ Hq Hs].
  assert (Hok : batch_ok b = true).
  { unfold delivered in Hb. apply elem_of_app in Hb as [Hb | Hb].
    - rewrite lookup_total_alt in Hb.
      destruct (streamed st !! ch) as [l|] eqn:Hl; cbn in Hb; [| set_solver].
      specialize (Hs _ _ Hl). by eapply Forall_forall in Hs.
    - unfold queue in Hb. destruct (chans (reg st) !! ch) as [c|] eqn:Hc; [| set_solver].
      specialize (Hq _ _ Hc). by eapply Forall_forall in Hq. }
  split; [done |].
  destruct b as [|ev [|ev' b']]; try done. exists ev. split; [done |].
  cbn in Hok. unfold event_ok in Hok.
  repeat match type of Hok with
         | _ && _ = true => apply andb_true_iff in Hok as [Hok ?]
         end.
  repeat (split; [done |]). split.
  - unfold syscall_names in *. cbn [existsb] in *.
    assert (Heqb : ∀ x y, list_byte_eqb x y = true → x = y).
    { clear. unfold list_byte_eqb. intros x.
      induction x as [|a x IH]; intros [|b y] H; cbn in H; try done.
      apply andb_true_iff in H as [Hl H]. apply andb_true_iff in H as [Hab H].
      apply Byte.byte_dec_bl in Hab. cbn in Hab. subst. f_equal. apply IH.
      by rewrite Hl, H. }
    repeat match goal with
           | H : (_ || _) = true |- _ => apply orb_true_iff in H as [H | H]
           end; try done;
      match goal with H : list_byte_eqb _ _ = true |- _ => apply Heqb in H as -> end;
      set_solver.
  - by destruct (pb.Flags ev).
Qed.

Lemma subscribers_get_well_formed_batches_witness :
  let st := final (run one_waiting (init boot0)) (init boot0) in
  run one_waiting (init boot0) = Ok st
  ∧ delivered st 1 = [[pbEvent boot0 renameEvent]]
  ∧ ∀ b, b ∈ delivered st 1 → batch_ok b = true.
Proof.
  intros st.
  assert (Hrun : run one_waiting (init boot0) = Ok st) by (by vm_compute).
  split; [exact Hrun |]. split; [by vm_compute |].
  intros b Hb.
  exact (proj1 (subscribers_get_well_formed_batches boot0 one_waiting st Hrun 1 b Hb)).
Defined.
